(** * Contract templates of the Algorand Python SDK: [algosdk/template.py]

    A shallow embedding of the byte-patching engine ([put_uvarint], [inject])
    and of the template classes built on it ([Template], [Split], [HTLC],
    [DynamicFee], [PeriodicPayment], [LimitOrder]), followed by the
    properties of the design specification that concern them.

    Python integers are unbounded, hence [Z].  A [bytes] object is a list of
    integers in [0, 255].  Exceptions are values of [exn] carried by
    [result].  The one piece of shared mutable state, the [offsets] list that
    [inject] updates in place, is threaded explicitly. *)

From Stdlib Require Import ZArith List String Bool Lia.
Import ListNotations.
Open Scope Z_scope.

(* ===================================================================== *)
(** * Python values and exceptions                                         *)
(* ===================================================================== *)

Definition bytes := list Z.

(** The dynamically typed values that reach [inject] and the template
    fields: [None], an [int], a [str] or a [bytes]. *)
Inductive pyval : Type :=
| PNone
| PInt (n : Z)
| PStr (s : string)
| PBytes (b : bytes).

(** An element of [values_types]: the class [int] or a string tag. *)
Inductive pytype : Type :=
| TyInt
| TyTag (s : string).

Inductive exn : Type :=
| AssertionError
| UnknownType          (* Exception("Unkown Type") *)
| NotDivisibleError    (* error.NotDivisibleError *)
| TypeError
| ValueError
| IndexError
| ZeroDivisionError
| OverflowError
| External (who : string).  (* raised inside a collaborator module *)

Inductive result (A : Type) : Type :=
| Ok (a : A)
| Raise (e : exn).

Arguments Ok {A} a.
Arguments Raise {A} e.

Definition bind {A B} (r : result A) (k : A -> result B) : result B :=
  match r with
  | Ok a => k a
  | Raise e => Raise e
  end.

Notation "x <- r ;; k" := (bind r (fun x => k))
  (at level 61, r at next level, right associativity).
Notation "' p <- r ;; k" := (bind r (fun p => k))
  (at level 61, p pattern, r at next level, right associativity).

(** A collaborator outside this module either returns or raises one of its
    own exceptions; [None] stands for the latter. *)
Definition outside {A} (who : string) (o : option A) : result A :=
  match o with
  | Some a => Ok a
  | None => Raise (External who)
  end.

Definition is_byte (b : Z) : bool := (0 <=? b) && (b <? 256).

(** [bytes(buf)] on a list of integers: [ValueError] unless every element
    is in [range(256)]. *)
Definition bytes_of_ints (buf : list Z) : result bytes :=
  if forallb is_byte buf then Ok buf else Raise ValueError.

Definition len {A} (l : list A) : Z := Z.of_nat (List.length l).

(** Python slice bounds: a negative index counts from the end, and both
    ends are clamped to the sequence. *)
Definition slice_index {A} (arr : list A) (j : Z) : nat :=
  Z.to_nat (if j <? 0 then Z.max 0 (len arr + j) else j).

(** [arr[:j]] *)
Definition slice_to {A} (arr : list A) (j : Z) : list A :=
  firstn (slice_index arr j) arr.

(** [arr[j:]] *)
Definition slice_from {A} (arr : list A) (j : Z) : list A :=
  skipn (slice_index arr j) arr.

(* ===================================================================== *)
(** * [put_uvarint]                                                        *)
(* ===================================================================== *)

(** The [while x >= 0x80] loop on the state [(buf, x, i)].  Each turn
    shifts [x] right by seven bits, so [fuel] turns are enough as soon as
    [fuel] is at least the bit length of [x]; see
    [put_uvarint_loop_exits] and [put_uvarint_loop_more_fuel]. *)
Fixpoint put_uvarint_loop (fuel : nat) (buf : list Z) (x i : Z)
  : list Z * Z * Z :=
  match fuel with
  | O => (buf, x, i)
  | S fuel' =>
      if 128 <=? x
      then put_uvarint_loop fuel'
             (buf ++ [Z.lor (Z.land x 255) 128]) (Z.shiftr x 7) (i + 1)
      else (buf, x, i)
  end.

Definition loop_fuel (x : Z) : nat := Z.to_nat (Z.log2 x).

(** [put_uvarint(buf, x)]: the list after the appends, and the returned
    count. *)
Definition put_uvarint (buf : list Z) (x : Z) : list Z * Z :=
  let '(buf1, x1, i1) := put_uvarint_loop (loop_fuel x) buf x 0 in
  (buf1 ++ [Z.land x1 255], i1 + 1).

(* ===================================================================== *)
(** * [inject]                                                             *)
(* ===================================================================== *)

(** The nested helper [replace]. *)
Definition replace (arr new_val : bytes) (offset place_holder_length : Z)
  : bytes :=
  slice_to arr offset ++ new_val ++ slice_from arr (offset + place_holder_length).

(** The four argument objects as the caller sees them. *)
Record call_args : Type := Args {
  orig : bytes;
  offsets : list Z;
  values : list pyval;
  values_types : list pytype
}.

(** [for o in range(len(offsets)): offsets[o] += dec_len - 1], guarded by
    [if dec_len != 0]. *)
Definition update_offsets (offs : list Z) (dec_len : Z) : list Z :=
  if dec_len =? 0 then offs else map (fun o => o + (dec_len - 1)) offs.

Definition index {A} (l : list A) (i : nat) : result A :=
  match nth_error l i with
  | Some a => Ok a
  | None => Raise IndexError
  end.

Section Inject.

(** [encoding.decode_address] and [base64.b64decode]. *)
Variable decode_address : pyval -> option bytes.
Variable b64decode : pyval -> option bytes.

(** One turn of the [for i] loop: the new [res] and the [dec_len] of the
    branch taken. *)
Definition inject_body (vals : list pyval) (tys : list pytype)
           (res : bytes) (offs : list Z) (i : nat) : result (bytes * Z) :=
  val <- index vals i ;;
  val_type <- index tys i ;;
  match val_type with
  | TyInt =>
      match val with
      | PInt x =>
          let '(buf, dec_len) := put_uvarint [] x in
          v <- bytes_of_ints buf ;;
          o <- index offs i ;;
          Ok (replace res v o 1, dec_len)
      | _ => Raise TypeError
      end
  | TyTag tag =>
      if String.eqb tag "address" then
        v <- outside "encoding.decode_address" (decode_address val) ;;
        o <- index offs i ;;
        Ok (replace res v o 32, 0)
      else if String.eqb tag "base64" then
        v <- outside "base64.b64decode" (b64decode val) ;;
        let '(buf, n) := put_uvarint [] (len v) in
        let dec_len := n + len v in
        p <- bytes_of_ints buf ;;
        o <- index offs i ;;
        Ok (replace res (p ++ v) o 2, dec_len)
      else Raise UnknownType
  end.

(** The [for i in range(len(offsets))] loop over the remaining indices;
    it returns the outcome and the [offsets] list as left behind. *)
Fixpoint inject_loop (vals : list pyval) (tys : list pytype)
         (idx : list nat) (res : bytes) (offs : list Z)
  : result bytes * list Z :=
  match idx with
  | [] => (Ok res, offs)
  | i :: idx' =>
      match inject_body vals tys res offs i with
      | Ok (res', dec_len) =>
          inject_loop vals tys idx' res' (update_offsets offs dec_len)
      | Raise e => (Raise e, offs)
      end
  end.

Definition same_length (a : call_args) : bool :=
  (List.length (offsets a) =? List.length (values a))%nat
  && (List.length (values a) =? List.length (values_types a))%nat.

(** [inject(orig, offsets, values, values_types)]: the outcome, and the
    argument objects after the call. *)
Definition inject (a : call_args) : result bytes * call_args :=
  if same_length a then
    let '(r, offs) :=
      inject_loop (values a) (values_types a)
                  (seq 0 (List.length (offsets a))) (orig a) (offsets a) in
    (r, Args (orig a) offs (values a) (values_types a))
  else (Raise AssertionError, a).

End Inject.

(* ===================================================================== *)
(** * Python arithmetic used by [Split]                                    *)
(* ===================================================================== *)

(** [a // b] and [a % b] on integers: floor division, as [Z.div] and
    [Z.modulo]; a zero divisor raises. *)
Definition floordiv (a b : Z) : result Z :=
  if b =? 0 then Raise ZeroDivisionError else Ok (a / b).

Definition pymod (a b : Z) : result Z :=
  if b =? 0 then Raise ZeroDivisionError else Ok (a mod b).

(** A Python [float] is an IEEE 754 binary64 number.  A finite one is kept
    exactly, as [mant * 2 ^ expo]. *)
Inductive pyfloat : Type :=
| Finite (mant expo : Z)
| Infinity (negative : bool)
| NaN.

(** The integer nearest to [n / d] for [d > 0], a tie going to the even
    one. *)
Definition div_half_even (n d : Z) : Z :=
  let q := n / d in
  match 2 * (n mod d) ?= d with
  | Lt => q
  | Gt => q + 1
  | Eq => if Z.even q then q else q + 1
  end.

(** [floor (log2 (n / d))] for [n, d > 0]. *)
Definition ilog2_ratio (n d : Z) : Z :=
  let l := Z.log2 n - Z.log2 d in
  if n * 2 ^ Z.max 0 (- l) <? d * 2 ^ Z.max 0 l then l - 1 else l.

(** The binary64 number nearest to the rational [n / d] ([d > 0]), ties to
    even: 53 significant bits, least exponent -1074, and an infinity from
    [2 ^ 1024] on. *)
Definition round_binary64 (n d : Z) : pyfloat :=
  if n =? 0 then Finite 0 0
  else
    let a := Z.abs n in
    let q := Z.max (ilog2_ratio a d - 52) (- 1074) in
    let m := div_half_even (a * 2 ^ Z.max 0 (- q)) (d * 2 ^ Z.max 0 q) in
    if (0 <=? q) && (2 ^ (1024 - q) <=? m)
    then Infinity (n <? 0)
    else Finite (Z.sgn n * m) q.

(** [a / b] on integers: the correctly rounded quotient; a result too large
    for a float raises. *)
Definition truediv (a b : Z) : result pyfloat :=
  if b =? 0 then Raise ZeroDivisionError
  else match round_binary64 (a * Z.sgn b) (Z.abs b) with
       | Finite m e => Ok (Finite m e)
       | _ => Raise OverflowError
       end.

(** The conversion of an [int] operand to [float]. *)
Definition float_of_int (n : Z) : result pyfloat :=
  match round_binary64 n 1 with
  | Finite m e => Ok (Finite m e)
  | _ => Raise OverflowError
  end.

(** [x * y] on floats. *)
Definition float_mul (x y : pyfloat) : pyfloat :=
  match x, y with
  | Finite m1 e1, Finite m2 e2 =>
      let e := e1 + e2 in
      round_binary64 (m1 * m2 * 2 ^ Z.max 0 e) (2 ^ Z.max 0 (- e))
  | Infinity s, Finite m _ | Finite m _, Infinity s =>
      if m =? 0 then NaN else Infinity (xorb s (m <? 0))
  | Infinity s1, Infinity s2 => Infinity (xorb s1 s2)
  | NaN, _ | _, NaN => NaN
  end.

(** [x * n] with a float on the left and an [int] on the right. *)
Definition float_mul_int (x : pyfloat) (n : Z) : result pyfloat :=
  y <- float_of_int n ;;
  Ok (float_mul x y).

(** [round(x)] on a float: the nearest integer, ties to even. *)
Definition round (x : pyfloat) : result Z :=
  match x with
  | Finite m e =>
      if 0 <=? e then Ok (m * 2 ^ e) else Ok (div_half_even m (2 ^ (- e)))
  | Infinity _ => Raise OverflowError
  | NaN => Raise ValueError
  end.

(* ===================================================================== *)
(** * The template classes                                                 *)
(* ===================================================================== *)

(** Instance fields, one record per class. *)
Module Split.
Record t : Type := Make {
  owner : string;
  receiver_1 : string;
  receiver_2 : string;
  ratn : Z;
  ratd : Z;
  expiry_round : Z;
  min_pay : Z;
  max_fee : Z
}.
End Split.

Module HTLC.
Record t : Type := Make {
  owner : string;
  receiver : string;
  hash_function : string;
  hash_image : string;
  expiry_round : Z;
  max_fee : Z
}.
End HTLC.

Module DynamicFee.
Record t : Type := Make {
  lease_value : string;
  last_valid : pyval;
  amount : Z;
  first_valid : Z;
  close_remainder_address : pyval;
  receiver : string
}.
End DynamicFee.

Module PeriodicPayment.
Record t : Type := Make {
  lease_value : bytes;
  receiver : string;
  amount : Z;
  withdrawing_window : Z;
  period : Z;
  fee : Z;
  timeout : Z
}.
End PeriodicPayment.

Module LimitOrder.
Record t : Type := Make {
  owner : string;
  ratn : Z;
  ratd : Z;
  expiry_round : Z;
  min_trade : Z;
  max_fee : Z
}.
End LimitOrder.

(** An object of class [Template] or of one of its subclasses. *)
Inductive template : Type :=
| Base
| OfSplit (self : Split.t)
| OfHTLC (self : HTLC.t)
| OfDynamicFee (self : DynamicFee.t)
| OfPeriodicPayment (self : PeriodicPayment.t)
| OfLimitOrder (self : LimitOrder.t).

Definition Split_orig : string :=
  "ASAIAQUCAAYHCAkmAyDYHIR7TIW5eM/WAZcXdEDqv7BD+baMN6i2/A5JatG" ++
  "bNCDKsaoZHPQ3Zg8zZB/BZ1oDgt77LGo5np3rbto3/gloTyB40AS2H3I72Y" ++
  "CbDk4hKpm7J7NnFy2Xrt39TJG0ORFg+zEQIhIxASMMEDIEJBJAABkxCSgSM" ++
  "QcyAxIQMQglEhAxAiEEDRAiQAAuMwAAMwEAEjEJMgMSEDMABykSEDMBByoS" ++
  "EDMACCEFCzMBCCEGCxIQMwAIIQcPEBA=".

Definition HTLC_orig : string :=
  "ASAEBQEABiYDIP68oLsUSlpOp7Q4pGgayA5soQW8tgf8VlMlyVaV9qITAQ" ++
  "Yg5pqWHm8tX3rIZgeSZVK+mCNe0zNjyoiRi7nJOKkVtvkxASIOMRAjEhAx" ++
  "BzIDEhAxCCQSEDEJKBItASkSEDEJKhIxAiUNEBEQ".

Definition DynamicFee_orig : string :=
  "ASAFAgEFBgcmAyD+vKC7FEpaTqe0OKRoGsgObKEFvLYH/FZTJclWlfaiEy" ++
  "DmmpYeby1feshmB5JlUr6YI17TM2PKiJGLuck4qRW2+QEGMgQiEjMAECMS" ++
  "EDMABzEAEhAzAAgxARIQMRYjEhAxECMSEDEHKBIQMQkpEhAxCCQSEDECJR" ++
  "IQMQQhBBIQMQYqEhA=".

Definition PeriodicPayment_orig : string :=
  "ASAHAQUGAAcICSYCIH+DsWV/8fxTuS3BgUih1l38LUsfo9Z3KErd0gASbZ" ++
  "BpILO3BCfT4PJw36+yT68lZyyjP9vs0NLqLfcc6S9Ol/5iMRAiEjEBIw4Q" ++
  "MQIkGCUSEDEEIQQxAggSEDEGKBIQMQkyAxIxBykSEDEIIQUSEDEJKRIxBz" ++
  "IDEhAxAiEGDRAxCCUSEBEQ".

Section Templates.

(** The collaborators: [encoding.decode_address], [base64.b64decode],
    [base64.b64encode(...).decode()], [constants.logic_prefix],
    [encoding.checksum], [encoding.encode_address],
    [constants.lease_length], and the generator behind
    [random.randint]. *)
Variable decode_address : pyval -> option bytes.
Variable b64decode : pyval -> option bytes.
Variable b64encode : bytes -> string.
Variable logic_prefix : bytes.
Variable checksum : bytes -> bytes.
Variable encode_address : bytes -> option string.
Variable lease_length : nat.
Variable rng : Type.
Variable randint : rng -> Z -> Z -> Z * rng.

(** The tail shared by the four [get_program] bodies: decode the
    program text, call [inject] on a fresh [offsets] list, encode. *)
Definition patched (orig_text : string) (offs : list Z)
           (vals : list pyval) (tys : list pytype) : result pyval :=
  o <- outside "base64.b64decode" (b64decode (PStr orig_text)) ;;
  res <- fst (inject decode_address b64decode (Args o offs vals tys)) ;;
  Ok (PStr (b64encode res)).

Definition Split_get_program (self : Split.t) : result pyval :=
  patched Split_orig
    [4; 7; 8; 9; 10; 14; 47; 80]
    [PInt (Split.max_fee self); PInt (Split.expiry_round self);
     PInt (Split.ratn self); PInt (Split.ratd self);
     PInt (Split.min_pay self); PStr (Split.owner self);
     PStr (Split.receiver_1 self); PStr (Split.receiver_2 self)]
    [TyInt; TyInt; TyInt; TyInt; TyInt;
     TyTag "address"; TyTag "address"; TyTag "address"].

Definition HTLC_get_program (self : HTLC.t) : result pyval :=
  let hash_inject :=
    if String.eqb (HTLC.hash_function self) "sha256" then 1
    else if String.eqb (HTLC.hash_function self) "keccak256" then 2
    else 0 in
  patched HTLC_orig
    [3; 6; 10; 42; 44; 101]
    [PInt (HTLC.max_fee self); PInt (HTLC.expiry_round self);
     PStr (HTLC.receiver self); PStr (HTLC.hash_image self);
     PStr (HTLC.owner self); PInt hash_inject]
    [TyInt; TyInt; TyTag "address"; TyTag "base64"; TyTag "address"; TyInt].

Definition DynamicFee_get_program (self : DynamicFee.t) : result pyval :=
  patched DynamicFee_orig
    [5; 6; 7; 11; 44; 76]
    [PInt (DynamicFee.amount self); PInt (DynamicFee.first_valid self);
     DynamicFee.last_valid self; PStr (DynamicFee.receiver self);
     DynamicFee.close_remainder_address self;
     PStr (DynamicFee.lease_value self)]
    [TyInt; TyInt; TyInt; TyTag "address"; TyTag "address"; TyTag "base64"].

Definition PeriodicPayment_get_program (self : PeriodicPayment.t)
  : result pyval :=
  patched PeriodicPayment_orig
    [4; 5; 7; 8; 9; 12; 45]
    [PInt (PeriodicPayment.fee self); PInt (PeriodicPayment.period self);
     PInt (PeriodicPayment.withdrawing_window self);
     PInt (PeriodicPayment.amount self);
     PInt (PeriodicPayment.timeout self);
     PBytes (PeriodicPayment.lease_value self);
     PStr (PeriodicPayment.receiver self)]
    [TyInt; TyInt; TyInt; TyInt; TyInt; TyTag "base64"; TyTag "address"].

(** [self.get_program()], dispatched on the class; the bodies that are
    [pass] return [None].  No body assigns to a field, so the object is
    returned as it was. *)
Definition get_program (self : template) : result pyval * template :=
  match self with
  | Base => (Ok PNone, self)
  | OfSplit s => (Split_get_program s, self)
  | OfHTLC h => (HTLC_get_program h, self)
  | OfDynamicFee d => (DynamicFee_get_program d, self)
  | OfPeriodicPayment p => (PeriodicPayment_get_program p, self)
  | OfLimitOrder _ => (Ok PNone, self)
  end.

(** [Template.get_address]. *)
Definition get_address (self : template) : result string :=
  prog <- fst (get_program self) ;;
  raw <- outside "base64.b64decode" (b64decode prog) ;;
  let p := logic_prefix ++ raw in
  let addr := checksum p in
  outside "encoding.encode_address" (encode_address addr).

(** [[random.randint(0, 255) for x in range(n)]]. *)
Fixpoint randints (n : nat) (g : rng) : list Z * rng :=
  match n with
  | O => ([], g)
  | S n' =>
      let '(b, g1) := randint g 0 255 in
      let '(bs, g2) := randints n' g1 in
      (b :: bs, g2)
  end.

(** [DynamicFee.__init__]; an omitted optional argument is [PNone].
    The assignment [last_valid = first_valid + 1000] rebinds the local
    name only, after the field was set. *)
Definition DynamicFee_init (g : rng) (receiver : string)
           (amount first_valid : Z) (last_valid : pyval)
           (close_remainder_address : pyval)
  : result DynamicFee.t * rng :=
  let '(draws, g') := randints lease_length g in
  (lease <- bytes_of_ints draws ;;
   Ok (DynamicFee.Make
         (b64encode lease)
         last_valid
         amount
         first_valid
         (match close_remainder_address with
          | PNone => PBytes (repeat 0 32)
          | v => v
          end)
         receiver),
   g').

(** [PeriodicPayment.__init__]. *)
Definition PeriodicPayment_init (g : rng) (receiver : string)
           (amount withdrawing_window period fee timeout : Z)
  : result PeriodicPayment.t * rng :=
  let '(draws, g') := randints lease_length g in
  (lease <- bytes_of_ints draws ;;
   Ok (PeriodicPayment.Make lease receiver amount withdrawing_window
                            period fee timeout),
   g').

(** The amounts computed at the head of
    [Split.get_send_funds_transaction]: the pair [(amt_1, amt_2)] handed
    to the two payments. *)
Definition split_amounts (self : Split.t) (amount : Z) (precise : bool)
  : result (Z * Z) :=
  let amt_1 := 0 in
  let amt_2 := 0 in
  let gcd := Z.gcd (Split.ratn self) (Split.ratd self) in
  ratn <- floordiv (Split.ratn self) gcd ;;
  ratd <- floordiv (Split.ratd self) gcd ;;
  r <- pymod amount ratd ;;
  if r =? 0 then
    q <- floordiv amount ratd ;;
    let amt_1 := q * ratn in
    let amt_2 := amount - amt_2 in
    Ok (amt_1, amt_2)
  else if precise then Raise NotDivisibleError
  else
    f <- truediv amount ratd ;;
    g <- float_mul_int f ratn ;;
    amt_1 <- round g ;;
    let amt_2 := amount - amt_1 in
    Ok (amt_1, amt_2).

(** The transaction collaborator: [transaction.PaymentTxn],
    [transaction.assign_group_id] (called on the list of the two
    payments, which it updates in place: the two objects as it leaves
    them), [transaction.LogicSig] and
    [transaction.LogicSigTransaction]. *)
Variables Txn Lsig Stx RoundT HashT : Type.
Variable PaymentTxn :
  string -> Z -> RoundT -> RoundT -> HashT -> string -> Z -> option Txn.
Variable assign_group_id : Txn -> Txn -> option (Txn * Txn).
Variable LogicSig : bytes -> option Lsig.
Variable LogicSigTransaction : Txn -> Lsig -> option Stx.

(** [Split.get_send_funds_transaction]. *)
Definition get_send_funds_transaction (self : Split.t) (amount : Z)
           (first_valid last_valid : RoundT) (gh : HashT) (precise : bool)
  : result (list Stx) :=
  '(amt_1, amt_2) <- split_amounts self amount precise ;;
  a1 <- get_address (OfSplit self) ;;
  txn_1 <- outside "transaction.PaymentTxn"
             (PaymentTxn a1 (Split.max_fee self) first_valid last_valid gh
                         (Split.receiver_1 self) amt_1) ;;
  a2 <- get_address (OfSplit self) ;;
  txn_2 <- outside "transaction.PaymentTxn"
             (PaymentTxn a2 (Split.max_fee self) first_valid last_valid gh
                         (Split.receiver_2 self) amt_2) ;;
  '(txn_1, txn_2) <- outside "transaction.assign_group_id"
                       (assign_group_id txn_1 txn_2) ;;
  p <- fst (get_program (OfSplit self)) ;;
  raw <- outside "base64.b64decode" (b64decode p) ;;
  lsig <- outside "transaction.LogicSig" (LogicSig raw) ;;
  stx_1 <- outside "transaction.LogicSigTransaction"
             (LogicSigTransaction txn_1 lsig) ;;
  stx_2 <- outside "transaction.LogicSigTransaction"
             (LogicSigTransaction txn_2 lsig) ;;
  Ok [stx_1; stx_2].

(** The raises-iff reading of [NotDivisibleError] for every [Split]
    object: it is raised exactly when [precise] is true and [amount] is
    not a multiple of the denominator reduced by the gcd.  It is refuted
    below for a denominator that is zero, and followed by the statement
    that does hold. *)
Definition not_divisible_claim (self : Split.t) (amount : Z)
           (first_valid last_valid : RoundT) (gh : HashT) (precise : bool)
  : Prop :=
  get_send_funds_transaction self amount first_valid last_valid gh precise
  = Raise NotDivisibleError
  <-> precise = true
      /\ amount mod (Split.ratd self
                     / Z.gcd (Split.ratn self) (Split.ratd self)) <> 0.

End Templates.

Arguments randints {rng} randint n g.
Arguments DynamicFee_init b64encode lease_length {rng} randint g receiver
  amount first_valid last_valid close_remainder_address.
Arguments PeriodicPayment_init lease_length {rng} randint g receiver amount
  withdrawing_window period fee timeout.
Arguments get_send_funds_transaction decode_address b64decode b64encode
  logic_prefix checksum encode_address {Txn Lsig Stx RoundT HashT}
  PaymentTxn assign_group_id LogicSig LogicSigTransaction
  self amount first_valid last_valid gh precise.
Arguments not_divisible_claim decode_address b64decode b64encode
  logic_prefix checksum encode_address {Txn Lsig Stx RoundT HashT}
  PaymentTxn assign_group_id LogicSig LogicSigTransaction
  self amount first_valid last_valid gh precise.


(* ===================================================================== *)
(** * A reference decoder for the varint scheme                            *)
(* ===================================================================== *)

(** Written from the specification's description of the encoding, not
    from the source: little-endian base 128, each byte holding seven value
    bits, the high bit set on every byte but the last.  It returns the
    number read and the bytes that follow it. *)
Fixpoint uvarint_decode (bs : bytes) : option (Z * bytes) :=
  match bs with
  | [] => None
  | b :: rest =>
      if b <? 128 then Some (b, rest)
      else match uvarint_decode rest with
           | Some (hi, rest') => Some (Z.land b 127 + 128 * hi, rest')
           | None => None
           end
  end.


(** The bytes [put_uvarint] appends for [x]. *)
Definition uvarint (x : Z) : bytes := fst (put_uvarint [] x).


(* ===================================================================== *)
(** * The vocabulary of the specification for [inject]                     *)
(* ===================================================================== *)

(** A placeholder with its value: original offset, value, kind. *)
Abbreviation spec := (Z * (pyval * pytype))%type.

Section PatchSpec.

Variable decode_address : pyval -> option bytes.
Variable b64decode : pyval -> option bytes.

(** The width a placeholder of each kind reserves in the original
    program. *)
Definition reserved (t : pytype) : Z :=
  match t with
  | TyInt => 1
  | TyTag tag =>
      if String.eqb tag "address" then 32
      else if String.eqb tag "base64" then 2
      else 0
  end.

(** The bytes that stand for value [v] under kind [t]. *)
Definition encoded (v : pyval) (t : pytype) : result bytes :=
  match t with
  | TyInt =>
      match v with
      | PInt x => Ok (uvarint x)
      | _ => Raise TypeError
      end
  | TyTag tag =>
      if String.eqb tag "address" then
        outside "encoding.decode_address" (decode_address v)
      else if String.eqb tag "base64" then
        blob <- outside "base64.b64decode" (b64decode v) ;;
        Ok (uvarint (len blob) ++ blob)
      else Raise UnknownType
  end.

Definition encoded_len (v : pyval) (t : pytype) : Z :=
  match encoded v t with
  | Ok enc => len enc
  | Raise _ => 0
  end.

(** The length delta of one placeholder: encoded width minus reserved
    width. *)
Definition delta (v : pyval) (t : pytype) : Z :=
  encoded_len v t - reserved t.

(** The value of [dec_len] at the end of the branch taken for [v] under
    kind [t]. *)
Definition dec_len (v : pyval) (t : pytype) : Z :=
  match t with
  | TyInt => encoded_len v t
  | TyTag tag =>
      if String.eqb tag "address" then 0 else encoded_len v t
  end.

(** The amount [inject] then adds to every entry of [offsets]:
    [dec_len - 1] when [dec_len] is not zero. *)
Definition code_shift (v : pyval) (t : pytype) : Z :=
  if dec_len v t =? 0 then 0 else dec_len v t - 1.

Definition specs_of (a : call_args) : list spec :=
  combine (offsets a) (combine (values a) (values_types a)).

Definition sum_delta (ps : list spec) : Z :=
  fold_right (fun p acc => delta (fst (snd p)) (snd (snd p)) + acc) 0 ps.

Definition sum_code_shift (ps : list spec) : Z :=
  fold_right (fun p acc => code_shift (fst (snd p)) (snd (snd p)) + acc) 0 ps.

(** The sum of the deltas of the placeholders that lie before original
    position [k]. *)
Definition shift_before (k : Z) (ps : list spec) : Z :=
  sum_delta (filter (fun p => fst p <? k) ps).

(** Original position [k] lies inside a placeholder. *)
Definition in_region (k : Z) (ps : list spec) : bool :=
  existsb (fun p => (fst p <=? k) && (k <? fst p + reserved (snd (snd p)))) ps.

(** Reading value [v] of kind [t] back from the bytes that start a
    patched region. *)
Definition decodes (v : pyval) (t : pytype) (region : bytes) : Prop :=
  match t with
  | TyInt =>
      exists x rest, v = PInt x /\ uvarint_decode region = Some (x, rest)
  | TyTag tag =>
      if String.eqb tag "address" then
        decode_address v = Some (firstn 32 region)
      else if String.eqb tag "base64" then
        exists blob rest,
          b64decode v = Some blob
          /\ uvarint_decode region = Some (len blob, rest)
          /\ firstn (List.length blob) rest = blob
      else False
  end.

(** The postcondition of the patch engine on a returned program [out]:
    the length law, every region reading back its value at its original
    offset plus the deltas before it, and every byte outside the regions
    kept, at its original position plus the deltas before it. *)
Definition postcondition (a : call_args) (out : bytes) : Prop :=
  len out = len (orig a) + sum_delta (specs_of a)
  /\ (forall o v t,
         In (o, (v, t)) (specs_of a) ->
         decodes v t
           (slice_from out (o + shift_before o (specs_of a))))
  /\ (forall k,
         0 <= k < len (orig a) ->
         in_region k (specs_of a) = false ->
         nth_error out (Z.to_nat (k + shift_before k (specs_of a)))
         = nth_error (orig a) (Z.to_nat k)).

(** A position that is not strictly inside a placeholder. *)
Definition not_inside (k : Z) (ps : list spec) : Prop :=
  forall o v t, In (o, (v, t)) ps -> k <= o \/ o + reserved t <= k.

Definition known_kind (t : pytype) : bool :=
  match t with
  | TyInt => true
  | TyTag tag => String.eqb tag "address" || String.eqb tag "base64"
  end.

(** The placeholders lie in the program from [cursor] on, in ascending
    order and without overlap; every value has the type of its kind, an
    integer is unsigned, an address decodes to 32 bytes; and no
    placeholder follows a length-prefixed one. *)
Fixpoint well_placed (program_len cursor : Z) (ps : list spec) : Prop :=
  match ps with
  | [] => cursor <= program_len
  | (o, (v, t)) :: rest =>
      cursor <= o
      /\ (exists enc, encoded v t = Ok enc)
      /\ match t with
         | TyInt => exists x, v = PInt x /\ 0 <= x
         | TyTag tag =>
             if String.eqb tag "address" then encoded_len v t = 32
             else rest = []
         end
      /\ well_placed program_len (o + reserved t) rest
  end.

(** The program assembled directly from the original layout: the bytes
    before each placeholder, then its encoded value, and so on. *)
Fixpoint layout (program : bytes) (cursor : Z) (ps : list spec) : bytes :=
  match ps with
  | [] => slice_from program cursor
  | (o, (v, t)) :: rest =>
      slice_to (slice_from program cursor) (o - cursor)
      ++ match encoded v t with Ok enc => enc | Raise _ => [] end
      ++ layout program (o + reserved t) rest
  end.

(** [inject] on the list of placeholders, with the common shift of the
    [offsets] entries as the only state; [inject_as_run] relates it to
    the loop of the source. *)
Fixpoint inject_run (ps : list spec) (res : bytes) (s : Z)
  : result bytes * Z :=
  match ps with
  | [] => (Ok res, s)
  | (o, (v, t)) :: rest =>
      match encoded v t with
      | Ok enc =>
          inject_run rest (replace res enc (o + s) (reserved t))
                     (s + code_shift v t)
      | Raise e => (Raise e, s)
      end
  end.

(* Three readings of the specification that the code does not bear out
   as they stand; each is refuted below at a concrete call and followed
   by the statement that does hold. *)

(** The postcondition for every call with matching counts and known
    kinds. *)
Definition postcondition_claim (a : call_args) : Prop :=
  same_length a = true ->
  forallb known_kind (values_types a) = true ->
  exists out,
    fst (inject decode_address b64decode a) = Ok out
    /\ postcondition a out.

(** A failing call leaves every argument object as it was. *)
Definition error_atomic (a : call_args) : Prop :=
  forall e,
    fst (inject decode_address b64decode a) = Raise e ->
    snd (inject decode_address b64decode a) = a.

(** After a successful call with some [dec_len] not zero, [orig] is
    untouched, the [offsets] entries carry the accumulated shift, and a
    second call on the same objects returns something else. *)
Definition offsets_mutation_claim (a : call_args) : Prop :=
  forall out,
    fst (inject decode_address b64decode a) = Ok out ->
    (exists o v t, In (o, (v, t)) (specs_of a) /\ dec_len v t <> 0) ->
    let a' := snd (inject decode_address b64decode a) in
    orig a' = orig a
    /\ offsets a' = map (fun o => o + sum_code_shift (specs_of a)) (offsets a)
    /\ fst (inject decode_address b64decode a')
       <> fst (inject decode_address b64decode a).

End PatchSpec.


(* ===================================================================== *)
(** * Collaborators for the worked examples                                *)
(* ===================================================================== *)

(** The examples below run the embedding, so they need functions in the
    place of the collaborators.  Base64 is the codec of RFC 4648 on
    canonical, padded text, where it agrees with Python's [base64] module;
    the address codec and the checksum are stand-ins, which is all the
    examples ask of them. *)
Module Demo.

Definition codes (s : string) : list Z :=
  map (fun c => Z.of_nat (Ascii.nat_of_ascii c)) (list_ascii_of_string s).

Definition text (cs : list Z) : string :=
  string_of_list_ascii (map (fun c => Ascii.ascii_of_nat (Z.to_nat c)) cs).

Definition sextet (c : Z) : option Z :=
  if (65 <=? c) && (c <=? 90) then Some (c - 65)
  else if (97 <=? c) && (c <=? 122) then Some (c - 71)
  else if (48 <=? c) && (c <=? 57) then Some (c + 4)
  else if c =? 43 then Some 62
  else if c =? 47 then Some 63
  else None.

Definition symbol (v : Z) : Z :=
  if v <? 26 then v + 65
  else if v <? 52 then v + 71
  else if v <? 62 then v - 4
  else if v =? 62 then 43
  else 47.

Definition quad (a b c d : Z) : option bytes :=
  match sextet a, sextet b with
  | Some va, Some vb =>
      if (c =? 61) && (d =? 61) then Some [va * 4 + vb / 16]
      else
        match sextet c with
        | Some vc =>
            if d =? 61
            then Some [va * 4 + vb / 16; vb mod 16 * 16 + vc / 4]
            else
              match sextet d with
              | Some vd =>
                  Some [va * 4 + vb / 16; vb mod 16 * 16 + vc / 4;
                        vc mod 4 * 64 + vd]
              | None => None
              end
        | None => None
        end
  | _, _ => None
  end.

Fixpoint decode_quads (cs : list Z) : option bytes :=
  match cs with
  | [] => Some []
  | a :: b :: c :: d :: rest =>
      match quad a b c d with
      | Some out =>
          if (List.length out <? 3)%nat
          then match rest with [] => Some out | _ => None end
          else match decode_quads rest with
               | Some more => Some (out ++ more)
               | None => None
               end
      | None => None
      end
  | _ => None
  end.

Fixpoint encode_triples (bs : bytes) : list Z :=
  match bs with
  | [] => []
  | [x] => [symbol (x / 4); symbol (x mod 4 * 16); 61; 61]
  | [x; y] =>
      [symbol (x / 4); symbol (x mod 4 * 16 + y / 16);
       symbol (y mod 16 * 4); 61]
  | x :: y :: z :: rest =>
      symbol (x / 4) :: symbol (x mod 4 * 16 + y / 16)
        :: symbol (y mod 16 * 4 + z / 64) :: symbol (z mod 64)
        :: encode_triples rest
  end.

Definition b64decode (v : pyval) : option bytes :=
  match v with
  | PStr s => decode_quads (codes s)
  | PBytes b => decode_quads b
  | _ => None
  end.

Definition b64encode (b : bytes) : string := text (encode_triples b).

(** Stand-in for [encoding.decode_address]: the 32 character codes of a
    32-character name. *)
Definition decode_address (v : pyval) : option bytes :=
  match v with
  | PStr s => if (String.length s =? 32)%nat then Some (codes s) else None
  | _ => None
  end.

(** Stand-ins for [encoding.checksum] and [encoding.encode_address]. *)
Definition checksum (p : bytes) : bytes := firstn 32 (rev p).

Definition encode_address (addr : bytes) : option string :=
  if (List.length addr =? 32)%nat then Some (b64encode addr) else None.

Definition logic_prefix : bytes := codes "Program".

(** Stand-ins for the transaction collaborator: a payment is the pair of
    its receiver and amount, and grouping and signing keep it. *)
Definition PaymentTxn (sender : string) (fee : Z) (first_valid last_valid : Z)
           (gh : string) (receiver : string) (amt : Z)
  : option (string * Z) :=
  Some (receiver, amt).

Definition assign_group_id (txn_1 txn_2 : string * Z)
  : option ((string * Z) * (string * Z)) := Some (txn_1, txn_2).

Definition LogicSig (program : bytes) : option bytes := Some program.

Definition LogicSigTransaction (txn : string * Z) (lsig : bytes)
  : option (string * Z) := Some txn.

Definition split_30_100 : Split.t :=
  Split.Make "OWNER-OWNER-OWNER-OWNER-OWNER-OW"
             "FIRST-FIRST-FIRST-FIRST-FIRST-FI"
             "SECOND-SECOND-SECOND-SECOND-SECO"
             30 100 123456 1000 2000.

End Demo.


(* ===================================================================== *)
(** * The offset table the engine expects                                  *)
(* ===================================================================== *)

(** The kinds under which [inject] takes [dec_len] from a length-prefixed
    value. *)
Definition is_blob (t : pytype) : bool :=
  match t with
  | TyInt => false
  | TyTag tag => negb (String.eqb tag "address") && String.eqb tag "base64"
  end.

(** The entries to list in [offsets] for placeholders that sit at the
    given original offsets: each offset, less the number of
    length-prefixed placeholders before it. *)
Fixpoint table_from (blobs : Z) (ps : list spec) : list Z :=
  match ps with
  | [] => []
  | (o, (v, t)) :: rest =>
      o - blobs :: table_from (if is_blob t then blobs + 1 else blobs) rest
  end.

Definition engine_table (ps : list spec) : list Z := table_from 0 ps.

Definition values_of (ps : list spec) : list pyval :=
  map (fun p => fst (snd p)) ps.

Definition kinds_of (ps : list spec) : list pytype :=
  map (fun p => snd (snd p)) ps.

Section Placed.

Variable decode_address : pyval -> option bytes.
Variable b64decode : pyval -> option bytes.

(** [well_placed] without its last clause: the placeholders lie in the
    program from [cursor] on, in ascending order and without overlap;
    every value encodes under its kind, an integer is unsigned and an
    address decodes to 32 bytes. *)
Fixpoint placed (program_len cursor : Z) (ps : list spec) : Prop :=
  match ps with
  | [] => cursor <= program_len
  | (o, (v, t)) :: rest =>
      cursor <= o
      /\ (exists enc, encoded decode_address b64decode v t = Ok enc)
      /\ match t with
         | TyInt => exists x, v = PInt x /\ 0 <= x
         | TyTag tag =>
             if String.eqb tag "address"
             then encoded_len decode_address b64decode v t = 32
             else True
         end
      /\ placed program_len (o + reserved t) rest
  end.

End Placed.

(** The placeholders of the templates, at the offsets they have in the
    layout of the original programs. *)
Definition Split_placeholders (self : Split.t) : list spec :=
  [(4, (PInt (Split.max_fee self), TyInt));
   (7, (PInt (Split.expiry_round self), TyInt));
   (8, (PInt (Split.ratn self), TyInt));
   (9, (PInt (Split.ratd self), TyInt));
   (10, (PInt (Split.min_pay self), TyInt));
   (14, (PStr (Split.owner self), TyTag "address"));
   (47, (PStr (Split.receiver_1 self), TyTag "address"));
   (80, (PStr (Split.receiver_2 self), TyTag "address"))].

Definition HTLC_hash_inject (self : HTLC.t) : Z :=
  if String.eqb (HTLC.hash_function self) "sha256" then 1
  else if String.eqb (HTLC.hash_function self) "keccak256" then 2
  else 0.

Definition HTLC_placeholders (self : HTLC.t) : list spec :=
  [(3, (PInt (HTLC.max_fee self), TyInt));
   (6, (PInt (HTLC.expiry_round self), TyInt));
   (10, (PStr (HTLC.receiver self), TyTag "address"));
   (42, (PStr (HTLC.hash_image self), TyTag "base64"));
   (45, (PStr (HTLC.owner self), TyTag "address"));
   (102, (PInt (HTLC_hash_inject self), TyInt))].

Definition DynamicFee_placeholders (self : DynamicFee.t) : list spec :=
  [(5, (PInt (DynamicFee.amount self), TyInt));
   (6, (PInt (DynamicFee.first_valid self), TyInt));
   (7, (DynamicFee.last_valid self, TyInt));
   (11, (PStr (DynamicFee.receiver self), TyTag "address"));
   (44, (DynamicFee.close_remainder_address self, TyTag "address"));
   (76, (PStr (DynamicFee.lease_value self), TyTag "base64"))].

Definition PeriodicPayment_placeholders (self : PeriodicPayment.t)
  : list spec :=
  [(4, (PInt (PeriodicPayment.fee self), TyInt));
   (5, (PInt (PeriodicPayment.period self), TyInt));
   (7, (PInt (PeriodicPayment.withdrawing_window self), TyInt));
   (8, (PInt (PeriodicPayment.amount self), TyInt));
   (9, (PInt (PeriodicPayment.timeout self), TyInt));
   (12, (PBytes (PeriodicPayment.lease_value self), TyTag "base64"));
   (46, (PStr (PeriodicPayment.receiver self), TyTag "address"))].

(* ===================================================================== *)
(** * [DynamicFee.sign_dynamic_fee]                                        *)
(* ===================================================================== *)

(** [a + b] with a [bytes] object on the left: only a [bytes] object can
    be added to it. *)
Definition bytes_add (a : bytes) (b : pyval) : result bytes :=
  match b with
  | PBytes b' => Ok (a ++ b')
  | _ => Raise TypeError
  end.

Section Signing.

Variable decode_address : pyval -> option bytes.
Variable b64decode : pyval -> option bytes.
Variable b64encode : bytes -> string.
Variable logic_prefix : bytes.

(** [constants.key_len_bytes], [nacl.signing.SigningKey] and the
    [signature] of what its [sign] method returns. *)
Variable key_len_bytes : Z.
Variable SigningKey_t : Type.
Variable SigningKey : bytes -> option SigningKey_t.
Variable sign : SigningKey_t -> bytes -> option bytes.

(** [DynamicFee.sign_dynamic_fee]: what it returns, and the [signature]
    attribute of the object after the call ([None]: not set). *)
Definition sign_dynamic_fee (self : DynamicFee.t) (signature : option string)
           (private_key : pyval) : result string * option string :=
  match
    (program <- fst (get_program decode_address b64decode b64encode
                                 (OfDynamicFee self)) ;;
     to_sign <- bytes_add logic_prefix program ;;
     private_key <- outside "base64.b64decode" (b64decode private_key) ;;
     signing_key <- outside "nacl.signing.SigningKey"
                      (SigningKey (slice_to private_key key_len_bytes)) ;;
     signed <- outside "nacl.signing.SigningKey.sign"
                 (sign signing_key to_sign) ;;
     Ok (b64encode signed))
  with
  | Ok s => (Ok s, Some s)
  | Raise e => (Raise e, signature)
  end.

End Signing.

Arguments sign_dynamic_fee decode_address b64decode b64encode logic_prefix
  key_len_bytes {SigningKey_t} SigningKey sign self signature private_key.

(** Objects and a generator for the examples. *)
Module Sample.

Definition htlc : HTLC.t :=
  HTLC.Make "OWNER-OWNER-OWNER-OWNER-OWNER-OW"
            "FIRST-FIRST-FIRST-FIRST-FIRST-FI"
            "sha256"
            "f4OxZX/x/FO5LcGBSKHWXfwtSx+j1ncoSt3SABJtkGk="
            600000 1000.

Definition dynamic_fee : DynamicFee.t :=
  DynamicFee.Make "f4OxZX/x/FO5LcGBSKHWXfwtSx+j1ncoSt3SABJtkGk="
                  (PInt 1234567)
                  5000 1233567
                  (PStr "SECOND-SECOND-SECOND-SECOND-SECO")
                  "FIRST-FIRST-FIRST-FIRST-FIRST-FI".

Definition periodic_payment : PeriodicPayment.t :=
  PeriodicPayment.Make (Demo.codes "AAECAwQFBgcICQoLDA0ODxAREhMUFRYX")
                       "FIRST-FIRST-FIRST-FIRST-FIRST-FI"
                       500 95 100 1000 2000000.

(** A linear congruential generator in the place of [random.randint]. *)
Definition randint (g : Z) (a b : Z) : Z * Z :=
  (a + g mod (b - a + 1), (g * 75 + 74) mod 65537).

(** Stand-ins for [nacl.signing.SigningKey] and its [sign] method. *)
Definition SigningKey (seed : bytes) : option bytes :=
  if len seed =? 32 then Some seed else None.

Definition sign (key message : bytes) : option bytes :=
  Some (firstn 64 (key ++ message)).

End Sample.
(* ===================================================================== *)
(** * Properties of [put_uvarint]                                          *)
(* ===================================================================== *)

Lemma len_app {A} (l1 l2 : list A) : len (l1 ++ l2) = len l1 + len l2.
Proof. unfold len. rewrite length_app. lia. Qed.

Lemma len_nonneg {A} (l : list A) : 0 <= len l.
Proof. unfold len. lia. Qed.

Lemma len_cons {A} (a : A) (l : list A) : len (a :: l) = 1 + len l.
Proof. unfold len. simpl List.length. lia. Qed.

Lemma len_nil {A} : len (@nil A) = 0.
Proof. reflexivity. Qed.

(** The byte appended by one turn of the loop, for each of the 256 values
    of [x & 0xFF]. *)
Lemma continuation_byte_table :
  forallb (fun r => (Z.land (Z.lor r 128) 127 =? r mod 128)
                    && (128 <=? Z.lor r 128) && (Z.lor r 128 <? 256))
          (map Z.of_nat (seq 0 256)) = true.
Proof. vm_compute. reflexivity. Qed.

Lemma continuation_byte (x : Z) :
  let b := Z.lor (Z.land x 255) 128 in
  Z.land b 127 = x mod 128 /\ 128 <= b < 256.
Proof.
  intro b. subst b.
  change 255 with (Z.ones 8). rewrite Z.land_ones by lia.
  change (2 ^ 8) with 256.
  assert (Hr : 0 <= x mod 256 < 256) by (apply Z.mod_pos_bound; lia).
  assert (Hx : x mod 128 = (x mod 256) mod 128).
  { rewrite (Z.div_mod x 256) at 1 by lia.
    replace (256 * (x / 256) + x mod 256)
      with (x mod 256 + 2 * (x / 256) * 128) by lia.
    apply Z.mod_add. lia. }
  rewrite Hx. set (r := x mod 256) in *.
  pose proof continuation_byte_table as T.
  rewrite forallb_forall in T.
  specialize (T r).
  assert (Hin : In r (map Z.of_nat (seq 0 256))).
  { apply in_map_iff. exists (Z.to_nat r). split; [lia |].
    apply in_seq. lia. }
  apply T in Hin.
  apply andb_prop in Hin as [Hin H3]. apply andb_prop in Hin as [H1 H2].
  lia.
Qed.

Lemma low_byte_small (x : Z) : 0 <= x < 128 -> Z.land x 255 = x.
Proof.
  intros H. change 255 with (Z.ones 8). rewrite Z.land_ones by lia.
  apply Z.mod_small. change (2 ^ 8) with 256. lia.
Qed.

Lemma low_byte_range (x : Z) : 0 <= Z.land x 255 < 256.
Proof.
  change 255 with (Z.ones 8). rewrite Z.land_ones by lia.
  apply Z.mod_pos_bound. reflexivity.
Qed.

Lemma log2_shiftr7 (x : Z) (n : nat) :
  128 <= x -> Z.log2 x <= Z.of_nat (S n) -> Z.log2 (Z.shiftr x 7) <= Z.of_nat n.
Proof.
  intros Hx Hl. rewrite Z.log2_shiftr by lia. lia.
Qed.

(** What the loop leaves behind when it has fuel for the bit length of
    [x]: the continuation bytes appended, their number added to [i], and a
    last digit below [0x80], so that the loop condition is false. *)
Lemma put_uvarint_loop_spec (fuel : nat) :
  forall buf x i,
    Z.log2 x <= Z.of_nat fuel ->
    exists hi x1,
      put_uvarint_loop fuel buf x i = (buf ++ hi, x1, i + len hi)
      /\ x1 < 128
      /\ (0 <= x -> 0 <= x1)
      /\ Forall (fun b => 128 <= b < 256) hi
      /\ (0 <= x -> forall rest,
             uvarint_decode (hi ++ x1 :: rest) = Some (x, rest)).
Proof.
  induction fuel as [| fuel IH]; intros buf x i Hlog.
  - exists [], x. cbn [put_uvarint_loop]. rewrite app_nil_r, len_nil, Z.add_0_r.
    assert (Hx : x < 2).
    { destruct (Z_lt_ge_dec x 2) as [|Hge]; [assumption |].
      assert (1 <= Z.log2 x) by (apply (Z.log2_le_mono 2 x); lia). lia. }
    repeat split; try lia; [constructor |].
    intros H0 rest. cbn [app uvarint_decode].
    replace (x <? 128) with true by (symmetry; apply Z.ltb_lt; lia).
    reflexivity.
  - cbn [put_uvarint_loop]. destruct (128 <=? x) eqn:Hc.
    + apply Z.leb_le in Hc.
      destruct (IH (buf ++ [Z.lor (Z.land x 255) 128]) (Z.shiftr x 7) (i + 1)
                   (log2_shiftr7 x fuel Hc Hlog))
        as (hi & x1 & Heq & Hlt & Hnn & Hall & Hdec).
      destruct (continuation_byte x) as [Hlow Hrange].
      exists (Z.lor (Z.land x 255) 128 :: hi), x1.
      rewrite Heq, <- app_assoc, len_cons. cbn [app].
      assert (Hs : 0 <= Z.shiftr x 7) by (apply Z.shiftr_nonneg; lia).
      repeat split; try lia.
      * f_equal. lia.
      * constructor; [lia | assumption].
      * intros H0 rest. cbn [uvarint_decode].
        replace (Z.lor (Z.land x 255) 128 <? 128) with false
          by (symmetry; apply Z.ltb_ge; lia).
        rewrite (Hdec Hs rest), Hlow.
        rewrite Z.shiftr_div_pow2 by lia. change (2 ^ 7) with 128.
        f_equal. f_equal. rewrite Z.add_comm. symmetry. apply Z.div_mod. lia.
    + apply Z.leb_gt in Hc.
      exists [], x. rewrite app_nil_r, len_nil, Z.add_0_r.
      repeat split; try lia; [constructor |].
      intros H0 rest. cbn [app uvarint_decode].
      replace (x <? 128) with true by (symmetry; apply Z.ltb_lt; lia).
      reflexivity.
Qed.

(** The loop is left because its condition is false, not for want of
    fuel. *)
Lemma put_uvarint_loop_exits (buf : list Z) (x i : Z) :
  let '(_, x1, _) := put_uvarint_loop (loop_fuel x) buf x i in x1 < 128.
Proof.
  destruct (put_uvarint_loop_spec (loop_fuel x) buf x i)
    as (hi & x1 & Heq & Hlt & _).
  { unfold loop_fuel. pose proof (Z.log2_nonneg x). lia. }
  rewrite Heq. exact Hlt.
Qed.

(** Once the condition is false, further fuel changes nothing. *)
Lemma put_uvarint_loop_more_fuel (fuel extra : nat) (buf : list Z) (x i : Z) :
  Z.log2 x <= Z.of_nat fuel ->
  put_uvarint_loop (fuel + extra) buf x i = put_uvarint_loop fuel buf x i.
Proof.
  revert buf x i. induction fuel as [| fuel IH]; intros buf x i Hlog.
  - assert (Hx : x < 2).
    { destruct (Z_lt_ge_dec x 2) as [|Hge]; [assumption |].
      assert (1 <= Z.log2 x) by (apply (Z.log2_le_mono 2 x); lia). lia. }
    destruct extra as [| extra]; [reflexivity |].
    cbn [Nat.add put_uvarint_loop].
    replace (128 <=? x) with false by (symmetry; apply Z.leb_gt; lia).
    reflexivity.
  - cbn [Nat.add put_uvarint_loop]. destruct (128 <=? x) eqn:Hc; [| reflexivity].
    apply Z.leb_le in Hc. apply IH. apply log2_shiftr7; assumption.
Qed.

(** The loop only appends to [buf] and only adds to [i]. *)
Lemma put_uvarint_loop_frame (fuel : nat) :
  forall buf x i,
    put_uvarint_loop fuel buf x i =
    let '(h, x1, k) := put_uvarint_loop fuel [] x 0 in (buf ++ h, x1, i + k).
Proof.
  induction fuel as [| fuel IH]; intros buf x i; cbn [put_uvarint_loop].
  - rewrite app_nil_r, Z.add_0_r. reflexivity.
  - destruct (128 <=? x).
    + rewrite (IH (buf ++ _)), (IH ([] ++ _)).
      destruct (put_uvarint_loop fuel [] (Z.shiftr x 7) 0) as [[h x1] k].
      rewrite <- app_assoc. f_equal. lia.
    + rewrite app_nil_r, Z.add_0_r. reflexivity.
Qed.

Lemma put_uvarint_spec (buf : list Z) (x : Z) :
  put_uvarint buf x = (buf ++ uvarint x, len (uvarint x))
  /\ 1 <= len (uvarint x)
  /\ forallb is_byte (uvarint x) = true
  /\ (0 <= x -> forall rest, uvarint_decode (uvarint x ++ rest) = Some (x, rest)).
Proof.
  assert (Hf : Z.log2 x <= Z.of_nat (loop_fuel x)).
  { unfold loop_fuel. pose proof (Z.log2_nonneg x). lia. }
  destruct (put_uvarint_loop_spec (loop_fuel x) [] x 0 Hf)
    as (hi & x1 & Heq & Hlt & Hnn & Hall & Hdec).
  cbn [app] in Heq.
  unfold uvarint, put_uvarint.
  rewrite (put_uvarint_loop_frame (loop_fuel x) buf), Heq. cbn [fst].
  assert (Hl : len (hi ++ [Z.land x1 255]) = len hi + 1).
  { unfold len. rewrite length_app. cbn [List.length]. lia. }
  rewrite Hl, <- (app_assoc buf).
  pose proof (len_nonneg hi) as Hlen.
  split; [| split; [| split]].
  - f_equal.
  - lia.
  - rewrite forallb_app. apply andb_true_intro. split.
    + apply forallb_forall. intros b Hb.
      rewrite Forall_forall in Hall. specialize (Hall b Hb).
      unfold is_byte. apply andb_true_intro.
      split; [apply Z.leb_le | apply Z.ltb_lt]; lia.
    + cbn [forallb]. rewrite andb_true_r.
      pose proof (low_byte_range x1). unfold is_byte.
      apply andb_true_intro. split; [apply Z.leb_le | apply Z.ltb_lt]; lia.
  - intros H0 rest. rewrite <- (app_assoc hi). cbn [app].
    rewrite low_byte_small by (split; [apply Hnn; assumption | assumption]).
    apply Hdec. assumption.
Qed.

Lemma uvarint_zero : put_uvarint [] 0 = ([0], 1).
Proof. reflexivity. Qed.


(* ===================================================================== *)
(** * The varint round trip                                                *)
(* ===================================================================== *)

(** C4.  For every unsigned [x], [put_uvarint] appends the same bytes
    [uvarint x] whatever the buffer and returns their number; the
    reference decoder reads [x] back from them and stops where they end;
    and zero is encoded as the one byte [0]. *)
Theorem put_uvarint_roundtrip (x : Z) :
  0 <= x ->
  (forall buf, put_uvarint buf x = (buf ++ uvarint x, len (uvarint x)))
  /\ (forall rest, uvarint_decode (uvarint x ++ rest) = Some (x, rest))
  /\ put_uvarint [] 0 = ([0], 1).
Proof.
  intros Hx. split; [| split].
  - intros buf. destruct (put_uvarint_spec buf x) as (H & _). exact H.
  - destruct (put_uvarint_spec [] x) as (_ & _ & _ & H). apply H. exact Hx.
  - reflexivity.
Qed.

(** 300 is [0b10_0101100]: the bytes [0xAC 0x02]. *)
Lemma put_uvarint_roundtrip_witness :
  0 <= 300
  /\ put_uvarint [9] 300 = ([9; 172; 2], 2)
  /\ uvarint_decode [172; 2; 7] = Some (300, [7]).
Proof.
  assert (H : 0 <= 300) by lia.
  destruct (put_uvarint_roundtrip 300 H) as (Hput & Hdec & _).
  split; [exact H |]. split.
  - exact (Hput [9]).
  - exact (Hdec [7]).
Defined.


(* ===================================================================== *)
(** * [inject] as a run over the placeholders                              *)
(* ===================================================================== *)

Lemma bytes_of_ints_uvarint (x : Z) : bytes_of_ints (uvarint x) = Ok (uvarint x).
Proof.
  unfold bytes_of_ints.
  destruct (put_uvarint_spec [] x) as (_ & _ & Hb & _).
  rewrite Hb. reflexivity.
Qed.

Lemma put_uvarint_nil (x : Z) : put_uvarint [] x = (uvarint x, len (uvarint x)).
Proof. destruct (put_uvarint_spec [] x) as (H & _). exact H. Qed.

Lemma index_app_here {A} (l1 l2 : list A) (a : A) :
  index (l1 ++ a :: l2) (List.length l1) = Ok a.
Proof.
  unfold index. rewrite nth_error_app2 by lia.
  rewrite Nat.sub_diag. reflexivity.
Qed.

Lemma index_map_here (f : Z -> Z) (l1 l2 : list Z) (a : Z) :
  index (map f (l1 ++ a :: l2)) (List.length l1) = Ok (f a).
Proof.
  rewrite map_app. cbn [map].
  rewrite <- (length_map f l1). apply index_app_here.
Qed.

Section InjectRun.

Variable decode_address : pyval -> option bytes.
Variable b64decode : pyval -> option bytes.

Local Abbreviation encoded := (encoded decode_address b64decode).
Local Abbreviation dec_len := (dec_len decode_address b64decode).
Local Abbreviation code_shift := (code_shift decode_address b64decode).
Local Abbreviation inject_body := (inject_body decode_address b64decode).
Local Abbreviation inject_loop := (inject_loop decode_address b64decode).
Local Abbreviation inject_run := (inject_run decode_address b64decode).
Local Abbreviation inject := (inject decode_address b64decode).

(** The loop body in terms of [encoded], [reserved] and [dec_len]. *)
Lemma inject_body_encoded vals tys res offs i :
  inject_body vals tys res offs i =
  (v <- index vals i ;;
   t <- index tys i ;;
   enc <- encoded v t ;;
   o <- index offs i ;;
   Ok (replace res enc o (reserved t), dec_len v t)).
Proof.
  unfold inject_body.
  destruct (index vals i) as [v |]; [| reflexivity]. cbn [bind].
  destruct (index tys i) as [t |]; [| reflexivity]. cbn [bind].
  destruct t as [| tag].
  - destruct v; try reflexivity.
    cbn [encoded reserved dec_len]. unfold encoded_len. cbn [encoded bind].
    rewrite put_uvarint_nil, bytes_of_ints_uvarint. reflexivity.
  - cbn [encoded reserved dec_len]. unfold encoded_len. cbn [encoded].
    destruct (String.eqb tag "address").
    + destruct (decode_address v); reflexivity.
    + destruct (String.eqb tag "base64"); [| reflexivity].
      destruct (b64decode v) as [blob |]; [| reflexivity].
      cbn [outside bind].
      rewrite put_uvarint_nil, bytes_of_ints_uvarint. cbn [bind].
      rewrite len_app. reflexivity.
Qed.

Lemma update_offsets_shift (offs : list Z) (s : Z) v t :
  update_offsets (map (fun o => o + s) offs) (dec_len v t)
  = map (fun o => o + (s + code_shift v t)) offs.
Proof.
  unfold update_offsets, code_shift.
  destruct (dec_len v t =? 0).
  - apply map_ext. intros o. lia.
  - rewrite map_map. apply map_ext. intros o. lia.
Qed.

(** The index loop over the not yet visited entries, with every entry
    of [offsets] shifted by [s] so far, is [inject_run] on those
    entries. *)
Lemma inject_loop_run :
  forall offs2 vals2 tys2 offs1 vals1 tys1 res s,
    List.length vals1 = List.length offs1 ->
    List.length tys1 = List.length offs1 ->
    List.length vals2 = List.length offs2 ->
    List.length tys2 = List.length offs2 ->
    inject_loop (vals1 ++ vals2) (tys1 ++ tys2)
                (seq (List.length offs1) (List.length offs2)) res
                (map (fun o => o + s) (offs1 ++ offs2))
    = let '(r, s') :=
        inject_run (combine offs2 (combine vals2 tys2)) res s in
      (r, map (fun o => o + s') (offs1 ++ offs2)).
Proof.
  induction offs2 as [| o offs2 IH];
    intros vals2 tys2 offs1 vals1 tys1 res s Hv1 Ht1 Hv2 Ht2.
  - reflexivity.
  - destruct vals2 as [| v vals2]; [discriminate |].
    destruct tys2 as [| t tys2]; [discriminate |].
    cbn [List.length seq inject_loop combine inject_run].
    rewrite inject_body_encoded.
    rewrite <- Hv1 at 1. rewrite index_app_here. cbn [bind].
    rewrite <- Ht1 at 1. rewrite index_app_here. cbn [bind].
    destruct (encoded v t) as [enc | e]; [| reflexivity]. cbn [bind].
    rewrite index_map_here. cbn [bind].
    rewrite update_offsets_shift.
    replace (offs1 ++ o :: offs2) with ((offs1 ++ [o]) ++ offs2)
      by (rewrite <- app_assoc; reflexivity).
    replace (vals1 ++ v :: vals2) with ((vals1 ++ [v]) ++ vals2)
      by (rewrite <- app_assoc; reflexivity).
    replace (tys1 ++ t :: tys2) with ((tys1 ++ [t]) ++ tys2)
      by (rewrite <- app_assoc; reflexivity).
    replace (S (List.length offs1)) with (List.length (offs1 ++ [o]))
      by (rewrite length_app; cbn [List.length]; lia).
    apply IH.
    + rewrite !length_app. cbn [List.length]. lia.
    + rewrite !length_app. cbn [List.length]. lia.
    + cbn [List.length] in Hv2. lia.
    + cbn [List.length] in Ht2. lia.
Qed.

Lemma same_length_true (a : call_args) :
  same_length a = true ->
  List.length (values a) = List.length (offsets a)
  /\ List.length (values_types a) = List.length (offsets a).
Proof.
  unfold same_length. intros H. apply andb_prop in H as [H1 H2].
  apply Nat.eqb_eq in H1, H2. lia.
Qed.

(** [inject] itself: the outcome of the run, and every entry of
    [offsets] shifted by the shift the run ends with. *)
Lemma inject_as_run (a : call_args) :
  same_length a = true ->
  inject a =
  let '(r, s) := inject_run (specs_of a) (orig a) 0 in
  (r, Args (orig a) (map (fun o => o + s) (offsets a))
           (values a) (values_types a)).
Proof.
  intros Hlen. destruct (same_length_true a Hlen) as [Hv Ht].
  unfold inject. rewrite Hlen.
  pose proof (inject_loop_run (offsets a) (values a) (values_types a)
                              [] [] [] (orig a) 0 eq_refl eq_refl Hv Ht) as H.
  cbn [app List.length] in H.
  assert (Hid : map (fun o => o + 0) (offsets a) = offsets a).
  { rewrite <- (map_id (offsets a)) at 2. apply map_ext. intros o. lia. }
  rewrite Hid in H. rewrite H. unfold specs_of.
  destruct (inject_run _ _ _) as [r s]. reflexivity.
Qed.

End InjectRun.


(* ===================================================================== *)
(** * Slices at non-negative positions                                     *)
(* ===================================================================== *)

Lemma slice_to_nonneg {A} (l : list A) (j : Z) :
  0 <= j -> slice_to l j = firstn (Z.to_nat j) l.
Proof.
  intros H. unfold slice_to, slice_index.
  replace (j <? 0) with false by (symmetry; apply Z.ltb_ge; lia). reflexivity.
Qed.

Lemma slice_from_nonneg {A} (l : list A) (j : Z) :
  0 <= j -> slice_from l j = skipn (Z.to_nat j) l.
Proof.
  intros H. unfold slice_from, slice_index.
  replace (j <? 0) with false by (symmetry; apply Z.ltb_ge; lia). reflexivity.
Qed.

Lemma slice_to_app_ge {A} (l1 l2 : list A) (j : Z) :
  len l1 <= j -> slice_to (l1 ++ l2) j = l1 ++ slice_to l2 (j - len l1).
Proof.
  intros H. pose proof (len_nonneg l1) as H0. unfold len in *.
  rewrite !slice_to_nonneg by lia.
  rewrite firstn_app, firstn_all2 by lia.
  do 2 f_equal. lia.
Qed.

Lemma slice_from_app_ge {A} (l1 l2 : list A) (j : Z) :
  len l1 <= j -> slice_from (l1 ++ l2) j = slice_from l2 (j - len l1).
Proof.
  intros H. pose proof (len_nonneg l1) as H0. unfold len in *.
  rewrite !slice_from_nonneg by lia.
  rewrite skipn_app, skipn_all2 by lia.
  cbn [app]. f_equal. lia.
Qed.

Lemma slice_from_from {A} (l : list A) (i j : Z) :
  0 <= i -> 0 <= j -> slice_from (slice_from l i) j = slice_from l (i + j).
Proof.
  intros Hi Hj. rewrite !slice_from_nonneg by lia.
  rewrite skipn_skipn. f_equal. lia.
Qed.

Lemma slice_from_zero {A} (l : list A) : slice_from l 0 = l.
Proof. reflexivity. Qed.

Lemma len_slice_to {A} (l : list A) (j : Z) :
  0 <= j <= len l -> len (slice_to l j) = j.
Proof.
  intros H. rewrite slice_to_nonneg by lia. unfold len in *.
  rewrite length_firstn. lia.
Qed.

Lemma len_slice_from {A} (l : list A) (j : Z) :
  0 <= j <= len l -> len (slice_from l j) = len l - j.
Proof.
  intros H. rewrite slice_from_nonneg by lia. unfold len in *.
  rewrite length_skipn. lia.
Qed.

Lemma nth_error_slice_from {A} (l : list A) (j : Z) (n : nat) :
  0 <= j -> nth_error (slice_from l j) n = nth_error l (Z.to_nat j + n).
Proof.
  intros H. rewrite slice_from_nonneg by lia. apply nth_error_skipn.
Qed.

Lemma replace_after (done tl enc : bytes) (pos w : Z) :
  len done <= pos -> 0 <= w ->
  replace (done ++ tl) enc pos w
  = (done ++ slice_to tl (pos - len done) ++ enc)
      ++ slice_from tl (pos - len done + w).
Proof.
  intros Hp Hw. unfold replace.
  rewrite slice_to_app_ge by lia.
  rewrite slice_from_app_ge by lia.
  rewrite <- !app_assoc.
  replace (pos + w - len done) with (pos - len done + w) by lia.
  reflexivity.
Qed.

(* ===================================================================== *)
(** * The run over well placed placeholders builds the layout              *)
(* ===================================================================== *)

Section Layout.

Variable decode_address : pyval -> option bytes.
Variable b64decode : pyval -> option bytes.

Local Abbreviation encoded := (encoded decode_address b64decode).
Local Abbreviation encoded_len := (encoded_len decode_address b64decode).
Local Abbreviation delta := (delta decode_address b64decode).
Local Abbreviation dec_len := (dec_len decode_address b64decode).
Local Abbreviation code_shift := (code_shift decode_address b64decode).
Local Abbreviation inject_run := (inject_run decode_address b64decode).
Local Abbreviation inject := (inject decode_address b64decode).
Local Abbreviation well_placed := (well_placed decode_address b64decode).
Local Abbreviation layout := (layout decode_address b64decode).
Local Abbreviation sum_delta := (sum_delta decode_address b64decode).
Local Abbreviation shift_before := (shift_before decode_address b64decode).
Local Abbreviation decodes := (decodes decode_address b64decode).
Local Abbreviation postcondition := (postcondition decode_address b64decode).

Lemma reserved_nonneg (t : pytype) : 0 <= reserved t.
Proof.
  destruct t as [| tag]; cbn [reserved]; [lia |].
  destruct (String.eqb tag "address"); [lia |].
  destruct (String.eqb tag "base64"); lia.
Qed.

Lemma encoded_known (v : pyval) (t : pytype) (enc : bytes) :
  encoded v t = Ok enc -> 0 < reserved t.
Proof.
  destruct t as [| tag]; cbn [encoded reserved]; [lia |].
  destruct (String.eqb tag "address"); [lia |].
  destruct (String.eqb tag "base64"); [lia | discriminate].
Qed.

Lemma well_placed_bound (L : Z) (ps : list spec) :
  forall c, well_placed L c ps -> c <= L.
Proof.
  induction ps as [| [o [v t]] rest IH]; intros c H; cbn [well_placed] in H.
  - exact H.
  - destruct H as (Hc & _ & _ & Hrest). apply IH in Hrest.
    pose proof (reserved_nonneg t). lia.
Qed.

Lemma well_placed_in (L : Z) (ps : list spec) :
  forall c o v t,
    well_placed L c ps -> In (o, (v, t)) ps ->
    c <= o /\ o + reserved t <= L.
Proof.
  induction ps as [| [o0 [v0 t0]] rest IH]; intros c o v t H Hin;
    cbn [well_placed] in H.
  - destruct Hin.
  - destruct H as (Hc & _ & _ & Hrest). destruct Hin as [Heq | Hin].
    + injection Heq as -> -> ->. split; [assumption |].
      apply well_placed_bound in Hrest. assumption.
    + destruct (IH _ _ _ _ Hrest Hin) as [H1 H2].
      pose proof (reserved_nonneg t0). lia.
Qed.

(** Where the code's shift and the length delta agree: every kind but the
    length-prefixed one. *)
Lemma code_shift_delta (v : pyval) (t : pytype) (enc : bytes) :
  encoded v t = Ok enc ->
  match t with
  | TyInt => True
  | TyTag tag =>
      String.eqb tag "address" = true /\ encoded_len v t = 32
  end ->
  code_shift v t = delta v t.
Proof.
  unfold code_shift, delta, dec_len. destruct t as [| tag].
  - intros Henc _. unfold encoded_len. rewrite Henc. cbn [reserved].
    destruct v as [| x | s | b]; try discriminate.
    cbn [encoded] in Henc. injection Henc as <-.
    destruct (put_uvarint_spec [] x) as (_ & H1 & _).
    replace (len (uvarint x) =? 0) with false
      by (symmetry; apply Z.eqb_neq; lia).
    reflexivity.
  - intros _ [Ha H32]. cbn [reserved]. rewrite Ha. cbn. lia.
Qed.

Lemma inject_run_layout (program : bytes) (ps : list spec) :
  forall done c s,
    0 <= c ->
    well_placed (len program) c ps ->
    len done = c + s ->
    fst (inject_run ps (done ++ slice_from program c) s)
    = Ok (done ++ layout program c ps).
Proof.
  induction ps as [| [o [v t]] rest IH]; intros done c s Hc Hwp Hlen.
  - reflexivity.
  - cbn [well_placed] in Hwp. destruct Hwp as (Hco & [enc Henc] & Hkind & Hrest).
    cbn [inject_run layout]. rewrite Henc.
    pose proof (reserved_nonneg t) as Hw.
    pose proof (well_placed_bound _ _ _ Hrest) as Hend.
    rewrite replace_after by lia.
    rewrite slice_from_from by lia.
    replace (c + (o + s - len done + reserved t)) with (o + reserved t) by lia.
    replace (o + s - len done) with (o - c) by lia.
    assert (Hgap : len (slice_to (slice_from program c) (o - c)) = o - c).
    { apply len_slice_to. rewrite len_slice_from by lia. lia. }
    destruct rest as [| p rest'].
    + cbn [inject_run fst layout]. rewrite <- !app_assoc. reflexivity.
    + rewrite IH with (c := o + reserved t); try lia; try assumption.
      * rewrite <- !app_assoc. reflexivity.
      * rewrite !len_app, Hgap, Hlen.
        assert (Hcs : code_shift v t = delta v t).
        { apply (code_shift_delta v t enc Henc). destruct t as [| tag]; [exact I |].
          destruct (String.eqb tag "address"); [| discriminate].
          split; [reflexivity | assumption]. }
        rewrite Hcs. unfold delta, encoded_len. rewrite Henc. lia.
Qed.

Lemma not_inside_tail (k : Z) (p : spec) (ps : list spec) :
  not_inside k (p :: ps) -> not_inside k ps.
Proof. intros H o v t Hin. apply (H o v t). right. exact Hin. Qed.

Lemma in_region_not_inside (k : Z) (ps : list spec) :
  in_region k ps = false -> not_inside k ps.
Proof.
  intros H o v t Hin. unfold in_region in H.
  destruct (Z_le_gt_dec k o) as [Hle | Hgt]; [left; exact Hle | right].
  destruct (Z_le_gt_dec (o + reserved t) k) as [Hle | Hgt2]; [exact Hle |].
  exfalso.
  assert (Ht : existsb (fun p => (fst p <=? k) && (k <? fst p + reserved (snd (snd p)))) ps = true).
  { apply existsb_exists. exists (o, (v, t)). split; [exact Hin |].
    cbn [fst snd]. apply andb_true_intro.
    split; [apply Z.leb_le | apply Z.ltb_lt]; lia. }
  rewrite H in Ht. discriminate.
Qed.

Lemma shift_before_cons (k o : Z) (v : pyval) (t : pytype) (rest : list spec) :
  shift_before k ((o, (v, t)) :: rest)
  = (if o <? k then delta v t else 0) + shift_before k rest.
Proof.
  unfold shift_before. cbn [filter fst].
  destruct (o <? k); reflexivity.
Qed.

Lemma shift_before_none (k : Z) (ps : list spec) :
  (forall o v t, In (o, (v, t)) ps -> k <= o) -> shift_before k ps = 0.
Proof.
  induction ps as [| [o [v t]] rest IH]; intros H.
  - reflexivity.
  - rewrite shift_before_cons.
    replace (o <? k) with false
      by (symmetry; apply Z.ltb_ge; apply (H o v t); left; reflexivity).
    cbv iota. rewrite IH; [reflexivity |].
    intros o' v' t' Hin. apply (H o' v' t'). right. exact Hin.
Qed.

Lemma filter_from_all (k : Z) (ps : list spec) :
  (forall o v t, In (o, (v, t)) ps -> k <= o) ->
  filter (fun p => k <=? fst p) ps = ps.
Proof.
  induction ps as [| [o [v t]] rest IH]; intros H.
  - reflexivity.
  - cbn [filter fst].
    replace (k <=? o) with true
      by (symmetry; apply Z.leb_le; apply (H o v t); left; reflexivity).
    cbv iota. f_equal. apply IH.
    intros o' v' t' Hin. apply (H o' v' t'). right. exact Hin.
Qed.

Lemma slice_from_app_le {A} (l1 l2 : list A) (j : Z) :
  0 <= j <= len l1 -> slice_from (l1 ++ l2) j = slice_from l1 j ++ l2.
Proof.
  intros H. unfold len in H. rewrite !slice_from_nonneg by lia.
  rewrite skipn_app.
  replace (Z.to_nat j - List.length l1)%nat with 0%nat by lia.
  reflexivity.
Qed.

Lemma slice_gap {A} (l : list A) (c k o : Z) :
  0 <= c <= k -> k <= o ->
  slice_from (slice_to (slice_from l c) (o - c)) (k - c)
  = slice_to (slice_from l k) (o - k).
Proof.
  intros H1 H2.
  rewrite !slice_from_nonneg, !slice_to_nonneg by lia.
  rewrite skipn_firstn_comm, skipn_skipn.
  f_equal; [lia |]. f_equal. lia.
Qed.

(** The layout from [cursor] on, cut at the image of original position
    [k], is the layout from [k] on over the placeholders not before
    [k]. *)
Lemma layout_at (program : bytes) (ps : list spec) :
  forall c k,
    0 <= c ->
    well_placed (len program) c ps ->
    c <= k <= len program ->
    not_inside k ps ->
    0 <= k - c + shift_before k ps
    /\ slice_from (layout program c ps) (k - c + shift_before k ps)
       = layout program k (filter (fun p => k <=? fst p) ps).
Proof.
  induction ps as [| [o [v t]] rest IH]; intros c k Hc Hwp Hk Hout.
  - unfold shift_before. cbn [filter layout]. unfold sum_delta. cbn [fold_right].
    rewrite Z.add_0_r. split; [lia |].
    rewrite slice_from_from by lia. f_equal. lia.
  - pose proof Hwp as Hwp0.
    cbn [well_placed] in Hwp. destruct Hwp as (Hco & [enc Henc] & Hkind & Hrest).
    pose proof (encoded_known v t enc Henc) as Hw.
    pose proof (well_placed_bound _ _ _ Hrest) as Hend.
    assert (Hgap : len (slice_to (slice_from program c) (o - c)) = o - c).
    { apply len_slice_to. rewrite len_slice_from by lia. lia. }
    assert (Hlater : forall o' v' t', In (o', (v', t')) rest -> o + reserved t <= o').
    { intros o' v' t' Hin.
      destruct (well_placed_in _ _ _ _ _ _ Hrest Hin). assumption. }
    destruct (Hout o v t (or_introl eq_refl)) as [Hbefore | Hafter].
    + assert (Hall : forall o' v' t', In (o', (v', t')) ((o, (v, t)) :: rest) -> k <= o').
      { intros o' v' t' [Heq | Hin].
        - injection Heq as <- _ _. assumption.
        - specialize (Hlater _ _ _ Hin). lia. }
      rewrite (shift_before_none k _ Hall), (filter_from_all k _ Hall).
      rewrite Z.add_0_r. split; [lia |].
      cbn [layout]. rewrite Henc.
      rewrite slice_from_app_le by lia.
      rewrite slice_gap by lia. reflexivity.
    + rewrite shift_before_cons. cbn [filter fst].
      replace (o <? k) with true by (symmetry; apply Z.ltb_lt; lia).
      replace (k <=? o) with false by (symmetry; apply Z.leb_gt; lia).
      destruct (IH (o + reserved t) k) as [Hpos Hcut];
        [lia | assumption | lia | apply (not_inside_tail _ _ _ Hout) |].
      assert (Hd : delta v t = len enc - reserved t).
      { unfold delta, encoded_len. rewrite Henc. reflexivity. }
      pose proof (len_nonneg enc) as Henc0.
      split; [lia |].
      cbn [layout]. rewrite Henc.
      rewrite slice_from_app_ge by lia.
      rewrite slice_from_app_ge by lia.
      rewrite <- Hcut. f_equal. lia.
Qed.

Lemma layout_len (program : bytes) (ps : list spec) :
  forall c,
    0 <= c ->
    well_placed (len program) c ps ->
    len (layout program c ps) = len program - c + sum_delta ps.
Proof.
  induction ps as [| [o [v t]] rest IH]; intros c Hc Hwp.
  - cbn [well_placed] in Hwp. cbn [layout]. unfold sum_delta. cbn [fold_right].
    rewrite len_slice_from by lia. lia.
  - cbn [well_placed] in Hwp. destruct Hwp as (Hco & [enc Henc] & Hkind & Hrest).
    pose proof (reserved_nonneg t) as Hw.
    pose proof (well_placed_bound _ _ _ Hrest) as Hend.
    cbn [layout]. rewrite Henc, !len_app.
    rewrite len_slice_to by (rewrite len_slice_from by lia; lia).
    rewrite IH by (try assumption; lia).
    assert (Hd : delta v t = len enc - reserved t).
    { unfold delta, encoded_len. rewrite Henc. reflexivity. }
    unfold sum_delta. cbn [fold_right fst snd]. rewrite Hd. lia.
Qed.

End Layout.


(* ===================================================================== *)
(** * What [inject] returns and what it leaves behind                      *)
(* ===================================================================== *)

Section InjectEffects.

Variable decode_address : pyval -> option bytes.
Variable b64decode : pyval -> option bytes.

Local Abbreviation encoded := (encoded decode_address b64decode).
Local Abbreviation encoded_len := (encoded_len decode_address b64decode).
Local Abbreviation delta := (delta decode_address b64decode).
Local Abbreviation dec_len := (dec_len decode_address b64decode).
Local Abbreviation code_shift := (code_shift decode_address b64decode).
Local Abbreviation inject_run := (inject_run decode_address b64decode).
Local Abbreviation inject := (inject decode_address b64decode).
Local Abbreviation well_placed := (well_placed decode_address b64decode).
Local Abbreviation layout := (layout decode_address b64decode).
Local Abbreviation sum_delta := (sum_delta decode_address b64decode).
Local Abbreviation sum_code_shift := (sum_code_shift decode_address b64decode).
Local Abbreviation shift_before := (shift_before decode_address b64decode).
Local Abbreviation decodes := (decodes decode_address b64decode).
Local Abbreviation postcondition := (postcondition decode_address b64decode).

Lemma encoded_len_nonneg (v : pyval) (t : pytype) : 0 <= encoded_len v t.
Proof.
  unfold encoded_len. destruct (encoded v t); [apply len_nonneg | lia].
Qed.

Lemma code_shift_nonneg (v : pyval) (t : pytype) : 0 <= code_shift v t.
Proof.
  unfold code_shift.
  assert (H : 0 <= dec_len v t).
  { unfold dec_len. destruct t as [| tag]; [apply encoded_len_nonneg |].
    destruct (String.eqb tag "address"); [lia | apply encoded_len_nonneg]. }
  destruct (dec_len v t =? 0) eqn:E; [lia |].
  apply Z.eqb_neq in E. lia.
Qed.

Lemma sum_code_shift_nonneg (ps : list spec) : 0 <= sum_code_shift ps.
Proof.
  induction ps as [| [o [v t]] rest IH]; unfold sum_code_shift in *;
    cbn [fold_right fst snd]; [lia |].
  pose proof (code_shift_nonneg v t). lia.
Qed.

Lemma sum_code_shift_app (ps qs : list spec) :
  sum_code_shift (ps ++ qs) = sum_code_shift ps + sum_code_shift qs.
Proof.
  unfold sum_code_shift. induction ps as [| p ps IH]; cbn [app fold_right]; lia.
Qed.

(** A run that succeeds has added the shift of every placeholder. *)
Lemma inject_run_ok (ps : list spec) :
  forall res s out s',
    inject_run ps res s = (Ok out, s') -> s' = s + sum_code_shift ps.
Proof.
  induction ps as [| [o [v t]] rest IH]; intros res s out s' H;
    cbn [inject_run] in H.
  - injection H as _ <-. unfold sum_code_shift. cbn [fold_right]. lia.
  - destruct (encoded v t) as [enc | e]; [| discriminate].
    apply IH in H. subst s'. unfold sum_code_shift. cbn [fold_right fst snd]. lia.
Qed.

(** A run that fails stopped at the first placeholder whose value does not
    encode, with the shifts of those before it added. *)
Lemma inject_run_raise (ps : list spec) :
  forall res s e s',
    inject_run ps res s = (Raise e, s') ->
    exists before o v t after,
      ps = before ++ (o, (v, t)) :: after
      /\ Forall (fun p => exists enc, encoded (fst (snd p)) (snd (snd p)) = Ok enc)
                before
      /\ encoded v t = Raise e
      /\ s' = s + sum_code_shift before.
Proof.
  induction ps as [| [o [v t]] rest IH]; intros res s e s' H;
    cbn [inject_run] in H.
  - discriminate.
  - destruct (encoded v t) as [enc | e0] eqn:Henc.
    + apply IH in H. destruct H as (before & o' & v' & t' & after & -> & Hall & Hr & ->).
      exists ((o, (v, t)) :: before), o', v', t', after.
      split; [reflexivity |]. split.
      * constructor; [exists enc; exact Henc | exact Hall].
      * split; [exact Hr |].
        unfold sum_code_shift. cbn [fold_right fst snd]. lia.
    + injection H as <- <-.
      exists [], o, v, t, rest.
      split; [reflexivity |]. split; [constructor |].
      split; [exact Henc |]. unfold sum_code_shift. cbn [fold_right]. lia.
Qed.

Lemma map_add_zero (l : list Z) : map (fun o => o + 0) l = l.
Proof.
  rewrite <- (map_id l) at 2. apply map_ext. intros o. lia.
Qed.

(** The exceptions that can leave [encoded], hence the loop of
    [inject]. *)
Lemma encoded_raise (v : pyval) (t : pytype) (e : exn) :
  encoded v t = Raise e ->
  e = TypeError \/ e = UnknownType \/ exists who, e = External who.
Proof.
  destruct t as [| tag]; cbn [encoded].
  - destruct v; intros H; try discriminate; injection H as <-; left; reflexivity.
  - destruct (String.eqb tag "address").
    + destruct (decode_address v); cbn [outside]; intros H; [discriminate |].
      injection H as <-. right. right. eexists. reflexivity.
    + destruct (String.eqb tag "base64").
      * destruct (b64decode v); cbn [outside bind]; intros H; [discriminate |].
        injection H as <-. right. right. eexists. reflexivity.
      * intros H. injection H as <-. right. left. reflexivity.
Qed.

Lemma inject_raise (a : call_args) (e : exn) :
  fst (inject a) = Raise e ->
  e = AssertionError \/ e = TypeError \/ e = UnknownType
  \/ exists who, e = External who.
Proof.
  destruct (same_length a) eqn:Hlen.
  - rewrite (inject_as_run decode_address b64decode a Hlen).
    destruct (inject_run (specs_of a) (orig a) 0) as [r s] eqn:Hrun.
    cbn [fst]. intros ->.
    apply inject_run_raise in Hrun.
    destruct Hrun as (_ & _ & v & t & _ & _ & _ & Hr & _).
    right. apply (encoded_raise v t e Hr).
  - unfold inject. rewrite Hlen. cbn [fst]. intros H.
    injection H as <-. left. reflexivity.
Qed.

(** The frame of a call: [inject] rebinds [res] and writes to [offsets]
    only. *)
Lemma inject_frame (a : call_args) :
  orig (snd (inject a)) = orig a
  /\ values (snd (inject a)) = values a
  /\ values_types (snd (inject a)) = values_types a.
Proof.
  unfold inject. destruct (same_length a).
  - destruct (inject_loop _ _ _ _ _ _ _) as [r offs]. cbn. auto.
  - cbn. auto.
Qed.

Lemma in_well_placed (L : Z) (ps : list spec) :
  forall c o v t,
    well_placed L c ps -> In (o, (v, t)) ps ->
    exists before after,
      ps = before ++ (o, (v, t)) :: after
      /\ (forall o' v' t',
             In (o', (v', t')) before -> o' < o /\ o' + reserved t' <= o)
      /\ (forall o' v' t', In (o', (v', t')) after -> o < o')
      /\ (exists enc, encoded v t = Ok enc)
      /\ match t with
         | TyInt => exists x, v = PInt x /\ 0 <= x
         | TyTag tag =>
             if String.eqb tag "address" then encoded_len v t = 32
             else after = []
         end.
Proof.
  induction ps as [| [o0 [v0 t0]] rest IH]; intros c o v t Hwp Hin.
  - destruct Hin.
  - cbn [well_placed] in Hwp.
    destruct Hwp as (Hc & [enc Henc] & Hkind & Hrest).
    pose proof (encoded_known decode_address b64decode v0 t0 enc Henc) as Hw.
    assert (Hlater : forall o' v' t',
               In (o', (v', t')) rest -> o0 < o' /\ o0 + reserved t0 <= o').
    { intros o' v' t' Hin'.
      destruct (well_placed_in decode_address b64decode _ _ _ _ _ _ Hrest Hin').
      lia. }
    destruct Hin as [Heq | Hin].
    + injection Heq as -> -> ->.
      exists [], rest. split; [reflexivity |].
      split; [intros o' v' t' [] |].
      split; [intros o' v' t' Hin'; apply (Hlater o' v' t' Hin') |].
      split; [exists enc; exact Henc | exact Hkind].
    + destruct (IH _ _ _ _ Hrest Hin)
        as (before & after & -> & Hb & Ha & He & Hk).
      exists ((o0, (v0, t0)) :: before), after.
      split; [reflexivity |]. split.
      * intros o' v' t' [Heq | Hin'].
        -- injection Heq as <- _ <-. apply (Hlater o v t).
           apply in_or_app. right. left. reflexivity.
        -- apply (Hb o' v' t' Hin').
      * split; [exact Ha |]. split; [exact He | exact Hk].
Qed.

Lemma filter_from_split (o : Z) (before after : list spec) (p : spec) :
  fst p = o ->
  (forall o' v' t',
      In (o', (v', t')) before -> o' < o /\ o' + reserved t' <= o) ->
  (forall o' v' t', In (o', (v', t')) after -> o < o') ->
  filter (fun q => o <=? fst q) (before ++ p :: after) = p :: after.
Proof.
  intros Hp Hb Ha. rewrite filter_app.
  assert (H1 : filter (fun q : spec => o <=? fst q) before = []).
  { clear - Hb. induction before as [| [o' [v' t']] before IH]; [reflexivity |].
    cbn [filter fst].
    replace (o <=? o') with false
      by (symmetry; apply Z.leb_gt; apply (Hb o' v' t'); left; reflexivity).
    apply IH. intros o2 v2 t2 Hin. apply (Hb o2 v2 t2). right. exact Hin. }
  rewrite H1. cbn [app filter].
  replace (o <=? fst p) with true by (symmetry; apply Z.leb_le; lia).
  f_equal. apply filter_from_all.
  intros o' v' t' Hin. specialize (Ha o' v' t' Hin). lia.
Qed.

(** The bytes that stand for a value read back as that value, whatever
    follows them. *)
Lemma encoded_decodes (v : pyval) (t : pytype) (enc more : bytes) :
  encoded v t = Ok enc ->
  match t with
  | TyInt => exists x, v = PInt x /\ 0 <= x
  | TyTag tag =>
      if String.eqb tag "address" then encoded_len v t = 32 else True
  end ->
  decodes v t (enc ++ more).
Proof.
  intros Henc Hkind. unfold decodes. destruct t as [| tag].
  - destruct Hkind as (x & -> & Hx). cbn [encoded] in Henc.
    injection Henc as <-. exists x, more. split; [reflexivity |].
    destruct (put_uvarint_spec [] x) as (_ & _ & _ & Hd). apply Hd. exact Hx.
  - unfold encoded_len in Hkind. rewrite Henc in Hkind. cbn [encoded] in Henc.
    destruct (String.eqb tag "address").
    + destruct (decode_address v) as [raw |]; [| discriminate].
      cbn [outside] in Henc. injection Henc as <-. f_equal.
      unfold len in Hkind.
      rewrite firstn_app, firstn_all2 by lia.
      replace (32 - List.length raw)%nat with 0%nat by lia.
      cbn [firstn]. rewrite app_nil_r. reflexivity.
    + destruct (String.eqb tag "base64"); [| discriminate].
      destruct (b64decode v) as [blob |]; [| discriminate].
      cbn [outside bind] in Henc. injection Henc as <-.
      exists blob, (blob ++ more). split; [reflexivity |].
      rewrite <- app_assoc. split.
      * destruct (put_uvarint_spec [] (len blob)) as (_ & _ & _ & Hd).
        apply Hd. apply len_nonneg.
      * rewrite firstn_app, firstn_all2 by lia.
        rewrite Nat.sub_diag. cbn [firstn]. apply app_nil_r.
Qed.

Lemma layout_head (program : bytes) (k : Z) (ps : list spec) :
  0 <= k < len program ->
  (forall o v t, In (o, (v, t)) ps -> k < o) ->
  nth_error (layout program k ps) 0 = nth_error program (Z.to_nat k).
Proof.
  intros Hk Hps. destruct ps as [| [o [v t]] rest]; cbn [layout].
  - rewrite nth_error_slice_from by lia. f_equal. lia.
  - specialize (Hps o v t (or_introl eq_refl)).
    rewrite slice_to_nonneg, slice_from_nonneg by lia.
    unfold len in Hk.
    rewrite nth_error_app1
      by (rewrite length_firstn, length_skipn; lia).
    rewrite nth_error_firstn.
    replace (0 <? Z.to_nat (o - k))%nat with true
      by (symmetry; apply Nat.ltb_lt; lia).
    rewrite nth_error_skipn. f_equal. lia.
Qed.

(** How a call that fails leaves the argument objects. *)
Lemma inject_failure (a : call_args) (e : exn) :
  fst (inject a) = Raise e ->
  (same_length a = false /\ e = AssertionError
   /\ offsets (snd (inject a)) = offsets a)
  \/ (same_length a = true
      /\ exists before o v t after,
          specs_of a = before ++ (o, (v, t)) :: after
          /\ Forall (fun p => exists enc,
                         encoded (fst (snd p)) (snd (snd p)) = Ok enc) before
          /\ encoded v t = Raise e
          /\ offsets (snd (inject a))
             = map (fun x => x + sum_code_shift before) (offsets a)).
Proof.
  destruct (same_length a) eqn:Hlen.
  - rewrite (inject_as_run decode_address b64decode a Hlen).
    destruct (inject_run (specs_of a) (orig a) 0) as [r s] eqn:Hrun.
    cbn [fst snd offsets]. intros ->. right. split; [reflexivity |].
    apply inject_run_raise in Hrun.
    destruct Hrun as (before & o & v & t & after & Hs & Hall & Hr & ->).
    exists before, o, v, t, after. repeat (split; [assumption |]).
    reflexivity.
  - unfold inject. rewrite Hlen. cbn [fst snd]. intros H.
    injection H as <-. left. auto.
Qed.

(** How a call that succeeds leaves the [offsets] list. *)
Lemma inject_success (a : call_args) (out : bytes) :
  fst (inject a) = Ok out ->
  same_length a = true
  /\ offsets (snd (inject a))
     = map (fun x => x + sum_code_shift (specs_of a)) (offsets a).
Proof.
  destruct (same_length a) eqn:Hlen.
  - rewrite (inject_as_run decode_address b64decode a Hlen).
    destruct (inject_run (specs_of a) (orig a) 0) as [r s] eqn:Hrun.
    cbn [fst snd offsets]. intros ->. split; [reflexivity |].
    apply inject_run_ok in Hrun. subst s. reflexivity.
  - unfold inject. rewrite Hlen. cbn [fst]. discriminate.
Qed.

End InjectEffects.


(* ===================================================================== *)
(** * The claims about the patch engine                                    *)
(* ===================================================================== *)

Section InjectClaims.

Variable decode_address : pyval -> option bytes.
Variable b64decode : pyval -> option bytes.

Local Abbreviation encoded := (encoded decode_address b64decode).
Local Abbreviation inject_run := (inject_run decode_address b64decode).
Local Abbreviation inject := (inject decode_address b64decode).
Local Abbreviation well_placed := (well_placed decode_address b64decode).
Local Abbreviation layout := (layout decode_address b64decode).
Local Abbreviation sum_code_shift := (sum_code_shift decode_address b64decode).
Local Abbreviation shift_before := (shift_before decode_address b64decode).
Local Abbreviation postcondition := (postcondition decode_address b64decode).

(** C2, as amended.  For a call with matching counts whose placeholders
    are well placed (ascending, disjoint, inside the program, every value
    of the type of its kind, integers unsigned, addresses of 32 bytes, and
    no placeholder after a length-prefixed one), [inject] returns a
    program whose length is the original length plus the sum of the
    deltas ([encodedLength - 1] for an int, [0] for an address,
    [varintLength + blobLen - 2] for a length-prefixed blob); every
    patched region, at its original offset plus the deltas before it,
    reads back its value; and every byte outside the regions is kept. *)
Theorem inject_postcondition_well_placed (a : call_args) :
  same_length a = true ->
  well_placed (len (orig a)) 0 (specs_of a) ->
  exists out, fst (inject a) = Ok out /\ postcondition a out.
Proof.
  intros Hlen Hwp.
  exists (layout (orig a) 0 (specs_of a)). split.
  - rewrite (inject_as_run decode_address b64decode a Hlen).
    pose proof (inject_run_layout decode_address b64decode (orig a)
                  (specs_of a) [] 0 0 (Z.le_refl 0) Hwp eq_refl) as H.
    cbn [app] in H. rewrite slice_from_zero in H.
    destruct (inject_run (specs_of a) (orig a) 0) as [r s]. exact H.
  - pose proof (well_placed_bound decode_address b64decode _ _ _ Hwp) as HL.
    split; [| split].
    + rewrite (layout_len decode_address b64decode _ _ 0 (Z.le_refl 0) Hwp). lia.
    + intros o v t Hin.
      destruct (well_placed_in decode_address b64decode _ _ _ _ _ _ Hwp Hin)
        as [Ho Hend].
      pose proof (reserved_nonneg t) as Hw.
      destruct (in_well_placed decode_address b64decode _ _ _ _ _ _ Hwp Hin)
        as (before & after & Hsplit & Hb & Ha & [enc Henc] & Hkind).
      assert (Hout : not_inside o (specs_of a)).
      { intros o' v' t' Hin'. rewrite Hsplit in Hin'.
        apply in_app_or in Hin'. destruct Hin' as [Hin' | [Heq | Hin']].
        - right. apply (Hb o' v' t' Hin').
        - injection Heq as <- _ _. left. lia.
        - left. specialize (Ha o' v' t' Hin'). lia. }
      assert (Hbound : 0 <= o <= len (orig a)) by lia.
      destruct (layout_at decode_address b64decode (orig a) (specs_of a) 0 o
                  (Z.le_refl 0) Hwp Hbound Hout) as [_ Hcut].
      replace (o - 0 + shift_before o (specs_of a))
        with (o + shift_before o (specs_of a)) in Hcut by lia.
      rewrite Hcut, Hsplit.
      rewrite (filter_from_split o before after (o, (v, t)) eq_refl Hb Ha).
      cbn [layout]. rewrite Henc, Z.sub_diag.
      change (slice_to (slice_from (orig a) o) 0) with (@nil Z).
      cbn [app]. apply encoded_decodes; [exact Henc |].
      destruct t as [| tag]; [exact Hkind |].
      destruct (String.eqb tag "address"); [exact Hkind | exact I].
    + intros k Hk Hreg.
      pose proof (in_region_not_inside k _ Hreg) as Hout.
      assert (Hbound : 0 <= k <= len (orig a)) by lia.
      destruct (layout_at decode_address b64decode (orig a) (specs_of a) 0 k
                  (Z.le_refl 0) Hwp Hbound Hout) as [Hpos Hcut].
      replace (k - 0 + shift_before k (specs_of a))
        with (k + shift_before k (specs_of a)) in Hpos, Hcut by lia.
      replace (Z.to_nat (k + shift_before k (specs_of a)))
        with (Z.to_nat (k + shift_before k (specs_of a)) + 0)%nat by lia.
      rewrite <- nth_error_slice_from by lia.
      rewrite Hcut. apply layout_head; [lia |].
      intros o v t Hin. apply filter_In in Hin. destruct Hin as [Hin Hle].
      cbn [fst] in Hle. apply Z.leb_le in Hle.
      destruct (Z.eq_dec k o) as [-> | Hne]; [| lia].
      exfalso.
      destruct (in_well_placed decode_address b64decode _ _ _ _ _ _ Hwp Hin)
        as (_ & _ & _ & _ & _ & [enc Henc] & _).
      pose proof (encoded_known decode_address b64decode v t enc Henc) as Hw.
      unfold in_region in Hreg.
      assert (Ht : existsb (fun p : spec => (fst p <=? o) && (o <? fst p + reserved (snd (snd p)))) (specs_of a) = true).
      { apply existsb_exists. exists (o, (v, t)). split; [exact Hin |].
        cbn [fst snd]. apply andb_true_intro.
        split; [apply Z.leb_le | apply Z.ltb_lt]; lia. }
      rewrite Hreg in Ht. discriminate.
Qed.

(** C6, as amended.  When [inject] fails it returns the exception and no
    program, and [orig], [values] and [values_types] are as they were.
    On a count mismatch the [offsets] list is unchanged as well.
    Otherwise the failure comes from the first value that does not
    encode under its kind (an unknown kind among them), and every entry
    of [offsets] is left increased by the shifts [dec_len - 1] of the
    substitutions made before it. *)
Theorem inject_failure_effects (a : call_args) (e : exn) :
  fst (inject a) = Raise e ->
  orig (snd (inject a)) = orig a
  /\ values (snd (inject a)) = values a
  /\ values_types (snd (inject a)) = values_types a
  /\ ((same_length a = false /\ e = AssertionError
       /\ offsets (snd (inject a)) = offsets a)
      \/ (same_length a = true
          /\ exists before o v t after,
              specs_of a = before ++ (o, (v, t)) :: after
              /\ Forall (fun p => exists enc,
                             encoded (fst (snd p)) (snd (snd p)) = Ok enc)
                        before
              /\ encoded v t = Raise e
              /\ offsets (snd (inject a))
                 = map (fun x => x + sum_code_shift before) (offsets a))).
Proof.
  intros H.
  destruct (inject_frame decode_address b64decode a) as (H1 & H2 & H3).
  repeat (split; [assumption |]).
  apply inject_failure. exact H.
Qed.

(** C10, as amended.  [inject] never writes to [orig]; it writes to the
    caller's [offsets] list: after a successful call every entry has been
    increased by the accumulated shift, the sum of [dec_len - 1] over the
    substitutions with [dec_len] not zero.  That sum is never negative,
    and when it is zero (every varint one byte long, no blob longer than
    its prefix allows) a second call on the same objects does exactly
    what the first did. *)
Theorem inject_offsets_after_success (a : call_args) (out : bytes) :
  fst (inject a) = Ok out ->
  orig (snd (inject a)) = orig a
  /\ offsets (snd (inject a))
     = map (fun o => o + sum_code_shift (specs_of a)) (offsets a)
  /\ 0 <= sum_code_shift (specs_of a)
  /\ (sum_code_shift (specs_of a) = 0 ->
      inject (snd (inject a)) = inject a).
Proof.
  intros H.
  destruct (inject_frame decode_address b64decode a) as (H1 & H2 & H3).
  destruct (inject_success decode_address b64decode a out H) as [Hlen Hoff].
  split; [exact H1 |]. split; [exact Hoff |].
  split; [apply sum_code_shift_nonneg |].
  intros Hz. f_equal.
  rewrite Hz, map_add_zero in Hoff.
  destruct (snd (inject a)) as [o' f' v' t']. destruct a as [o f v t].
  cbn [orig offsets values values_types] in *. subst. reflexivity.
Qed.

End InjectClaims.


(* ===================================================================== *)
(** * The patch engine at concrete calls                                   *)
(* ===================================================================== *)

(** C1 at a failing call.  A length-prefixed value of three bytes goes
    into the two bytes reserved at offset 0, so its delta is 2, and the
    integer placeholder recorded at original offset 4 belongs at position
    6 of the output.  The code adds [dec_len - 1 = 3] to the offsets and
    patches position 7: the original byte [14] of the placeholder stays,
    and the original byte [15] after it is overwritten. *)
Theorem inject_base64_shift_off_by_one :
  let a := Args [10; 11; 12; 13; 14; 15; 16; 17] [0; 4]
                [PStr "AAAA"; PInt 5] [TyTag "base64"; TyInt] in
  delta Demo.decode_address Demo.b64decode
        (PStr "AAAA") (TyTag "base64") = 2
  /\ inject Demo.decode_address Demo.b64decode a
     = (Ok [3; 0; 0; 0; 12; 13; 14; 5; 16; 17],
        Args (orig a) [3; 7] (values a) (values_types a)).
Proof. vm_compute. split; reflexivity. Qed.

(** C2 as stated fails.  Both placeholders lie inside the program, the
    counts match and the kinds are known, but the offsets descend: the
    delta of the substitution at 5 is added to the offset 2 of the one
    processed after it, so the byte at original position 3, outside every
    region, is overwritten. *)
Lemma postcondition_counterexample :
  ~ postcondition_claim Demo.decode_address Demo.b64decode
      (Args [10; 11; 12; 13; 14; 15; 16; 17] [5; 2]
            [PInt 300; PInt 7] [TyInt; TyInt]).
Proof.
  intros H. destruct (H eq_refl eq_refl) as (out & Hout & _ & _ & Hframe).
  vm_compute in Hout. injection Hout as <-.
  assert (Hk : 0 <= 3 < len [10; 11; 12; 13; 14; 15; 16; 17])
    by (vm_compute; split; [discriminate | reflexivity]).
  specialize (Hframe 3 Hk eq_refl).
  vm_compute in Hframe. discriminate.
Qed.

(** A call with one placeholder of each kind, well placed in a program of
    forty bytes. *)
Lemma inject_postcondition_witness :
  let a := Args (map Z.of_nat (seq 100 40)) [1; 3; 36]
                [PInt 300; PStr "ABCDEFGHIJKLMNOPQRSTUVWXYZabcdef";
                 PStr "AAAA"]
                [TyInt; TyTag "address"; TyTag "base64"] in
  same_length a = true
  /\ well_placed Demo.decode_address Demo.b64decode
       (len (orig a)) 0
       (specs_of a)
  /\ exists out,
       fst (inject Demo.decode_address Demo.b64decode a) = Ok out
       /\ postcondition Demo.decode_address Demo.b64decode a out.
Proof.
  intros a.
  assert (H1 : same_length a = true) by reflexivity.
  assert (H2 : well_placed Demo.decode_address Demo.b64decode
                 (len (orig a)) 0 (specs_of a)).
  { cbn. repeat split; try lia; try reflexivity.
    - eexists; reflexivity.
    - exists 300. split; [reflexivity | lia].
    - eexists; reflexivity.
    - eexists; reflexivity. }
  split; [exact H1 |]. split; [exact H2 |].
  exact (inject_postcondition_well_placed
           Demo.decode_address Demo.b64decode a H1 H2).
Defined.

(** C6 as stated fails.  The first substitution succeeds with a two-byte
    varint and shifts the offsets; the second kind is unknown; the call
    raises and the caller's [offsets] list is left as [[1; 2]]. *)
Lemma error_atomic_counterexample :
  ~ error_atomic Demo.decode_address Demo.b64decode
      (Args [1; 2; 3] [0; 1] [PInt 300; PInt 1] [TyInt; TyTag "foo"]).
Proof.
  intros H. specialize (H UnknownType eq_refl).
  vm_compute in H. discriminate.
Qed.

(** The same call: it fails, and [orig] is as it was. *)
Lemma inject_failure_effects_witness :
  let a := Args [1; 2; 3] [0; 1] [PInt 300; PInt 1] [TyInt; TyTag "foo"] in
  fst (inject Demo.decode_address Demo.b64decode a) = Raise UnknownType
  /\ orig (snd (inject Demo.decode_address Demo.b64decode a)) = orig a.
Proof.
  intros a.
  assert (H : fst (inject Demo.decode_address Demo.b64decode a)
              = Raise UnknownType) by reflexivity.
  exact (conj H (proj1 (inject_failure_effects
                          Demo.decode_address Demo.b64decode
                          a UnknownType H))).
Defined.

(** C10 as stated fails.  The value 5 encodes to one byte, so [dec_len]
    is 1, not zero, and the shift [dec_len - 1] is 0: the [offsets] list
    is written back unchanged and the second call returns what the first
    returned. *)
Lemma offsets_mutation_counterexample :
  ~ offsets_mutation_claim Demo.decode_address Demo.b64decode
      (Args [0; 0] [0] [PInt 5] [TyInt]).
Proof.
  intros H.
  destruct (H [5; 0] eq_refl) as (_ & _ & Hdiff).
  - exists 0, (PInt 5), TyInt. split; [left; reflexivity |].
    vm_compute. discriminate.
  - apply Hdiff. reflexivity.
Qed.

(** A call whose first value takes two bytes: the accumulated shift is
    1 and both entries of [offsets] carry it. *)
Lemma inject_offsets_after_success_witness :
  let a := Args [0; 0; 0] [0; 1] [PInt 300; PInt 5] [TyInt; TyInt] in
  fst (inject Demo.decode_address Demo.b64decode a) = Ok [172; 2; 5; 0]
  /\ offsets (snd (inject Demo.decode_address Demo.b64decode a))
     = map (fun o => o + 1) (offsets a).
Proof.
  intros a.
  assert (H : fst (inject Demo.decode_address Demo.b64decode a)
              = Ok [172; 2; 5; 0]) by reflexivity.
  split; [exact H |].
  destruct (inject_offsets_after_success
              Demo.decode_address Demo.b64decode a _ H)
    as (_ & Hoff & _).
  exact Hoff.
Defined.

(** With a shift that is not zero the second call does differ: the
    offsets it reads are those the first call left. *)
Remark second_call_differs :
  let a := Args [0; 0; 0] [0; 1] [PInt 300; PInt 5] [TyInt; TyInt] in
  let a' := snd (inject Demo.decode_address Demo.b64decode a) in
  fst (inject Demo.decode_address Demo.b64decode a) = Ok [172; 2; 5; 0]
  /\ offsets a' = [1; 2]
  /\ fst (inject Demo.decode_address Demo.b64decode a')
     = Ok [0; 172; 2; 5].
Proof. vm_compute. repeat split. Qed.


(* ===================================================================== *)
(** * The claims about the templates                                       *)
(* ===================================================================== *)

Lemma bind_raise {A B} (r : result A) (k : A -> result B) (e : exn) :
  bind r k = Raise e ->
  r = Raise e \/ exists a, r = Ok a /\ k a = Raise e.
Proof.
  destruct r as [a | e0]; cbn [bind]; intros H.
  - right. exists a. split; [reflexivity | exact H].
  - left. injection H as <-. reflexivity.
Qed.

Lemma outside_raise {A} (who : string) (o : option A) (e : exn) :
  outside who o = Raise e -> e <> NotDivisibleError.
Proof.
  destruct o; cbn [outside]; intros H; [discriminate |].
  injection H as <-. discriminate.
Qed.

Section TemplateClaims.

Variable decode_address : pyval -> option bytes.
Variable b64decode : pyval -> option bytes.
Variable b64encode : bytes -> string.
Variable logic_prefix : bytes.
Variable checksum : bytes -> bytes.
Variable encode_address : bytes -> option string.
Variable lease_length : nat.
Variable rng : Type.
Variable randint : rng -> Z -> Z -> Z * rng.
Variables Txn Lsig Stx RoundT HashT : Type.
Variable PaymentTxn :
  string -> Z -> RoundT -> RoundT -> HashT -> string -> Z -> option Txn.
Variable assign_group_id : Txn -> Txn -> option (Txn * Txn).
Variable LogicSig : bytes -> option Lsig.
Variable LogicSigTransaction : Txn -> Lsig -> option Stx.

Local Abbreviation patched := (patched decode_address b64decode b64encode).
Local Abbreviation get_program :=
  (get_program decode_address b64decode b64encode).
Local Abbreviation get_address :=
  (get_address decode_address b64decode b64encode logic_prefix checksum
               encode_address).
Local Abbreviation DynamicFee_init :=
  (DynamicFee_init b64encode lease_length randint).
Local Abbreviation PeriodicPayment_init :=
  (PeriodicPayment_init lease_length randint).
Local Abbreviation randints := (randints randint).
Local Abbreviation get_send_funds_transaction :=
  (get_send_funds_transaction decode_address b64decode b64encode logic_prefix
     checksum encode_address PaymentTxn assign_group_id LogicSig
     LogicSigTransaction).

Lemma patched_raise orig_text offs vals tys (e : exn) :
  patched orig_text offs vals tys = Raise e -> e <> NotDivisibleError.
Proof.
  unfold patched. intros H.
  apply bind_raise in H. destruct H as [H | (o & _ & H)].
  { apply (outside_raise _ _ _ H). }
  apply bind_raise in H. destruct H as [H | (res & _ & H)]; [| discriminate].
  apply inject_raise in H.
  destruct H as [-> | [-> | [-> | [who ->]]]]; discriminate.
Qed.

Lemma get_program_raise (self : template) (e : exn) :
  fst (get_program self) = Raise e -> e <> NotDivisibleError.
Proof.
  destruct self; cbn [get_program fst]; try discriminate;
    apply patched_raise.
Qed.

Lemma get_address_raise (self : template) (e : exn) :
  get_address self = Raise e -> e <> NotDivisibleError.
Proof.
  unfold get_address. intros H.
  apply bind_raise in H. destruct H as [H | (prog & _ & H)].
  { apply (get_program_raise _ _ H). }
  apply bind_raise in H. destruct H as [H | (raw & _ & H)].
  { apply (outside_raise _ _ _ H). }
  apply (outside_raise _ _ _ H).
Qed.

(** The head of [get_send_funds_transaction] once the ratio is reduced. *)
Lemma split_amounts_reduced (self : Split.t) (amount : Z) (precise : bool) :
  Split.ratd self <> 0 ->
  let g := Z.gcd (Split.ratn self) (Split.ratd self) in
  let ratn := Split.ratn self / g in
  let ratd := Split.ratd self / g in
  ratd <> 0
  /\ split_amounts self amount precise =
     if amount mod ratd =? 0 then Ok (amount / ratd * ratn, amount - 0)
     else if precise then Raise NotDivisibleError
     else (f <- truediv amount ratd ;;
           x <- float_mul_int f ratn ;;
           amt_1 <- round x ;;
           Ok (amt_1, amount - amt_1)).
Proof.
  intros Hd g ratn ratd.
  assert (Hg : g <> 0).
  { intros Hg0. apply Z.gcd_eq_0_r in Hg0. contradiction. }
  assert (Hr : ratd <> 0).
  { intros Hr0. destruct (Z.gcd_divide_r (Split.ratn self) (Split.ratd self))
      as [q Hq]. fold g in Hq.
    assert (Hquot : Split.ratd self / g = q)
      by (rewrite Hq; apply Z.div_mul; exact Hg).
    unfold ratd in Hr0. rewrite Hquot in Hr0. subst q. lia. }
  split; [exact Hr |].
  unfold split_amounts, floordiv, pymod. fold g.
  replace (g =? 0) with false by (symmetry; apply Z.eqb_neq; exact Hg).
  cbn [bind]. fold ratn ratd.
  replace (ratd =? 0) with false by (symmetry; apply Z.eqb_neq; exact Hr).
  cbn [bind]. destruct (amount mod ratd =? 0); reflexivity.
Qed.

Lemma approximate_raise (amount ratd ratn : Z) (e : exn) :
  (f <- truediv amount ratd ;;
   x <- float_mul_int f ratn ;;
   amt_1 <- round x ;;
   Ok (amt_1, amount - amt_1)) = Raise e ->
  e <> NotDivisibleError.
Proof.
  intros H.
  apply bind_raise in H. destruct H as [H | (f & _ & H)].
  { unfold truediv in H. destruct (ratd =? 0); [injection H as <-; discriminate |].
    destruct (round_binary64 _ _); try discriminate;
      injection H as <-; discriminate. }
  apply bind_raise in H. destruct H as [H | (x & _ & H)].
  { unfold float_mul_int in H.
    apply bind_raise in H. destruct H as [H | (y & _ & H)]; [| discriminate].
    unfold float_of_int in H.
    destruct (round_binary64 _ _); try discriminate;
      injection H as <-; discriminate. }
  apply bind_raise in H. destruct H as [H | (a1 & _ & H)]; [| discriminate].
  unfold round in H. destruct x as [m ex | s |].
  - destruct (0 <=? ex); discriminate.
  - injection H as <-. discriminate.
  - injection H as <-. discriminate.
Qed.

(** One call in a chain of binds: either it raised, and then not
    [NotDivisibleError], or it returned [x] and the chain went on. *)
Ltac next_call H x :=
  apply bind_raise in H;
  destruct H as [H | (x & _ & H)];
  [ first [ apply outside_raise in H
          | match type of H with
            | fst (get_program _) = _ =>
                apply get_program_raise in H
            | _ => apply get_address_raise in H
            end ];
    congruence
  | ].

(** C5.  For a ratio with a denominator that is not zero,
    [Split.get_send_funds_transaction] raises [NotDivisibleError] if and
    only if [precise] is true and [amount] is not a multiple of the
    denominator reduced by the gcd. *)
Theorem not_divisible_iff (self : Split.t) (amount : Z)
        (first_valid last_valid : RoundT) (gh : HashT) (precise : bool) :
  Split.ratd self <> 0 ->
  get_send_funds_transaction self amount first_valid last_valid gh precise
  = Raise NotDivisibleError
  <-> precise = true
      /\ amount mod (Split.ratd self
                     / Z.gcd (Split.ratn self) (Split.ratd self)) <> 0.
Proof.
  intros Hd.
  destruct (split_amounts_reduced self amount precise Hd) as [Hr Hs].
  cbv zeta in Hr, Hs.
  set (ratd := Split.ratd self / Z.gcd (Split.ratn self) (Split.ratd self)) in *.
  unfold get_send_funds_transaction. rewrite Hs.
  match goal with
  | |- context [bind _ ?k] => set (tail := k)
  end.
  assert (Htail : forall p, tail p <> Raise NotDivisibleError).
  { intros [amt_1 amt_2] H. subst tail. cbv beta iota in H.
    next_call H a1. next_call H txn_1. next_call H a2. next_call H txn_2.
    next_call H grouped. destruct grouped as [txn_1' txn_2'].
    next_call H p. next_call H raw. next_call H lsig.
    next_call H stx_1. next_call H stx_2. discriminate. }
  destruct (amount mod ratd =? 0) eqn:Hm.
  - apply Z.eqb_eq in Hm. cbn [bind]. split.
    + intros H. exfalso. apply (Htail _ H).
    + intros [_ Hne]. contradiction.
  - apply Z.eqb_neq in Hm. destruct precise.
    + cbn [bind]. split; [intros _; split; [reflexivity | exact Hm] |].
      intros _. reflexivity.
    + split; [| intros [Hp _]; discriminate].
      intros H. exfalso.
      apply bind_raise in H. destruct H as [H | (p & _ & H)].
      * apply approximate_raise in H. congruence.
      * apply (Htail _ H).
Qed.

(** What [split_amounts] returns always adds up where the second amount
    is computed from the first: the approximate branch. *)
Lemma split_amounts_approximate_sum (self : Split.t) (amount amt_1 amt_2 : Z) :
  Split.ratd self <> 0 ->
  amount mod (Split.ratd self
              / Z.gcd (Split.ratn self) (Split.ratd self)) <> 0 ->
  split_amounts self amount false = Ok (amt_1, amt_2) ->
  amt_1 + amt_2 = amount.
Proof.
  intros Hd Hm H.
  destruct (split_amounts_reduced self amount false Hd) as [_ Hs].
  cbv zeta in Hs. rewrite Hs in H.
  replace (_ =? 0) with false in H by (symmetry; apply Z.eqb_neq; exact Hm).
  destruct (truediv _ _) as [f |]; [| discriminate]. cbn [bind] in H.
  destruct (float_mul_int _ _) as [x |]; [| discriminate]. cbn [bind] in H.
  destruct (round x) as [a |]; [| discriminate]. cbn [bind] in H.
  injection H as <- <-. lia.
Qed.

(** The exact branch: the first amount is [amount // ratd * ratn], and
    the second one is [amount] itself. *)
Lemma split_amounts_exact (self : Split.t) (amount : Z) (precise : bool) :
  Split.ratd self <> 0 ->
  amount mod (Split.ratd self
              / Z.gcd (Split.ratn self) (Split.ratd self)) = 0 ->
  split_amounts self amount precise
  = Ok (amount
        / (Split.ratd self / Z.gcd (Split.ratn self) (Split.ratd self))
        * (Split.ratn self / Z.gcd (Split.ratn self) (Split.ratd self)),
        amount).
Proof.
  intros Hd Hm.
  destruct (split_amounts_reduced self amount precise Hd) as [_ Hs].
  cbv zeta in Hs. rewrite Hs, Hm. cbn. rewrite Z.sub_0_r. reflexivity.
Qed.

(** C7.  Two calls of [get_program] on an object return the same thing
    and leave the object as it was, for every class.  The lease of a
    [DynamicFee] or [PeriodicPayment] object is drawn from the generator
    by [__init__], which advances it by [lease_length] draws and stores
    the value in the object; [get_program] takes no generator and reads
    the stored field. *)
Theorem get_program_deterministic
        (self : template) (g : rng) (receiver : string)
        (amount first_valid : Z) (last_valid close_remainder_address : pyval)
        (withdrawing_window period fee timeout : Z) :
  (let first := get_program self in
   let second := get_program (snd first) in
   fst second = fst first /\ snd first = self /\ snd second = self)
  /\ match DynamicFee_init g receiver amount first_valid last_valid
                           close_remainder_address with
     | (Ok d, g') =>
         bytes_of_ints (fst (randints lease_length g))
         = Ok (fst (randints lease_length g))
         /\ DynamicFee.lease_value d
            = b64encode (fst (randints lease_length g))
         /\ g' = snd (randints lease_length g)
         /\ get_program (OfDynamicFee d)
            = (DynamicFee_get_program decode_address b64decode b64encode d,
               OfDynamicFee d)
     | (Raise _, _) => True
     end
  /\ match PeriodicPayment_init g receiver amount withdrawing_window
                                period fee timeout with
     | (Ok p, g') =>
         PeriodicPayment.lease_value p = fst (randints lease_length g)
         /\ g' = snd (randints lease_length g)
         /\ get_program (OfPeriodicPayment p)
            = (PeriodicPayment_get_program decode_address b64decode
                 b64encode p,
               OfPeriodicPayment p)
     | (Raise _, _) => True
     end.
Proof.
  split; [| split].
  - destruct self; cbn; auto.
  - unfold DynamicFee_init.
    destruct (randints lease_length g) as [draws g'] eqn:Hr. cbn [fst snd].
    unfold bytes_of_ints. destruct (forallb is_byte draws); cbn [bind]; auto.
  - unfold PeriodicPayment_init.
    destruct (randints lease_length g) as [draws g'] eqn:Hr. cbn [fst snd].
    unfold bytes_of_ints. destruct (forallb is_byte draws); cbn [bind]; auto.
Qed.

(** C8.  When [get_program] returns a text that decodes to the bytes
    [raw], [get_address] returns
    [encode_address (checksum (logic_prefix + raw))]; hence two objects
    whose programs decode to the same bytes have the same address. *)
Theorem get_address_of_program (self : template) (prog : pyval) (raw : bytes) :
  fst (get_program self) = Ok prog ->
  b64decode prog = Some raw ->
  get_address self
  = outside "encoding.encode_address"
            (encode_address (checksum (logic_prefix ++ raw)))
  /\ forall other prog',
       fst (get_program other) = Ok prog' ->
       b64decode prog' = Some raw ->
       get_address other = get_address self.
Proof.
  intros Hp Hd.
  assert (H : forall t p, fst (get_program t) = Ok p -> b64decode p = Some raw ->
              get_address t
              = outside "encoding.encode_address"
                        (encode_address (checksum (logic_prefix ++ raw)))).
  { intros t p Ht Hdec. unfold get_address. rewrite Ht. cbn [bind].
    rewrite Hdec. reflexivity. }
  split.
  - apply (H self prog Hp Hd).
  - intros other prog' Hp' Hd'.
    rewrite (H other prog' Hp' Hd'), (H self prog Hp Hd). reflexivity.
Qed.

End TemplateClaims.


(* ===================================================================== *)
(** * The templates at concrete calls                                      *)
(* ===================================================================== *)

(** C3 at the failing call: ratio 30:100, amount 100, exact mode.  The
    reduced ratio is 3:10 and 100 is a multiple of 10, so the first
    payment is 30; the second is [amount - amt_2] with [amt_2] still 0,
    that is 100, where the claim has 70. *)
Theorem split_exact_second_amount :
  split_amounts Demo.split_30_100 100 true = Ok (30, 100)
  /\ get_send_funds_transaction
       Demo.decode_address Demo.b64decode Demo.b64encode
       Demo.logic_prefix Demo.checksum Demo.encode_address
       Demo.PaymentTxn Demo.assign_group_id Demo.LogicSig
       Demo.LogicSigTransaction
       Demo.split_30_100 100 1 1001 "genesis"%string true
     = Ok [("FIRST-FIRST-FIRST-FIRST-FIRST-FI"%string, 30);
           ("SECOND-SECOND-SECOND-SECOND-SECO"%string, 100)].
Proof. vm_compute. split; reflexivity. Qed.

(** The table of [HTLC.get_program] against the layout of its program:
    the two bytes of the hash placeholder are at 42 and 43, the byte at
    44 is the length prefix of the owner constant, whose 32 bytes start
    at 45, and the hash opcode is at 102.  The table lists 44 and 101 for
    the two placeholders after the length-prefixed one, so that the extra
    unit of shift lands them on 45 and 102. *)
Remark HTLC_table_after_blob :
  match Demo.b64decode (PStr HTLC_orig) with
  | Some program =>
      slice_to (slice_from program 42) 3 = [1; 6; 32]
      /\ len (slice_from program 45) = 32 + 40
      /\ slice_to (slice_from program 101) 2 = [45; 1]
  | None => False
  end.
Proof. vm_compute. repeat split. Qed.

(** C5 as stated fails.  With [ratd = 0] the gcd of 30 and 0 is 30 and
    the reduced denominator [0 // 30] is 0; 101 is not a multiple of 0
    and [precise] is true, but [amount % ratd] raises
    [ZeroDivisionError] before the test is made, not
    [NotDivisibleError]. *)
Lemma not_divisible_counterexample :
  ~ not_divisible_claim
      Demo.decode_address Demo.b64decode Demo.b64encode
      Demo.logic_prefix Demo.checksum Demo.encode_address
      Demo.PaymentTxn Demo.assign_group_id Demo.LogicSig
      Demo.LogicSigTransaction
      (Split.Make "OWNER-OWNER-OWNER-OWNER-OWNER-OW"
                  "FIRST-FIRST-FIRST-FIRST-FIRST-FI"
                  "SECOND-SECOND-SECOND-SECOND-SECO" 30 0 123456 1000 2000)
      101 1 1001 "genesis"%string true.
Proof.
  intros [_ H].
  assert (Hrhs : true = true
                 /\ 101 mod (0 / Z.gcd 30 0) <> 0)
    by (split; [reflexivity | vm_compute; discriminate]).
  specialize (H Hrhs). vm_compute in H. discriminate.
Qed.

(** Ratio 30:100, amount 101, exact mode: 101 is not a multiple of 10. *)
Lemma not_divisible_iff_witness :
  Split.ratd Demo.split_30_100 <> 0
  /\ get_send_funds_transaction
       Demo.decode_address Demo.b64decode Demo.b64encode
       Demo.logic_prefix Demo.checksum Demo.encode_address
       Demo.PaymentTxn Demo.assign_group_id Demo.LogicSig
       Demo.LogicSigTransaction
       Demo.split_30_100 101 1 1001 "genesis"%string true
     = Raise NotDivisibleError.
Proof.
  assert (H : Split.ratd Demo.split_30_100 <> 0) by discriminate.
  split; [exact H |].
  apply (not_divisible_iff
           Demo.decode_address Demo.b64decode Demo.b64encode
           Demo.logic_prefix Demo.checksum Demo.encode_address
           _ _ _ _ _ Demo.PaymentTxn Demo.assign_group_id Demo.LogicSig
           Demo.LogicSigTransaction
           Demo.split_30_100 101 1 1001 "genesis"%string true H).
  split; [reflexivity | vm_compute; discriminate].
Defined.

(** C9 at a failing call: ratio 691:721, amount 9993866379301711,
    approximate mode.  The two amounts add up to [amount], but the first
    is [round(amount / 721 * 691)] in binary64 arithmetic and is short of
    the exact share [amount * 691 / 721] by 937/721, more than one
    unit. *)
Theorem split_approximate_share_off :
  let self := Split.Make "" "" "" 691 721 0 0 0 in
  let amount := 9993866379301711 in
  split_amounts self amount false
  = Ok (9578032826764884, 415833552536827)
  /\ 9578032826764884 + 415833552536827 = amount
  /\ amount * 691 - 9578032826764884 * 721 = 937
  /\ amount mod 721 <> 0.
Proof. vm_compute. repeat split. discriminate. Qed.

(** The address of a [Split] object, from the bytes of its program. *)
Lemma get_address_of_program_witness :
  exists prog raw,
    fst (get_program Demo.decode_address Demo.b64decode
           Demo.b64encode (OfSplit Demo.split_30_100)) = Ok prog
    /\ Demo.b64decode prog = Some raw
    /\ get_address Demo.decode_address Demo.b64decode
         Demo.b64encode Demo.logic_prefix Demo.checksum
         Demo.encode_address (OfSplit Demo.split_30_100)
       = outside "encoding.encode_address"
           (Demo.encode_address
              (Demo.checksum (Demo.logic_prefix ++ raw))).
Proof.
  let p := eval vm_compute in
        (match fst (get_program Demo.decode_address Demo.b64decode
                      Demo.b64encode (OfSplit Demo.split_30_100)) with
         | Ok p => p
         | Raise _ => PNone
         end) in
  pose (prog := p).
  let r := eval vm_compute in
        (match Demo.b64decode prog with
         | Some r => r
         | None => []
         end) in
  pose (raw := r).
  assert (H1 : fst (get_program Demo.decode_address Demo.b64decode
                      Demo.b64encode (OfSplit Demo.split_30_100))
               = Ok prog) by (vm_compute; reflexivity).
  assert (H2 : Demo.b64decode prog = Some raw) by (vm_compute; reflexivity).
  exists prog, raw. split; [exact H1 |]. split; [exact H2 |].
  exact (proj1 (get_address_of_program
                  Demo.decode_address Demo.b64decode Demo.b64encode
                  Demo.logic_prefix Demo.checksum Demo.encode_address
                  (OfSplit Demo.split_30_100) prog raw H1 H2)).
Defined.

(* ===================================================================== *)
(** * More about [put_uvarint]                                             *)
(* ===================================================================== *)

(** One turn of the loop, read on the bytes: below [0x80] a single byte,
    from [0x80] on a continuation byte followed by the bytes of
    [x >> 7]. *)
Lemma uvarint_small (x : Z) : x < 128 -> uvarint x = [Z.land x 255].
Proof.
  intros Hx. unfold uvarint, put_uvarint.
  destruct (loop_fuel x) as [| f]; cbn [put_uvarint_loop].
  - reflexivity.
  - replace (128 <=? x) with false by (symmetry; apply Z.leb_gt; exact Hx).
    reflexivity.
Qed.

Lemma uvarint_large (x : Z) :
  128 <= x ->
  uvarint x = Z.lor (Z.land x 255) 128 :: uvarint (Z.shiftr x 7).
Proof.
  intros Hx. unfold uvarint, put_uvarint.
  assert (Hlog : 7 <= Z.log2 x).
  { change 7 with (Z.log2 128). apply Z.log2_le_mono. exact Hx. }
  assert (Hs : Z.log2 (Z.shiftr x 7) = Z.log2 x - 7).
  { rewrite Z.log2_shiftr by lia. lia. }
  assert (Hf : loop_fuel x
               = S (loop_fuel (Z.shiftr x 7) + Z.to_nat 6)%nat).
  { unfold loop_fuel. rewrite Hs. lia. }
  rewrite Hf. cbn [put_uvarint_loop].
  replace (128 <=? x) with true by (symmetry; apply Z.leb_le; exact Hx).
  rewrite put_uvarint_loop_frame.
  rewrite put_uvarint_loop_more_fuel
    by (unfold loop_fuel; pose proof (Z.log2_nonneg (Z.shiftr x 7)); lia).
  destruct (put_uvarint_loop (loop_fuel (Z.shiftr x 7)) [] (Z.shiftr x 7) 0)
    as [[h x1] k].
  cbn [fst app]. reflexivity.
Qed.

Lemma shiftr7_lt (x : Z) (k : nat) :
  0 <= x -> (Z.shiftr x 7 < 2 ^ (7 * Z.of_nat k) <-> x < 2 ^ (7 * Z.of_nat (S k))).
Proof.
  intros Hx. rewrite Z.shiftr_div_pow2 by lia.
  replace (7 * Z.of_nat (S k)) with (7 + 7 * Z.of_nat k) by lia.
  rewrite Z.pow_add_r by lia.
  pose proof (Z.pow_pos_nonneg 2 (7 * Z.of_nat k) ltac:(lia) ltac:(lia)) as Hp.
  change (2 ^ 7) with 128. split; intros H.
  - pose proof (Z.div_mod x 128 ltac:(lia)) as Hdm.
    pose proof (Z.mod_pos_bound x 128 ltac:(lia)). nia.
  - apply Z.div_lt_upper_bound; lia.
Qed.

(** X1.  The width of the encoding: for an unsigned [x] and [k >= 1],
    [put_uvarint] writes at most [k] bytes exactly when [x < 2 ^ (7 k)];
    the count it returns is that width. *)
Theorem uvarint_width (x : Z) (k : nat) :
  0 <= x ->
  (1 <= k)%nat ->
  snd (put_uvarint [] x) = len (uvarint x)
  /\ (len (uvarint x) <= Z.of_nat k <-> x < 2 ^ (7 * Z.of_nat k)).
Proof.
  intros Hx Hk. split.
  { rewrite put_uvarint_nil. reflexivity. }
  revert x Hx. destruct k as [| k]; [lia |]. clear Hk.
  induction k as [| k IH]; intros x Hx.
  - change (2 ^ (7 * Z.of_nat 1)) with 128.
    destruct (Z_lt_ge_dec x 128) as [Hlt | Hge].
    + rewrite uvarint_small by exact Hlt. rewrite len_cons, len_nil. lia.
    + rewrite uvarint_large by lia. rewrite len_cons.
      pose proof (put_uvarint_spec [] (Z.shiftr x 7)) as (_ & H1 & _). lia.
  - destruct (Z_lt_ge_dec x 128) as [Hlt | Hge].
    + rewrite uvarint_small by exact Hlt. rewrite len_cons, len_nil.
      assert (128 <= 2 ^ (7 * Z.of_nat (S (S k)))).
      { change 128 with (2 ^ 7). apply Z.pow_le_mono_r; lia. }
      lia.
    + rewrite uvarint_large by lia. rewrite len_cons.
      assert (Hs : 0 <= Z.shiftr x 7) by (apply Z.shiftr_nonneg; lia).
      specialize (IH (Z.shiftr x 7) Hs).
      rewrite <- (shiftr7_lt x (S k) Hx). lia.
Qed.

(** A 64-bit value takes at most ten bytes, and ten for the largest. *)
Lemma uvarint_width_witness :
  0 <= 2 ^ 64 - 1
  /\ (1 <= 10)%nat
  /\ len (uvarint (2 ^ 64 - 1)) <= 10.
Proof.
  assert (H0 : 0 <= 2 ^ 64 - 1) by (vm_compute; discriminate).
  assert (H1 : (1 <= 10)%nat) by lia.
  split; [exact H0 |]. split; [exact H1 |].
  apply (proj2 (uvarint_width (2 ^ 64 - 1) 10 H0 H1)).
  vm_compute. reflexivity.
Defined.

(** X2.  Every integer [put_uvarint] appends is in [range(256)], whatever
    the sign of [x], so the [bytes(buf)] that follows it in [inject]
    never raises; and for an unsigned [x] the bytes are continuation
    bytes, with the high bit set, up to a last one below [0x80]. *)
Theorem uvarint_shape (x : Z) :
  bytes_of_ints (uvarint x) = Ok (uvarint x)
  /\ (0 <= x ->
      exists hi last,
        uvarint x = hi ++ [last]
        /\ Forall (fun b => 128 <= b < 256) hi
        /\ 0 <= last < 128).
Proof.
  split; [apply bytes_of_ints_uvarint |].
  intros Hx.
  assert (Hf : Z.log2 x <= Z.of_nat (loop_fuel x)).
  { unfold loop_fuel. pose proof (Z.log2_nonneg x). lia. }
  destruct (put_uvarint_loop_spec (loop_fuel x) [] x 0 Hf)
    as (hi & x1 & Heq & Hlt & Hnn & Hall & _).
  exists hi, x1. unfold uvarint, put_uvarint. rewrite Heq.
  cbn [fst app]. specialize (Hnn Hx).
  rewrite low_byte_small by lia.
  split; [reflexivity |]. split; [exact Hall | lia].
Qed.

Lemma uvarint_shape_witness :
  bytes_of_ints (uvarint 300) = Ok [172; 2]
  /\ exists hi last,
      uvarint 300 = hi ++ [last]
      /\ Forall (fun b => 128 <= b < 256) hi
      /\ 0 <= last < 128.
Proof.
  assert (H : 0 <= 300) by lia.
  split.
  - exact (proj1 (uvarint_shape 300)).
  - exact (proj2 (uvarint_shape 300) H).
Defined.

(** X3.  The encoding is self-delimiting: if the bytes of [x] followed by
    [r1] are the bytes of [y] followed by [r2], for unsigned [x] and [y],
    then [x = y] and [r1 = r2]. *)
Theorem uvarint_prefix_free (x y : Z) (r1 r2 : bytes) :
  0 <= x -> 0 <= y ->
  uvarint x ++ r1 = uvarint y ++ r2 ->
  x = y /\ r1 = r2.
Proof.
  intros Hx Hy H.
  destruct (put_uvarint_spec [] x) as (_ & _ & _ & Hdx).
  destruct (put_uvarint_spec [] y) as (_ & _ & _ & Hdy).
  specialize (Hdx Hx r1). specialize (Hdy Hy r2).
  rewrite H, Hdy in Hdx. injection Hdx as <- <-. split; reflexivity.
Qed.

(** The bytes of 300 followed by [[7]], read in two ways. *)
Lemma uvarint_prefix_free_witness :
  0 <= 300
  /\ uvarint 300 ++ [7] = uvarint 300 ++ [7]
  /\ (300 = 300 /\ [7] = [7]).
Proof.
  assert (H : 0 <= 300) by lia.
  assert (Heq : uvarint 300 ++ [7] = uvarint 300 ++ [7]) by reflexivity.
  split; [exact H |]. split; [exact Heq |].
  exact (uvarint_prefix_free 300 300 [7] [7] H H Heq).
Defined.

(** X4.  A negative [x] is not refused: the loop is not entered and the
    single byte [x & 0xFF], that is [x mod 256], is written.  Nothing
    reads [x] back from it. *)
Theorem put_uvarint_negative (buf : list Z) (x : Z) :
  x < 0 ->
  put_uvarint buf x = (buf ++ [x mod 256], 1)
  /\ uvarint_decode (uvarint x) <> Some (x, []).
Proof.
  intros Hx.
  assert (Hu : uvarint x = [x mod 256]).
  { rewrite uvarint_small by lia.
    change 255 with (Z.ones 8). rewrite Z.land_ones by lia. reflexivity. }
  destruct (put_uvarint_spec buf x) as (Hput & _).
  rewrite Hput, Hu. split; [reflexivity |].
  cbn [uvarint_decode].
  pose proof (Z.mod_pos_bound x 256 ltac:(lia)) as Hm.
  destruct (x mod 256 <? 128).
  - intros H. injection H as H. lia.
  - discriminate.
Qed.

Lemma put_uvarint_negative_witness :
  -1 < 0 /\ put_uvarint [] (-1) = ([255], 1).
Proof.
  assert (H : -1 < 0) by lia.
  exact (conj H (proj1 (put_uvarint_negative [] (-1) H))).
Defined.

(* ===================================================================== *)
(** * The helper [replace]                                                 *)
(* ===================================================================== *)

(** X5.  Inside the array, [replace] takes out [place_holder_length]
    bytes and puts [new_val] in: the length changes by the difference,
    the bytes before [offset] and after the region are kept, and putting
    a region's own bytes back gives the array back. *)
Theorem replace_in_range (arr new_val : bytes) (offset w : Z) :
  0 <= offset -> 0 <= w -> offset + w <= len arr ->
  len (replace arr new_val offset w) = len arr + len new_val - w
  /\ slice_to (replace arr new_val offset w) offset = slice_to arr offset
  /\ slice_from (replace arr new_val offset w) (offset + len new_val)
     = slice_from arr (offset + w)
  /\ replace arr (slice_to (slice_from arr offset) w) offset w = arr.
Proof.
  intros Ho Hw Hin. unfold replace.
  pose proof (len_nonneg new_val) as Hn.
  assert (Hl : len (slice_to arr offset) = offset)
    by (apply len_slice_to; lia).
  split; [| split; [| split]].
  - rewrite !len_app, Hl, len_slice_from by lia. lia.
  - rewrite slice_to_app_ge by lia. rewrite Hl, Z.sub_diag.
    change (slice_to (new_val ++ slice_from arr (offset + w)) 0) with (@nil Z).
    apply app_nil_r.
  - rewrite slice_from_app_ge by lia. rewrite Hl.
    replace (offset + len new_val - offset) with (len new_val) by lia.
    rewrite slice_from_app_ge by lia. rewrite Z.sub_diag. reflexivity.
  - rewrite !slice_to_nonneg, !slice_from_nonneg by lia.
    replace (Z.to_nat (offset + w)) with (Z.to_nat w + Z.to_nat offset)%nat
      by lia.
    rewrite <- skipn_skipn.
    rewrite (firstn_skipn (Z.to_nat w)). apply firstn_skipn.
Qed.

Lemma replace_in_range_witness :
  0 <= 1 /\ 0 <= 2 /\ 1 + 2 <= len [10; 11; 12; 13]
  /\ len (replace [10; 11; 12; 13] [7; 8; 9] 1 2) = 5.
Proof.
  assert (H1 : 0 <= 1) by lia. assert (H2 : 0 <= 2) by lia.
  assert (H3 : 1 + 2 <= len [10; 11; 12; 13]) by (vm_compute; discriminate).
  split; [exact H1 |]. split; [exact H2 |]. split; [exact H3 |].
  exact (proj1 (replace_in_range [10; 11; 12; 13] [7; 8; 9] 1 2 H1 H2 H3)).
Defined.

(** X6.  An offset at or past the end is not an error: the slices clamp,
    nothing is taken out and [new_val] is appended. *)
Theorem replace_past_end (arr new_val : bytes) (offset w : Z) :
  len arr <= offset -> 0 <= w ->
  replace arr new_val offset w = arr ++ new_val.
Proof.
  intros Ho Hw. pose proof (len_nonneg arr) as H0. unfold replace.
  rewrite slice_to_nonneg, slice_from_nonneg by lia. unfold len in *.
  rewrite firstn_all2, skipn_all2 by lia.
  rewrite app_nil_r. reflexivity.
Qed.

Lemma replace_past_end_witness :
  len [1; 2] <= 5 /\ 0 <= 1 /\ replace [1; 2] [9] 5 1 = [1; 2; 9].
Proof.
  assert (H1 : len [1; 2] <= 5) by (vm_compute; discriminate).
  assert (H2 : 0 <= 1) by lia.
  exact (conj H1 (conj H2 (replace_past_end [1; 2] [9] 5 1 H1 H2))).
Defined.

(** X7.  Two substitutions in disjoint regions commute, provided the one
    made second is moved by the length change of the one before it: the
    fact the offset cascade of [inject] rests on. *)
Theorem replace_commute (arr n1 n2 : bytes) (o1 w1 o2 w2 : Z) :
  0 <= o1 -> 0 <= w1 -> o1 + w1 <= o2 -> 0 <= w2 -> o2 + w2 <= len arr ->
  replace (replace arr n1 o1 w1) n2 (o2 + (len n1 - w1)) w2
  = replace (replace arr n2 o2 w2) n1 o1 w1.
Proof.
  intros H1 H2 H3 H4 H5.
  pose proof (len_nonneg n1) as Hn1. pose proof (len_nonneg n2) as Hn2.
  assert (Hl1 : len (slice_to arr o1) = o1) by (apply len_slice_to; lia).
  assert (Hl2 : len (slice_to arr o2) = o2) by (apply len_slice_to; lia).
  (* left: the first substitution, seen as [done ++ tail] *)
  assert (HL : replace arr n1 o1 w1
               = (slice_to arr o1 ++ n1) ++ slice_from arr (o1 + w1)).
  { unfold replace. rewrite <- app_assoc. reflexivity. }
  rewrite HL.
  rewrite replace_after
    by (rewrite ?len_app, ?Hl1; lia).
  rewrite len_app, Hl1.
  replace (o2 + (len n1 - w1) - (o1 + len n1)) with (o2 - (o1 + w1)) by lia.
  rewrite slice_from_from by lia.
  replace (o1 + w1 + (o2 - (o1 + w1) + w2)) with (o2 + w2) by lia.
  (* right: the substitution at [o2] leaves the part before it alone *)
  assert (HR : replace arr n2 o2 w2
               = slice_to arr o1
                 ++ (slice_to (slice_from arr o1) (o2 - o1) ++ n2
                     ++ slice_from arr (o2 + w2))).
  { assert (Hsplit : slice_to arr o2
                     = slice_to arr o1
                       ++ slice_to (slice_from arr o1) (o2 - o1)).
    { rewrite !slice_to_nonneg, !slice_from_nonneg by lia.
      rewrite <- (firstn_skipn (Z.to_nat o1) (firstn (Z.to_nat o2) arr)).
      rewrite firstn_firstn, skipn_firstn_comm.
      replace (Nat.min (Z.to_nat o1) (Z.to_nat o2)) with (Z.to_nat o1) by lia.
      do 2 f_equal. lia. }
    unfold replace. rewrite Hsplit, <- app_assoc. reflexivity. }
  rewrite HR.
  unfold replace at 1.
  rewrite slice_to_app_ge by lia. rewrite Hl1, Z.sub_diag.
  rewrite slice_from_app_ge by lia. rewrite Hl1.
  replace (o1 + w1 - o1) with w1 by lia.
  assert (Hgap : len (slice_to (slice_from arr o1) (o2 - o1)) = o2 - o1).
  { apply len_slice_to. rewrite len_slice_from by lia. lia. }
  rewrite slice_from_app_le by lia.
  change (slice_to (slice_to (slice_from arr o1) (o2 - o1) ++ n2
                    ++ slice_from arr (o2 + w2)) 0) with (@nil Z).
  rewrite app_nil_r.
  rewrite <- !app_assoc. do 2 f_equal.
  assert (Hmid : slice_to (slice_from arr (o1 + w1)) (o2 - (o1 + w1))
                 = slice_from (slice_to (slice_from arr o1) (o2 - o1)) w1).
  { rewrite !slice_to_nonneg, !slice_from_nonneg by lia.
    rewrite skipn_firstn_comm, skipn_skipn.
    replace (Z.to_nat (o2 - o1) - Z.to_nat w1)%nat
      with (Z.to_nat (o2 - (o1 + w1))) by lia.
    replace (Z.to_nat w1 + Z.to_nat o1)%nat with (Z.to_nat (o1 + w1)) by lia.
    reflexivity. }
  rewrite Hmid. reflexivity.
Qed.

Lemma replace_commute_witness :
  0 <= 1 /\ 0 <= 1 /\ 1 + 1 <= 4 /\ 0 <= 2 /\ 4 + 2 <= len [0; 1; 2; 3; 4; 5; 6]
  /\ replace (replace [0; 1; 2; 3; 4; 5; 6] [172; 2; 9] 1 1) [7] (4 + (3 - 1)) 2
     = replace (replace [0; 1; 2; 3; 4; 5; 6] [7] 4 2) [172; 2; 9] 1 1.
Proof.
  assert (H1 : 0 <= 1) by lia. assert (H3 : 1 + 1 <= 4) by lia.
  assert (H4 : 0 <= 2) by lia.
  assert (H5 : 4 + 2 <= len [0; 1; 2; 3; 4; 5; 6]) by (vm_compute; discriminate).
  repeat (split; [assumption |]).
  exact (replace_commute [0; 1; 2; 3; 4; 5; 6] [172; 2; 9] [7] 1 1 4 2
           H1 H1 H3 H4 H5).
Defined.

(* ===================================================================== *)
(** * More about [inject]                                                  *)
(* ===================================================================== *)

Lemma combine_app {A B} (l1 l2 : list A) (m1 m2 : list B) :
  List.length l1 = List.length m1 ->
  combine (l1 ++ l2) (m1 ++ m2) = combine l1 m1 ++ combine l2 m2.
Proof.
  revert m1. induction l1 as [| a l1 IH]; intros [| b m1] H;
    try discriminate; [reflexivity |].
  cbn [app combine]. f_equal. apply IH. cbn [List.length] in H. lia.
Qed.

Section InjectMore.

Variable decode_address : pyval -> option bytes.
Variable b64decode : pyval -> option bytes.

Local Abbreviation encoded := (encoded decode_address b64decode).
Local Abbreviation code_shift := (code_shift decode_address b64decode).
Local Abbreviation inject_run := (inject_run decode_address b64decode).
Local Abbreviation inject := (inject decode_address b64decode).
Local Abbreviation sum_code_shift := (sum_code_shift decode_address b64decode).

Lemma inject_run_app (ps qs : list spec) :
  forall res s,
    inject_run (ps ++ qs) res s
    = match inject_run ps res s with
      | (Ok mid, s1) => inject_run qs mid s1
      | (Raise e, s1) => (Raise e, s1)
      end.
Proof.
  induction ps as [| [o [v t]] ps IH]; intros res s; cbn [app inject_run].
  - reflexivity.
  - destruct (encoded v t) as [enc | e]; [apply IH | reflexivity].
Qed.

(** Offsets given already shifted by [k] are offsets met with a shift of
    [k]. *)
Lemma inject_run_shifted (k : Z) (offs : list Z) :
  forall (rest : list (pyval * pytype)) res s,
    fst (inject_run (combine (map (fun o => o + k) offs) rest) res s)
    = fst (inject_run (combine offs rest) res (s + k)).
Proof.
  induction offs as [| o offs IH]; intros [| [v t] rest] res s;
    cbn [map combine inject_run]; try reflexivity.
  destruct (encoded v t) as [enc | e]; [| reflexivity].
  rewrite IH.
  replace (o + k + s) with (o + (s + k)) by lia.
  replace (s + code_shift v t + k) with (s + k + code_shift v t) by lia.
  reflexivity.
Qed.

Lemma inject_run_returns (ps : list spec) :
  forall res s,
    (exists out s', inject_run ps res s = (Ok out, s'))
    <-> Forall (fun p => exists enc,
                    encoded (fst (snd p)) (snd (snd p)) = Ok enc) ps.
Proof.
  induction ps as [| [o [v t]] ps IH]; intros res s; cbn [inject_run].
  - split; [constructor | intros _; eexists; eexists; reflexivity].
  - destruct (encoded v t) as [enc | e] eqn:Henc.
    + rewrite IH. split; intros H.
      * constructor; [exists enc; exact Henc | exact H].
      * inversion H; assumption.
    + split.
      * intros (out & s' & H). discriminate.
      * intros H. inversion H as [| p l [enc Hp] Hl]. cbn [fst snd] in Hp.
        rewrite Henc in Hp. discriminate.
Qed.

(** X8.  [inject] returns a program exactly when the three counts are
    equal and every value encodes under its kind (an [int] under [int],
    a decodable address or blob, a known kind).  Nothing else makes it
    fail: no offset, however far outside the program, is an error. *)
Theorem inject_returns_iff (a : call_args) :
  (exists out, fst (inject a) = Ok out)
  <-> (List.length (offsets a) = List.length (values a)
       /\ List.length (values a) = List.length (values_types a))
      /\ Forall (fun p => exists enc,
                     encoded (fst (snd p)) (snd (snd p)) = Ok enc)
                (specs_of a).
Proof.
  destruct (same_length a) eqn:Hlen.
  - pose proof (same_length_true a Hlen) as [Hv Ht].
    rewrite (inject_as_run decode_address b64decode a Hlen).
    rewrite <- (inject_run_returns (specs_of a) (orig a) 0).
    destruct (inject_run (specs_of a) (orig a) 0) as [r s]. cbn [fst].
    split.
    + intros [out ->]. split; [lia |]. exists out, s. reflexivity.
    + intros [_ (out & s' & H)]. injection H as -> _. exists out. reflexivity.
  - unfold inject. rewrite Hlen. cbn [fst]. split.
    + intros [out H]. discriminate.
    + intros [[H1 H2] _]. unfold same_length in Hlen.
      apply andb_false_iff in Hlen.
      destruct Hlen as [H | H]; apply Nat.eqb_neq in H; contradiction.
Qed.

(** X9.  [inject] raises [AssertionError] exactly when the counts differ;
    the check comes first, so then no argument has been touched. *)
Theorem inject_assertion_iff (a : call_args) :
  (fst (inject a) = Raise AssertionError
   <-> ~ (List.length (offsets a) = List.length (values a)
          /\ List.length (values a) = List.length (values_types a)))
  /\ (fst (inject a) = Raise AssertionError -> snd (inject a) = a).
Proof.
  destruct (same_length a) eqn:Hlen.
  - pose proof (same_length_true a Hlen) as [Hv Ht].
    assert (Hno : fst (inject a) <> Raise AssertionError).
    { intros H.
      destruct (inject_failure decode_address b64decode a _ H)
        as [(Hf & _) | (_ & _ & _ & v & t & _ & _ & _ & Hr & _)].
      - rewrite Hlen in Hf. discriminate.
      - destruct (encoded_raise decode_address b64decode v t _ Hr)
          as [He | [He | [who He]]]; discriminate. }
    split; [| intros H; contradiction].
    split; [intros H; contradiction |].
    intros H. exfalso. apply H. lia.
  - unfold inject. rewrite Hlen. cbn [fst snd].
    split; [| reflexivity].
    split; [| reflexivity].
    intros _ [H1 H2]. unfold same_length in Hlen.
    apply andb_false_iff in Hlen.
    destruct Hlen as [H | H]; apply Nat.eqb_neq in H; contradiction.
Qed.

(** X10.  A call on two lists of placeholders, one after the other, does
    what two calls do: the first list on the original program, then the
    second list on the result, with its offsets increased by the shift
    the first list has accumulated. *)
Theorem inject_compose (program mid : bytes)
        (offs1 offs2 : list Z) (vals1 vals2 : list pyval)
        (tys1 tys2 : list pytype) :
  List.length vals1 = List.length offs1 ->
  List.length tys1 = List.length offs1 ->
  List.length vals2 = List.length offs2 ->
  List.length tys2 = List.length offs2 ->
  fst (inject (Args program offs1 vals1 tys1)) = Ok mid ->
  fst (inject (Args program (offs1 ++ offs2) (vals1 ++ vals2)
                    (tys1 ++ tys2)))
  = fst (inject
           (Args mid
                 (map (fun o =>
                         o + sum_code_shift
                               (combine offs1 (combine vals1 tys1)))
                      offs2)
                 vals2 tys2)).
Proof.
  intros Hv1 Ht1 Hv2 Ht2 Hfirst.
  assert (L1 : same_length (Args program offs1 vals1 tys1) = true).
  { unfold same_length. cbn [offsets values values_types].
    rewrite Hv1, Ht1, !Nat.eqb_refl. reflexivity. }
  assert (L2 : same_length
                 (Args program (offs1 ++ offs2) (vals1 ++ vals2)
                       (tys1 ++ tys2)) = true).
  { unfold same_length. cbn [offsets values values_types].
    rewrite !length_app, Hv1, Ht1, Hv2, Ht2, !Nat.eqb_refl. reflexivity. }
  set (S1 := sum_code_shift (combine offs1 (combine vals1 tys1))).
  assert (L3 : same_length
                 (Args mid (map (fun o => o + S1) offs2) vals2 tys2) = true).
  { unfold same_length. cbn [offsets values values_types].
    rewrite length_map, Hv2, Ht2, !Nat.eqb_refl. reflexivity. }
  rewrite (inject_as_run decode_address b64decode _ L1) in Hfirst.
  rewrite (inject_as_run decode_address b64decode _ L2).
  rewrite (inject_as_run decode_address b64decode _ L3).
  unfold specs_of in *. cbn [offsets values values_types orig] in *.
  rewrite (combine_app vals1 vals2 tys1 tys2) by lia.
  rewrite combine_app by (rewrite length_combine; lia).
  rewrite inject_run_app.
  destruct (inject_run (combine offs1 (combine vals1 tys1)) program 0)
    as [r1 s1] eqn:Hrun1.
  cbn [fst] in Hfirst. subst r1.
  apply inject_run_ok in Hrun1. rewrite Z.add_0_l in Hrun1. fold S1 in Hrun1.
  subst s1.
  pose proof (inject_run_shifted S1 offs2 (combine vals2 tys2) mid 0) as Hs.
  rewrite Z.add_0_l in Hs.
  destruct (inject_run (combine (map (fun o => o + S1) offs2)
                                (combine vals2 tys2)) mid 0) as [r3 s3].
  destruct (inject_run (combine offs2 (combine vals2 tys2)) mid S1)
    as [r2 s2].
  cbn [fst] in *. congruence.
Qed.

End InjectMore.

Lemma inject_returns_iff_witness :
  exists out,
    fst (inject Demo.decode_address Demo.b64decode
           (Args [1; 2] [100] [PInt 300] [TyInt])) = Ok out.
Proof.
  apply (proj2 (inject_returns_iff Demo.decode_address Demo.b64decode
                  (Args [1; 2] [100] [PInt 300] [TyInt]))).
  split; [split; reflexivity |].
  repeat constructor. eexists. reflexivity.
Defined.

Lemma inject_assertion_iff_witness :
  fst (inject Demo.decode_address Demo.b64decode
         (Args [1; 2] [0; 1] [PInt 300] [TyInt])) = Raise AssertionError
  /\ snd (inject Demo.decode_address Demo.b64decode
            (Args [1; 2] [0; 1] [PInt 300] [TyInt]))
     = Args [1; 2] [0; 1] [PInt 300] [TyInt].
Proof.
  assert (H : fst (inject Demo.decode_address Demo.b64decode
                     (Args [1; 2] [0; 1] [PInt 300] [TyInt]))
              = Raise AssertionError) by reflexivity.
  exact (conj H (proj2 (inject_assertion_iff Demo.decode_address
                          Demo.b64decode _) H)).
Defined.

Lemma inject_compose_witness :
  fst (inject Demo.decode_address Demo.b64decode
         (Args [0; 0; 0; 0] [0] [PInt 300] [TyInt])) = Ok [172; 2; 0; 0; 0]
  /\ fst (inject Demo.decode_address Demo.b64decode
            (Args [0; 0; 0; 0] ([0] ++ [2]) ([PInt 300] ++ [PInt 5])
                  ([TyInt] ++ [TyInt])))
     = fst (inject Demo.decode_address Demo.b64decode
              (Args [172; 2; 0; 0; 0] [3] [PInt 5] [TyInt])).
Proof.
  assert (H : fst (inject Demo.decode_address Demo.b64decode
                     (Args [0; 0; 0; 0] [0] [PInt 300] [TyInt]))
              = Ok [172; 2; 0; 0; 0]) by reflexivity.
  split; [exact H |].
  exact (inject_compose Demo.decode_address Demo.b64decode
           [0; 0; 0; 0] [172; 2; 0; 0; 0] [0] [2] [PInt 300] [PInt 5]
           [TyInt] [TyInt] eq_refl eq_refl eq_refl eq_refl H).
Defined.

(* ===================================================================== *)
(** * The offset table the engine expects, and the templates' tables       *)
(* ===================================================================== *)

Lemma combine_values_kinds (ps : list spec) :
  combine (map fst ps) (combine (values_of ps) (kinds_of ps)) = ps.
Proof.
  unfold values_of, kinds_of.
  induction ps as [| [o [v t]] ps IH]; [reflexivity |].
  cbn [map combine fst snd]. rewrite IH. reflexivity.
Qed.

Lemma combine_table_kinds (ps : list spec) :
  forall b,
    combine (table_from b ps) (combine (values_of ps) (kinds_of ps))
    = combine (table_from b ps) (map snd ps).
Proof.
  unfold values_of, kinds_of.
  induction ps as [| [o [v t]] ps IH]; intros b; [reflexivity |].
  cbn [table_from map combine fst snd]. rewrite IH. reflexivity.
Qed.

Lemma table_from_length (ps : list spec) :
  forall b, List.length (table_from b ps) = List.length ps.
Proof.
  induction ps as [| [o [v t]] ps IH]; intros b; [reflexivity |].
  cbn [table_from List.length]. rewrite IH. reflexivity.
Qed.

Section EngineTable.

Variable decode_address : pyval -> option bytes.
Variable b64decode : pyval -> option bytes.

Local Abbreviation encoded := (encoded decode_address b64decode).
Local Abbreviation encoded_len := (encoded_len decode_address b64decode).
Local Abbreviation delta := (delta decode_address b64decode).
Local Abbreviation dec_len := (dec_len decode_address b64decode).
Local Abbreviation code_shift := (code_shift decode_address b64decode).
Local Abbreviation inject_run := (inject_run decode_address b64decode).
Local Abbreviation inject := (inject decode_address b64decode).
Local Abbreviation placed := (placed decode_address b64decode).
Local Abbreviation layout := (layout decode_address b64decode).
Local Abbreviation sum_delta := (sum_delta decode_address b64decode).
Local Abbreviation shift_before := (shift_before decode_address b64decode).
Local Abbreviation decodes := (decodes decode_address b64decode).
Local Abbreviation postcondition := (postcondition decode_address b64decode).

Lemma placed_bound (L : Z) (ps : list spec) :
  forall c, placed L c ps -> c <= L.
Proof.
  induction ps as [| [o [v t]] rest IH]; intros c H; cbn [placed] in H.
  - exact H.
  - destruct H as (Hc & _ & _ & Hrest). apply IH in Hrest.
    pose proof (reserved_nonneg t). lia.
Qed.

Lemma placed_in (L : Z) (ps : list spec) :
  forall c o v t,
    placed L c ps -> In (o, (v, t)) ps ->
    c <= o /\ o + reserved t <= L.
Proof.
  induction ps as [| [o0 [v0 t0]] rest IH]; intros c o v t H Hin;
    cbn [placed] in H.
  - destruct Hin.
  - destruct H as (Hc & _ & _ & Hrest). destruct Hin as [Heq | Hin].
    + injection Heq as -> -> ->. split; [assumption |].
      apply placed_bound in Hrest. assumption.
    + destruct (IH _ _ _ _ Hrest Hin) as [H1 H2].
      pose proof (reserved_nonneg t0). lia.
Qed.

(** The shift the code adds against the length delta, kind by kind: one
    more after a length-prefixed value, the same otherwise. *)
Lemma code_shift_blob (v : pyval) (t : pytype) (enc : bytes) :
  encoded v t = Ok enc ->
  match t with
  | TyInt => True
  | TyTag tag =>
      if String.eqb tag "address" then encoded_len v t = 32 else True
  end ->
  code_shift v t = delta v t + (if is_blob t then 1 else 0).
Proof.
  intros Henc Hkind. destruct t as [| tag].
  - rewrite (code_shift_delta decode_address b64decode v TyInt enc Henc I).
    cbn [is_blob]. lia.
  - cbn [is_blob]. destruct (String.eqb tag "address") eqn:Ha.
    + rewrite (code_shift_delta decode_address b64decode v (TyTag tag) enc Henc)
        by (rewrite Ha; split; [reflexivity | exact Hkind]).
      cbn [negb andb]. lia.
    + unfold code_shift, delta, dec_len, encoded_len. rewrite Ha, Henc.
      cbn [encoded reserved] in *. rewrite Ha in *.
      destruct (String.eqb tag "base64"); [| discriminate].
      destruct (b64decode v) as [blob |]; [| discriminate].
      cbn [outside bind] in Henc. injection Henc as <-.
      destruct (put_uvarint_spec [] (len blob)) as (_ & H1 & _).
      pose proof (len_nonneg blob) as Hb. rewrite len_app.
      replace (len (uvarint (len blob)) + len blob =? 0) with false
        by (symmetry; apply Z.eqb_neq; lia).
      cbn [negb andb]. lia.
Qed.

(** The run over the table entries builds the layout at the original
    offsets. *)
Lemma inject_run_table (program : bytes) (ps : list spec) :
  forall done c s b,
    0 <= c ->
    placed (len program) c ps ->
    len done = c + s - b ->
    fst (inject_run (combine (table_from b ps) (map snd ps))
                    (done ++ slice_from program c) s)
    = Ok (done ++ layout program c ps).
Proof.
  induction ps as [| [o [v t]] rest IH]; intros done c s b Hc Hp Hlen.
  - reflexivity.
  - cbn [placed] in Hp. destruct Hp as (Hco & [enc Henc] & Hkind & Hrest).
    cbn [table_from map combine snd inject_run layout]. rewrite Henc.
    pose proof (reserved_nonneg t) as Hw.
    pose proof (placed_bound _ _ _ Hrest) as Hend.
    rewrite replace_after by lia.
    rewrite slice_from_from by lia.
    replace (c + (o - b + s - len done + reserved t)) with (o + reserved t)
      by lia.
    replace (o - b + s - len done) with (o - c) by lia.
    assert (Hgap : len (slice_to (slice_from program c) (o - c)) = o - c).
    { apply len_slice_to. rewrite len_slice_from by lia. lia. }
    rewrite IH with (c := o + reserved t); try lia; try assumption.
    + rewrite <- !app_assoc. reflexivity.
    + rewrite !len_app, Hgap, Hlen.
      assert (Hk : match t with
                   | TyInt => True
                   | TyTag tag =>
                       if String.eqb tag "address"
                       then encoded_len v t = 32 else True
                   end) by (destruct t; [exact I | exact Hkind]).
      rewrite (code_shift_blob v t enc Henc Hk).
      unfold delta, encoded_len. rewrite Henc.
      destruct (is_blob t); lia.
Qed.

Lemma layout_at_placed (program : bytes) (ps : list spec) :
  forall c k,
    0 <= c ->
    placed (len program) c ps ->
    c <= k <= len program ->
    not_inside k ps ->
    0 <= k - c + shift_before k ps
    /\ slice_from (layout program c ps) (k - c + shift_before k ps)
       = layout program k (filter (fun p => k <=? fst p) ps).
Proof.
  induction ps as [| [o [v t]] rest IH]; intros c k Hc Hwp Hk Hout.
  - unfold shift_before. cbn [filter layout]. unfold sum_delta.
    cbn [fold_right].
    rewrite Z.add_0_r. split; [lia |].
    rewrite slice_from_from by lia. f_equal. lia.
  - cbn [placed] in Hwp. destruct Hwp as (Hco & [enc Henc] & Hkind & Hrest).
    pose proof (encoded_known decode_address b64decode v t enc Henc) as Hw.
    pose proof (placed_bound _ _ _ Hrest) as Hend.
    assert (Hgap : len (slice_to (slice_from program c) (o - c)) = o - c).
    { apply len_slice_to. rewrite len_slice_from by lia. lia. }
    assert (Hlater : forall o' v' t',
               In (o', (v', t')) rest -> o + reserved t <= o').
    { intros o' v' t' Hin.
      destruct (placed_in _ _ _ _ _ _ Hrest Hin). assumption. }
    destruct (Hout o v t (or_introl eq_refl)) as [Hbefore | Hafter].
    + assert (Hall : forall o' v' t',
                 In (o', (v', t')) ((o, (v, t)) :: rest) -> k <= o').
      { intros o' v' t' [Heq | Hin].
        - injection Heq as <- _ _. assumption.
        - specialize (Hlater _ _ _ Hin). lia. }
      rewrite (shift_before_none decode_address b64decode k _ Hall).
      rewrite (filter_from_all k _ Hall).
      rewrite Z.add_0_r. split; [lia |].
      cbn [layout]. rewrite Henc.
      rewrite slice_from_app_le by lia.
      rewrite slice_gap by lia. reflexivity.
    + rewrite shift_before_cons. cbn [filter fst].
      replace (o <? k) with true by (symmetry; apply Z.ltb_lt; lia).
      replace (k <=? o) with false by (symmetry; apply Z.leb_gt; lia).
      destruct (IH (o + reserved t) k) as [Hpos Hcut];
        [lia | assumption | lia | apply (not_inside_tail _ _ _ Hout) |].
      assert (Hd : delta v t = len enc - reserved t).
      { unfold delta, encoded_len. rewrite Henc. reflexivity. }
      pose proof (len_nonneg enc) as Henc0.
      split; [lia |].
      cbn [layout]. rewrite Henc.
      rewrite slice_from_app_ge by lia.
      rewrite slice_from_app_ge by lia.
      rewrite <- Hcut. f_equal. lia.
Qed.

Lemma layout_len_placed (program : bytes) (ps : list spec) :
  forall c,
    0 <= c ->
    placed (len program) c ps ->
    len (layout program c ps) = len program - c + sum_delta ps.
Proof.
  induction ps as [| [o [v t]] rest IH]; intros c Hc Hwp.
  - cbn [placed] in Hwp. cbn [layout]. unfold sum_delta. cbn [fold_right].
    rewrite len_slice_from by lia. lia.
  - cbn [placed] in Hwp. destruct Hwp as (Hco & [enc Henc] & Hkind & Hrest).
    pose proof (reserved_nonneg t) as Hw.
    pose proof (placed_bound _ _ _ Hrest) as Hend.
    cbn [layout]. rewrite Henc, !len_app.
    rewrite len_slice_to by (rewrite len_slice_from by lia; lia).
    rewrite IH by (try assumption; lia).
    assert (Hd : delta v t = len enc - reserved t).
    { unfold delta, encoded_len. rewrite Henc. reflexivity. }
    unfold sum_delta. cbn [fold_right fst snd]. rewrite Hd. lia.
Qed.

Lemma in_placed (L : Z) (ps : list spec) :
  forall c o v t,
    placed L c ps -> In (o, (v, t)) ps ->
    exists before after,
      ps = before ++ (o, (v, t)) :: after
      /\ (forall o' v' t',
             In (o', (v', t')) before -> o' < o /\ o' + reserved t' <= o)
      /\ (forall o' v' t', In (o', (v', t')) after -> o < o')
      /\ (exists enc, encoded v t = Ok enc)
      /\ match t with
         | TyInt => exists x, v = PInt x /\ 0 <= x
         | TyTag tag =>
             if String.eqb tag "address" then encoded_len v t = 32
             else True
         end.
Proof.
  induction ps as [| [o0 [v0 t0]] rest IH]; intros c o v t Hwp Hin.
  - destruct Hin.
  - cbn [placed] in Hwp.
    destruct Hwp as (Hc & [enc Henc] & Hkind & Hrest).
    pose proof (encoded_known decode_address b64decode v0 t0 enc Henc) as Hw.
    assert (Hlater : forall o' v' t',
               In (o', (v', t')) rest -> o0 < o' /\ o0 + reserved t0 <= o').
    { intros o' v' t' Hin'.
      destruct (placed_in _ _ _ _ _ _ Hrest Hin'). lia. }
    destruct Hin as [Heq | Hin].
    + injection Heq as -> -> ->.
      exists [], rest. split; [reflexivity |].
      split; [intros o' v' t' [] |].
      split; [intros o' v' t' Hin'; apply (Hlater o' v' t' Hin') |].
      split; [exists enc; exact Henc | exact Hkind].
    + destruct (IH _ _ _ _ Hrest Hin)
        as (before & after & -> & Hb & Ha & He & Hk).
      exists ((o0, (v0, t0)) :: before), after.
      split; [reflexivity |]. split.
      * intros o' v' t' [Heq | Hin'].
        -- injection Heq as <- _ <-. apply (Hlater o v t).
           apply in_or_app. right. left. reflexivity.
        -- apply (Hb o' v' t' Hin').
      * split; [exact Ha |]. split; [exact He | exact Hk].
Qed.

(** The layout over placed placeholders meets the postcondition. *)
Lemma layout_postcondition (program : bytes) (ps : list spec) :
  placed (len program) 0 ps ->
  postcondition (Args program (map fst ps) (values_of ps) (kinds_of ps))
                (layout program 0 ps).
Proof.
  intros Hwp.
  pose proof (placed_bound _ _ _ Hwp) as HL.
  unfold postcondition, specs_of. cbn [orig offsets values values_types].
  rewrite combine_values_kinds.
  split; [| split].
  - rewrite (layout_len_placed _ _ 0 (Z.le_refl 0) Hwp). lia.
  - intros o v t Hin.
    destruct (placed_in _ _ _ _ _ _ Hwp Hin) as [Ho Hend].
    pose proof (reserved_nonneg t) as Hw.
    destruct (in_placed _ _ _ _ _ _ Hwp Hin)
      as (before & after & Hsplit & Hb & Ha & [enc Henc] & Hkind).
    assert (Hout : not_inside o ps).
    { intros o' v' t' Hin'. rewrite Hsplit in Hin'.
      apply in_app_or in Hin'. destruct Hin' as [Hin' | [Heq | Hin']].
      - right. apply (Hb o' v' t' Hin').
      - injection Heq as <- _ _. left. lia.
      - left. specialize (Ha o' v' t' Hin'). lia. }
    assert (Hbound : 0 <= o <= len program) by lia.
    destruct (layout_at_placed program ps 0 o (Z.le_refl 0) Hwp Hbound Hout)
      as [_ Hcut].
    replace (o - 0 + shift_before o ps) with (o + shift_before o ps)
      in Hcut by lia.
    rewrite Hcut. rewrite Hsplit at 1.
    rewrite (filter_from_split o before after (o, (v, t)) eq_refl Hb Ha).
    cbn [layout]. rewrite Henc, Z.sub_diag.
    change (slice_to (slice_from program o) 0) with (@nil Z).
    cbn [app]. apply encoded_decodes; [exact Henc |].
    destruct t as [| tag]; exact Hkind.
  - intros k Hk Hreg.
    pose proof (in_region_not_inside k _ Hreg) as Hout.
    assert (Hbound : 0 <= k <= len program) by lia.
    destruct (layout_at_placed program ps 0 k (Z.le_refl 0) Hwp Hbound Hout)
      as [Hpos Hcut].
    replace (k - 0 + shift_before k ps) with (k + shift_before k ps)
      in Hpos, Hcut by lia.
    replace (Z.to_nat (k + shift_before k ps))
      with (Z.to_nat (k + shift_before k ps) + 0)%nat by lia.
    rewrite <- nth_error_slice_from by lia.
    rewrite Hcut. apply layout_head; [lia |].
    intros o v t Hin. apply filter_In in Hin. destruct Hin as [Hin Hle].
    cbn [fst] in Hle. apply Z.leb_le in Hle.
    destruct (Z.eq_dec k o) as [-> | Hne]; [| lia].
    exfalso.
    destruct (in_placed _ _ _ _ _ _ Hwp Hin)
      as (_ & _ & _ & _ & _ & [enc Henc] & _).
    pose proof (encoded_known decode_address b64decode v t enc Henc) as Hw.
    unfold in_region in Hreg.
    assert (Ht : existsb (fun p : spec =>
                            (fst p <=? o)
                            && (o <? fst p + reserved (snd (snd p)))) ps
                 = true).
    { apply existsb_exists. exists (o, (v, t)). split; [exact Hin |].
      cbn [fst snd]. apply andb_true_intro.
      split; [apply Z.leb_le | apply Z.ltb_lt]; lia. }
    rewrite Hreg in Ht. discriminate.
Qed.

(** [inject] on the engine table of placed placeholders returns the
    layout for their original offsets. *)
Lemma engine_table_layout (program : bytes) (ps : list spec) :
  placed (len program) 0 ps ->
  fst (inject (Args program (engine_table ps) (values_of ps) (kinds_of ps)))
  = Ok (layout program 0 ps).
Proof.
  intros Hp.
  assert (Hlen : same_length
                   (Args program (engine_table ps) (values_of ps)
                         (kinds_of ps)) = true).
  { unfold same_length, engine_table, values_of, kinds_of.
    cbn [offsets values values_types].
    rewrite table_from_length, !length_map, !Nat.eqb_refl. reflexivity. }
  rewrite (inject_as_run decode_address b64decode _ Hlen).
  unfold specs_of, engine_table. cbn [orig offsets values values_types].
  rewrite combine_table_kinds.
  pose proof (inject_run_table program ps [] 0 0 0 (Z.le_refl 0) Hp eq_refl)
    as H.
  cbn [app] in H. rewrite slice_from_zero in H.
  destruct (inject_run (combine (table_from 0 ps) (map snd ps)) program 0)
    as [r s].
  exact H.
Qed.

(** X11.  The table that makes the engine right.  For placeholders that
    sit at given original offsets (ascending, disjoint, inside the
    program, values of the type of their kinds), [inject] called with the
    table that lists each offset less the number of length-prefixed
    placeholders before it returns the program patched at the original
    offsets: the length law holds, every region reads back its value and
    every other byte is kept. *)
Theorem inject_engine_table (program : bytes) (ps : list spec) :
  placed (len program) 0 ps ->
  exists out,
    fst (inject (Args program (engine_table ps) (values_of ps) (kinds_of ps)))
    = Ok out
    /\ postcondition
         (Args program (map fst ps) (values_of ps) (kinds_of ps)) out.
Proof.
  intros Hp. exists (layout program 0 ps). split.
  - apply engine_table_layout. exact Hp.
  - apply layout_postcondition. exact Hp.
Qed.

End EngineTable.

(** A varint of two bytes at 1, a length-prefixed value at 3 and, after
    it, an address at 6: the table to pass is [[1; 3; 5]]. *)
Lemma inject_engine_table_witness :
  let program := map Z.of_nat (seq 100 40) in
  let ps := [(1, (PInt 300, TyInt));
             (3, (PStr "QUJDRA==", TyTag "base64"));
             (6, (PStr "ABCDEFGHIJKLMNOPQRSTUVWXYZabcdef", TyTag "address"))]
  in
  placed Demo.decode_address Demo.b64decode (len program) 0 ps
  /\ engine_table ps = [1; 3; 5]
  /\ exists out,
       fst (inject Demo.decode_address Demo.b64decode
              (Args program [1; 3; 5] (values_of ps) (kinds_of ps)))
       = Ok out
       /\ postcondition Demo.decode_address Demo.b64decode
            (Args program [1; 3; 6] (values_of ps) (kinds_of ps)) out.
Proof.
  intros program ps.
  assert (H : placed Demo.decode_address Demo.b64decode (len program) 0 ps).
  { cbn. repeat split; try lia; try reflexivity.
    - eexists; reflexivity.
    - exists 300. split; [reflexivity | lia].
    - eexists; reflexivity.
    - eexists; reflexivity. }
  split; [exact H |]. split; [reflexivity |].
  exact (inject_engine_table Demo.decode_address Demo.b64decode program ps H).
Defined.

(* ===================================================================== *)
(** * What [get_program] returns, class by class                           *)
(* ===================================================================== *)

Section Programs.

Variable decode_address : pyval -> option bytes.
Variable b64decode : pyval -> option bytes.
Variable b64encode : bytes -> string.

Local Abbreviation encoded := (encoded decode_address b64decode).
Local Abbreviation encoded_len := (encoded_len decode_address b64decode).
Local Abbreviation inject := (inject decode_address b64decode).
Local Abbreviation inject_run := (inject_run decode_address b64decode).
Local Abbreviation placed := (placed decode_address b64decode).
Local Abbreviation postcondition := (postcondition decode_address b64decode).
Local Abbreviation delta := (delta decode_address b64decode).
Local Abbreviation sum_delta := (sum_delta decode_address b64decode).
Local Abbreviation shift_before := (shift_before decode_address b64decode).
Local Abbreviation patched := (patched decode_address b64decode b64encode).
Local Abbreviation get_program :=
  (get_program decode_address b64decode b64encode).

(** A text that decodes to an address of 32 bytes. *)
Lemma address_encodes (v : pyval) (raw : bytes) :
  decode_address v = Some raw -> len raw = 32 ->
  (exists enc, encoded v (TyTag "address") = Ok enc)
  /\ encoded_len v (TyTag "address") = 32.
Proof.
  intros Hd Hl. unfold encoded_len. cbn [encoded String.eqb Ascii.eqb Bool.eqb].
  rewrite Hd. cbn [outside]. split; [exists raw; reflexivity | exact Hl].
Qed.

Lemma blob_encodes (v : pyval) (blob : bytes) :
  b64decode v = Some blob ->
  exists enc, encoded v (TyTag "base64") = Ok enc.
Proof.
  intros Hd. cbn [encoded String.eqb Ascii.eqb Bool.eqb].
  rewrite Hd. cbn [outside bind]. eexists. reflexivity.
Qed.

Lemma int_encodes (x : Z) : exists enc, encoded (PInt x) TyInt = Ok enc.
Proof. eexists. reflexivity. Qed.

(** The tail of [get_program] on a table that is the engine table of
    placed placeholders. *)
Lemma patched_engine_table (orig_text : string) (program : bytes)
      (ps : list spec) :
  b64decode (PStr orig_text) = Some program ->
  placed (len program) 0 ps ->
  exists out,
    patched orig_text (engine_table ps) (values_of ps) (kinds_of ps)
    = Ok (PStr (b64encode out))
    /\ postcondition
         (Args program (map fst ps) (values_of ps) (kinds_of ps)) out.
Proof.
  intros Hd Hp.
  exists (layout decode_address b64decode program 0 ps).
  split; [| apply layout_postcondition; exact Hp].
  unfold patched. rewrite Hd. cbn [outside bind].
  rewrite (engine_table_layout decode_address b64decode program ps Hp).
  reflexivity.
Qed.

(** X12.  [Split.get_program] is right: when the five integer fields are
    unsigned and the three addresses decode to 32 bytes, it returns the
    encoding of the original program with the placeholders at 4, 7, 8, 9,
    10, 14, 47 and 80 substituted, every other byte kept and the length
    grown by the extra bytes of the varints. *)
Theorem Split_get_program_patched (self : Split.t) (program : bytes)
        (owner receiver_1 receiver_2 : bytes) :
  b64decode (PStr Split_orig) = Some program ->
  112 <= len program ->
  0 <= Split.max_fee self -> 0 <= Split.expiry_round self ->
  0 <= Split.ratn self -> 0 <= Split.ratd self -> 0 <= Split.min_pay self ->
  decode_address (PStr (Split.owner self)) = Some owner ->
  decode_address (PStr (Split.receiver_1 self)) = Some receiver_1 ->
  decode_address (PStr (Split.receiver_2 self)) = Some receiver_2 ->
  len owner = 32 -> len receiver_1 = 32 -> len receiver_2 = 32 ->
  exists out,
    fst (get_program (OfSplit self)) = Ok (PStr (b64encode out))
    /\ postcondition
         (Args program [4; 7; 8; 9; 10; 14; 47; 80]
               (values_of (Split_placeholders self))
               (kinds_of (Split_placeholders self)))
         out.
Proof.
  intros Hd HL H1 H2 H3 H4 H5 Ho Hr1 Hr2 Lo L1 L2.
  apply (patched_engine_table Split_orig program (Split_placeholders self) Hd).
  destruct (address_encodes _ _ Ho Lo) as [Eo Eo'].
  destruct (address_encodes _ _ Hr1 L1) as [E1 E1'].
  destruct (address_encodes _ _ Hr2 L2) as [E2 E2'].
  cbn [placed Split_placeholders reserved String.eqb Ascii.eqb Bool.eqb].
  repeat (split; [first [ lia | apply int_encodes | assumption
                        | eexists; split; [reflexivity | assumption] ] |]).
  lia.
Qed.

(** X13.  [HTLC.get_program] is right for the layout of its program: the
    table lists 44 and 101 for the owner and the hash opcode, which sit
    at 45 and 102, and the unit of shift the engine adds after the
    length-prefixed hash image makes up for it.  When the two integer
    fields are unsigned, the two addresses decode to 32 bytes and the
    hash image decodes, the result is the original program with the
    placeholders at 3, 6, 10, 42, 45 and 102 substituted and every other
    byte kept. *)
Theorem HTLC_get_program_patched (self : HTLC.t) (program : bytes)
        (receiver owner hash_image : bytes) :
  b64decode (PStr HTLC_orig) = Some program ->
  103 <= len program ->
  0 <= HTLC.max_fee self -> 0 <= HTLC.expiry_round self ->
  decode_address (PStr (HTLC.receiver self)) = Some receiver ->
  decode_address (PStr (HTLC.owner self)) = Some owner ->
  len receiver = 32 -> len owner = 32 ->
  b64decode (PStr (HTLC.hash_image self)) = Some hash_image ->
  exists out,
    fst (get_program (OfHTLC self)) = Ok (PStr (b64encode out))
    /\ postcondition
         (Args program [3; 6; 10; 42; 45; 102]
               (values_of (HTLC_placeholders self))
               (kinds_of (HTLC_placeholders self)))
         out.
Proof.
  intros Hd HL H1 H2 Hr Ho Lr Lo Hh.
  apply (patched_engine_table HTLC_orig program (HTLC_placeholders self) Hd).
  destruct (address_encodes _ _ Hr Lr) as [Er Er'].
  destruct (address_encodes _ _ Ho Lo) as [Eo Eo'].
  pose proof (blob_encodes _ _ Hh) as Eh.
  assert (H3 : 0 <= HTLC_hash_inject self).
  { unfold HTLC_hash_inject.
    destruct (String.eqb _ "sha256"); [lia |].
    destruct (String.eqb _ "keccak256"); lia. }
  cbn [placed HTLC_placeholders reserved String.eqb Ascii.eqb Bool.eqb].
  repeat (split; [first [ lia | apply int_encodes | assumption | exact I
                        | eexists; split; [reflexivity | assumption] ] |]).
  lia.
Qed.

(** X14.  [DynamicFee.get_program] is right when [last_valid] was given:
    with unsigned integers, addresses of 32 bytes and a lease that
    decodes, the result is the original program with the placeholders at
    5, 6, 7, 11, 44 and 76 substituted and every other byte kept. *)
Theorem DynamicFee_get_program_patched (self : DynamicFee.t)
        (program : bytes) (last_valid : Z)
        (receiver close_remainder_address lease : bytes) :
  b64decode (PStr DynamicFee_orig) = Some program ->
  78 <= len program ->
  DynamicFee.last_valid self = PInt last_valid ->
  0 <= DynamicFee.amount self -> 0 <= DynamicFee.first_valid self ->
  0 <= last_valid ->
  decode_address (PStr (DynamicFee.receiver self)) = Some receiver ->
  decode_address (DynamicFee.close_remainder_address self)
  = Some close_remainder_address ->
  len receiver = 32 -> len close_remainder_address = 32 ->
  b64decode (PStr (DynamicFee.lease_value self)) = Some lease ->
  exists out,
    fst (get_program (OfDynamicFee self)) = Ok (PStr (b64encode out))
    /\ postcondition
         (Args program [5; 6; 7; 11; 44; 76]
               (values_of (DynamicFee_placeholders self))
               (kinds_of (DynamicFee_placeholders self)))
         out.
Proof.
  intros Hd HL Hlv H1 H2 H3 Hr Hc Lr Lc Hl.
  apply (patched_engine_table DynamicFee_orig program
           (DynamicFee_placeholders self) Hd).
  destruct (address_encodes _ _ Hr Lr) as [Er Er'].
  destruct (address_encodes _ _ Hc Lc) as [Ec Ec'].
  pose proof (blob_encodes _ _ Hl) as El.
  cbn [placed DynamicFee_placeholders reserved String.eqb Ascii.eqb Bool.eqb].
  rewrite Hlv.
  repeat (split; [first [ lia | apply int_encodes | assumption | exact I
                        | eexists; split; [reflexivity | assumption] ] |]).
  lia.
Qed.

(** X15.  [PeriodicPayment.get_program] substitutes at 4, 5, 7, 8, 9, 12
    and 46: the table lists 45 for the receiver, which sits at 46, after
    the two bytes replaced by the length-prefixed lease.  With unsigned
    integers, a receiver of 32 bytes and a lease that [b64decode]
    accepts, every byte outside these placeholders is kept; the 31 bytes
    at 14..44 of the original program follow the new lease in the
    result. *)
Theorem PeriodicPayment_get_program_patched (self : PeriodicPayment.t)
        (program receiver lease : bytes) :
  b64decode (PStr PeriodicPayment_orig) = Some program ->
  78 <= len program ->
  0 <= PeriodicPayment.fee self -> 0 <= PeriodicPayment.period self ->
  0 <= PeriodicPayment.withdrawing_window self ->
  0 <= PeriodicPayment.amount self -> 0 <= PeriodicPayment.timeout self ->
  b64decode (PBytes (PeriodicPayment.lease_value self)) = Some lease ->
  decode_address (PStr (PeriodicPayment.receiver self)) = Some receiver ->
  len receiver = 32 ->
  exists out,
    fst (get_program (OfPeriodicPayment self)) = Ok (PStr (b64encode out))
    /\ postcondition
         (Args program [4; 5; 7; 8; 9; 12; 46]
               (values_of (PeriodicPayment_placeholders self))
               (kinds_of (PeriodicPayment_placeholders self)))
         out
    /\ (forall k,
          14 <= k < 46 ->
          nth_error out (Z.to_nat (k + (len out - len program)))
          = nth_error program (Z.to_nat k)).
Proof.
  intros Hd HL H1 H2 H3 H4 H5 Hl Hr Lr.
  destruct (address_encodes _ _ Hr Lr) as [Er Er'].
  pose proof (blob_encodes _ _ Hl) as El.
  destruct (patched_engine_table PeriodicPayment_orig program
              (PeriodicPayment_placeholders self) Hd) as (out & Hout & Hpost).
  { cbn [placed PeriodicPayment_placeholders reserved
         String.eqb Ascii.eqb Bool.eqb].
    repeat (split; [first [ lia | apply int_encodes | assumption | exact I
                          | eexists; split; [reflexivity | assumption] ] |]).
    lia. }
  exists out. split; [exact Hout |]. split; [exact Hpost |].
  destruct Hpost as (Hlen & _ & Hkeep).
  intros k Hk.
  unfold specs_of in Hlen, Hkeep.
  cbn [orig offsets values values_types] in Hlen, Hkeep.
  rewrite combine_values_kinds in Hlen.
  setoid_rewrite combine_values_kinds in Hkeep.
  assert (Hshift : shift_before k (PeriodicPayment_placeholders self)
                   = sum_delta (PeriodicPayment_placeholders self)).
  { unfold PeriodicPayment_placeholders.
    rewrite !shift_before_cons.
    rewrite (proj2 (Z.ltb_lt 4 k)), (proj2 (Z.ltb_lt 5 k)),
            (proj2 (Z.ltb_lt 7 k)), (proj2 (Z.ltb_lt 8 k)),
            (proj2 (Z.ltb_lt 9 k)), (proj2 (Z.ltb_lt 12 k)),
            (proj2 (Z.ltb_ge 46 k)) by lia.
    unfold shift_before, sum_delta. cbn [fold_right filter fst snd].
    assert (Hz : delta (PStr (PeriodicPayment.receiver self))
                       (TyTag "address") = 0).
    { unfold delta. rewrite Er'. reflexivity. }
    rewrite Hz. lia. }
  rewrite <- (Hkeep k).
  - rewrite Hshift. f_equal. f_equal. lia.
  - lia.
  - apply Bool.not_true_is_false. unfold in_region.
    rewrite existsb_exists. intros (p & Hin & Hc).
    apply andb_prop in Hc. destruct Hc as [Ha Hb].
    apply Z.leb_le in Ha. apply Z.ltb_lt in Hb.
    cbn [PeriodicPayment_placeholders In] in Hin.
    repeat (destruct Hin as [<- | Hin];
            [cbn [fst snd reserved String.eqb Ascii.eqb Bool.eqb] in Ha, Hb;
             lia |]).
    exact Hin.
Qed.

(** A program text returned by [patched] is a [str]. *)
Lemma patched_returns_str orig_text offs vals tys (p : pyval) :
  patched orig_text offs vals tys = Ok p -> exists s, p = PStr s.
Proof.
  unfold patched. intros H.
  destruct (outside _ _) as [o |]; [| discriminate]. cbn [bind] in H.
  destruct (fst _) as [res |]; [| discriminate]. cbn [bind] in H.
  injection H as <-. eexists. reflexivity.
Qed.

(** A [DynamicFee] object whose [last_valid] is [None] has no program:
    once the program text is decoded, [inject] raises [TypeError] at the
    third placeholder. *)
Lemma DynamicFee_last_valid_None (self : DynamicFee.t) :
  DynamicFee.last_valid self = PNone ->
  (forall p, fst (get_program (OfDynamicFee self)) <> Ok p)
  /\ (forall program,
         b64decode (PStr DynamicFee_orig) = Some program ->
         fst (get_program (OfDynamicFee self)) = Raise TypeError).
Proof.
  intros Hlv.
  assert (H : forall program,
             b64decode (PStr DynamicFee_orig) = Some program ->
             fst (get_program (OfDynamicFee self)) = Raise TypeError).
  { intros program Hd. cbn [get_program fst].
    unfold DynamicFee_get_program, patched.
    rewrite Hd, Hlv. cbn [outside bind].
    rewrite inject_as_run by reflexivity.
    cbn [specs_of orig offsets values values_types combine inject_run].
    destruct (int_encodes (DynamicFee.amount self)) as [e1 ->].
    destruct (int_encodes (DynamicFee.first_valid self)) as [e2 ->].
    reflexivity. }
  split; [| exact H].
  intros p Hp. cbn [get_program fst] in Hp.
  unfold DynamicFee_get_program, patched in Hp.
  destruct (b64decode (PStr DynamicFee_orig)) as [program |] eqn:Hd;
    [| discriminate Hp].
  specialize (H program eq_refl). cbn [get_program fst] in H.
  unfold DynamicFee_get_program, patched in H. rewrite Hd in H.
  rewrite H in Hp. discriminate Hp.
Qed.


(** X16.  [sign_dynamic_fee] never signs: it adds the [str] returned by
    [get_program] to the [bytes] prefix, so it raises [TypeError] whenever
    [get_program] returns, raises what [get_program] raises otherwise,
    and the [signature] attribute stays as it was. *)
Theorem sign_dynamic_fee_never_signs
        (logic_prefix : bytes) (key_len_bytes : Z) (SigningKey_t : Type)
        (SigningKey : bytes -> option SigningKey_t)
        (sign : SigningKey_t -> bytes -> option bytes)
        (self : DynamicFee.t) (signature : option string)
        (private_key : pyval) :
  let call := sign_dynamic_fee decode_address b64decode b64encode
                logic_prefix key_len_bytes SigningKey sign
                self signature private_key in
  (forall s, fst call <> Ok s)
  /\ snd call = signature
  /\ (forall p, fst (get_program (OfDynamicFee self)) = Ok p ->
                fst call = Raise TypeError)
  /\ (forall e, fst (get_program (OfDynamicFee self)) = Raise e ->
                fst call = Raise e).
Proof.
  cbv zeta. unfold sign_dynamic_fee.
  destruct (fst (get_program (OfDynamicFee self))) as [p | e] eqn:Hp.
  - cbn [get_program fst] in Hp. unfold DynamicFee_get_program in Hp.
    destruct (patched_returns_str _ _ _ _ _ Hp) as [s ->].
    cbn [bind bytes_add fst snd].
    split; [intros s' H; discriminate H |].
    split; [reflexivity |].
    split; [intros _ _; reflexivity | intros e H; discriminate H].
  - cbn [bind fst snd].
    split; [intros s' H; discriminate H |].
    split; [reflexivity |].
    split; [intros p H; discriminate H |].
    intros e' H. injection H as <-. reflexivity.
Qed.

End Programs.

(* ===================================================================== *)
(** * The constructors that draw a lease                                   *)
(* ===================================================================== *)

Section Constructors.

Variable decode_address : pyval -> option bytes.
Variable b64decode : pyval -> option bytes.
Variable b64encode : bytes -> string.
Variable lease_length : nat.
Variable rng : Type.
Variable randint : rng -> Z -> Z -> Z * rng.

Local Abbreviation get_program :=
  (get_program decode_address b64decode b64encode).

Lemma randints_length (n : nat) :
  forall g, List.length (fst (randints randint n g)) = n.
Proof.
  induction n as [| n IH]; intros g; cbn [randints]; [reflexivity |].
  destruct (randint g 0 255) as [b g1].
  specialize (IH g1). destruct (randints randint n g1) as [bs g2].
  cbn [fst List.length] in *. rewrite IH. reflexivity.
Qed.

Lemma randints_bytes (n : nat) :
  (forall g, 0 <= fst (randint g 0 255) <= 255) ->
  forall g, forallb is_byte (fst (randints randint n g)) = true.
Proof.
  intros Hrange. induction n as [| n IH]; intros g; cbn [randints];
    [reflexivity |].
  pose proof (Hrange g) as Hb.
  destruct (randint g 0 255) as [b g1].
  specialize (IH g1). destruct (randints randint n g1) as [bs g2].
  cbn [fst forallb] in *. rewrite IH, Bool.andb_true_r.
  unfold is_byte. apply andb_true_intro.
  split; [apply Z.leb_le | apply Z.ltb_lt]; lia.
Qed.

(** X17.  [PeriodicPayment.__init__] with a generator that keeps
    [randint(0, 255)] within its bounds: the object is built, its lease
    has [lease_length] bytes, and the generator is left where
    [lease_length] draws take it. *)
Theorem PeriodicPayment_init_lease (g : rng) (receiver : string)
        (amount withdrawing_window period fee timeout : Z) :
  (forall g, 0 <= fst (randint g 0 255) <= 255) ->
  exists lease,
    PeriodicPayment_init lease_length randint g receiver amount
                         withdrawing_window period fee timeout
    = (Ok (PeriodicPayment.Make lease receiver amount withdrawing_window
                                period fee timeout),
       snd (randints randint lease_length g))
    /\ lease = fst (randints randint lease_length g)
    /\ List.length lease = lease_length
    /\ bytes_of_ints lease = Ok lease.
Proof.
  intros Hrange.
  exists (fst (randints randint lease_length g)).
  pose proof (randints_bytes lease_length Hrange g) as Hb.
  pose proof (randints_length lease_length g) as Hl.
  unfold PeriodicPayment_init.
  destruct (randints randint lease_length g) as [draws g'].
  cbn [fst snd] in *. unfold bytes_of_ints. rewrite Hb. cbn [bind].
  split; [reflexivity |]. split; [reflexivity |].
  split; [exact Hl | reflexivity].
Qed.

(** X18.  [DynamicFee.__init__] called without [last_valid] builds an
    object whose [last_valid] is [None] (the default [first_valid + 1000]
    goes to the local name, after the attribute was set), and that object
    has no program: [get_program] never returns, and once the program
    text is decoded it raises [TypeError] at the third placeholder. *)
Theorem DynamicFee_default_last_valid (g g' : rng) (receiver : string)
        (amount first_valid : Z) (close_remainder_address : pyval)
        (self : DynamicFee.t) :
  DynamicFee_init b64encode lease_length randint g receiver amount
                  first_valid PNone close_remainder_address
  = (Ok self, g') ->
  DynamicFee.last_valid self = PNone
  /\ (forall p, fst (get_program (OfDynamicFee self)) <> Ok p)
  /\ (forall program,
         b64decode (PStr DynamicFee_orig) = Some program ->
         fst (get_program (OfDynamicFee self)) = Raise TypeError).
Proof.
  unfold DynamicFee_init.
  destruct (randints randint lease_length g) as [draws g1].
  destruct (bytes_of_ints draws) as [lease | e]; cbn [bind];
    intros H; [| discriminate H].
  injection H as <- _.
  split; [reflexivity |].
  apply DynamicFee_last_valid_None. reflexivity.
Qed.

End Constructors.

(* ===================================================================== *)
(** * The statements above, at sample objects                              *)
(* ===================================================================== *)

(** The four program theorems are applied to the decoded program text
    and the decoded fields of a sample object. *)
Ltac decoded o :=
  let r := eval vm_compute in o in
  match r with Some ?b => b end.

Lemma Split_get_program_patched_witness :
  exists program out,
    Demo.b64decode (PStr Split_orig) = Some program
    /\ fst (get_program Demo.decode_address Demo.b64decode Demo.b64encode
              (OfSplit Demo.split_30_100))
       = Ok (PStr (Demo.b64encode out))
    /\ postcondition Demo.decode_address Demo.b64decode
         (Args program [4; 7; 8; 9; 10; 14; 47; 80]
               (values_of (Split_placeholders Demo.split_30_100))
               (kinds_of (Split_placeholders Demo.split_30_100)))
         out.
Proof.
  let program := decoded (Demo.b64decode (PStr Split_orig)) in
  let owner := decoded (Demo.decode_address
                          (PStr (Split.owner Demo.split_30_100))) in
  let r1 := decoded (Demo.decode_address
                       (PStr (Split.receiver_1 Demo.split_30_100))) in
  let r2 := decoded (Demo.decode_address
                       (PStr (Split.receiver_2 Demo.split_30_100))) in
  exists program;
  destruct (Split_get_program_patched
              Demo.decode_address Demo.b64decode Demo.b64encode
              Demo.split_30_100 program owner r1 r2)
    as (out & Hout & Hpost);
  [vm_compute; reflexivity | vm_compute; discriminate
  | vm_compute; discriminate | vm_compute; discriminate
  | vm_compute; discriminate | vm_compute; discriminate
  | vm_compute; discriminate
  | vm_compute; reflexivity | vm_compute; reflexivity
  | vm_compute; reflexivity
  | vm_compute; reflexivity | vm_compute; reflexivity
  | vm_compute; reflexivity
  | exists out; split; [vm_compute; reflexivity | split; assumption]].
Defined.

Lemma HTLC_get_program_patched_witness :
  exists program out,
    Demo.b64decode (PStr HTLC_orig) = Some program
    /\ fst (get_program Demo.decode_address Demo.b64decode Demo.b64encode
              (OfHTLC Sample.htlc))
       = Ok (PStr (Demo.b64encode out))
    /\ postcondition Demo.decode_address Demo.b64decode
         (Args program [3; 6; 10; 42; 45; 102]
               (values_of (HTLC_placeholders Sample.htlc))
               (kinds_of (HTLC_placeholders Sample.htlc)))
         out.
Proof.
  let program := decoded (Demo.b64decode (PStr HTLC_orig)) in
  let receiver := decoded (Demo.decode_address
                             (PStr (HTLC.receiver Sample.htlc))) in
  let owner := decoded (Demo.decode_address
                          (PStr (HTLC.owner Sample.htlc))) in
  let image := decoded (Demo.b64decode
                          (PStr (HTLC.hash_image Sample.htlc))) in
  exists program;
  destruct (HTLC_get_program_patched
              Demo.decode_address Demo.b64decode Demo.b64encode
              Sample.htlc program receiver owner image)
    as (out & Hout & Hpost);
  [vm_compute; reflexivity | vm_compute; discriminate
  | vm_compute; discriminate | vm_compute; discriminate
  | vm_compute; reflexivity | vm_compute; reflexivity
  | vm_compute; reflexivity | vm_compute; reflexivity
  | vm_compute; reflexivity
  | exists out; split; [vm_compute; reflexivity | split; assumption]].
Defined.

Lemma DynamicFee_get_program_patched_witness :
  exists program out,
    Demo.b64decode (PStr DynamicFee_orig) = Some program
    /\ fst (get_program Demo.decode_address Demo.b64decode Demo.b64encode
              (OfDynamicFee Sample.dynamic_fee))
       = Ok (PStr (Demo.b64encode out))
    /\ postcondition Demo.decode_address Demo.b64decode
         (Args program [5; 6; 7; 11; 44; 76]
               (values_of (DynamicFee_placeholders Sample.dynamic_fee))
               (kinds_of (DynamicFee_placeholders Sample.dynamic_fee)))
         out.
Proof.
  let program := decoded (Demo.b64decode (PStr DynamicFee_orig)) in
  let receiver := decoded (Demo.decode_address
                             (PStr (DynamicFee.receiver
                                      Sample.dynamic_fee))) in
  let close := decoded (Demo.decode_address
                          (DynamicFee.close_remainder_address
                             Sample.dynamic_fee)) in
  let lease := decoded (Demo.b64decode
                          (PStr (DynamicFee.lease_value
                                   Sample.dynamic_fee))) in
  exists program;
  destruct (DynamicFee_get_program_patched
              Demo.decode_address Demo.b64decode Demo.b64encode
              Sample.dynamic_fee program 1234567 receiver close lease)
    as (out & Hout & Hpost);
  [vm_compute; reflexivity | vm_compute; discriminate
  | reflexivity
  | vm_compute; discriminate | vm_compute; discriminate
  | vm_compute; discriminate
  | vm_compute; reflexivity | vm_compute; reflexivity
  | vm_compute; reflexivity | vm_compute; reflexivity
  | vm_compute; reflexivity
  | exists out; split; [vm_compute; reflexivity | split; assumption]].
Defined.

Lemma PeriodicPayment_get_program_patched_witness :
  exists program out,
    Demo.b64decode (PStr PeriodicPayment_orig) = Some program
    /\ fst (get_program Demo.decode_address Demo.b64decode Demo.b64encode
              (OfPeriodicPayment Sample.periodic_payment))
       = Ok (PStr (Demo.b64encode out))
    /\ postcondition Demo.decode_address Demo.b64decode
         (Args program [4; 5; 7; 8; 9; 12; 46]
               (values_of (PeriodicPayment_placeholders
                             Sample.periodic_payment))
               (kinds_of (PeriodicPayment_placeholders
                            Sample.periodic_payment)))
         out
    /\ (forall k,
          14 <= k < 46 ->
          nth_error out (Z.to_nat (k + (len out - len program)))
          = nth_error program (Z.to_nat k)).
Proof.
  let program := decoded (Demo.b64decode (PStr PeriodicPayment_orig)) in
  let receiver := decoded (Demo.decode_address
                             (PStr (PeriodicPayment.receiver
                                      Sample.periodic_payment))) in
  let lease := decoded (Demo.b64decode
                          (PBytes (PeriodicPayment.lease_value
                                     Sample.periodic_payment))) in
  exists program;
  destruct (PeriodicPayment_get_program_patched
              Demo.decode_address Demo.b64decode Demo.b64encode
              Sample.periodic_payment program receiver lease)
    as (out & Hout & Hpost & Hkept);
  [vm_compute; reflexivity | vm_compute; discriminate
  | vm_compute; discriminate | vm_compute; discriminate
  | vm_compute; discriminate | vm_compute; discriminate
  | vm_compute; discriminate
  | vm_compute; reflexivity | vm_compute; reflexivity
  | vm_compute; reflexivity
  | exists out; split; [vm_compute; reflexivity |];
    split; [exact Hout | split; [exact Hpost | exact Hkept]]].
Defined.

(** The sample object has a program, so the call raises [TypeError]. *)
Lemma sign_dynamic_fee_never_signs_witness :
  (exists p,
      fst (get_program Demo.decode_address Demo.b64decode Demo.b64encode
             (OfDynamicFee Sample.dynamic_fee)) = Ok p)
  /\ sign_dynamic_fee Demo.decode_address Demo.b64decode Demo.b64encode
       Demo.logic_prefix 32 Sample.SigningKey Sample.sign
       Sample.dynamic_fee None
       (PStr "AAECAwQFBgcICQoLDA0ODxAREhMUFRYXGBkaGxwdHh8=")
     = (Raise TypeError, None).
Proof.
  let r := eval vm_compute in
        (fst (get_program Demo.decode_address Demo.b64decode Demo.b64encode
                (OfDynamicFee Sample.dynamic_fee))) in
  match r with
  | Ok ?p =>
      assert (Hp : fst (get_program Demo.decode_address Demo.b64decode
                          Demo.b64encode (OfDynamicFee Sample.dynamic_fee))
                   = Ok p) by (vm_compute; reflexivity);
      split; [exists p; exact Hp |];
      destruct (sign_dynamic_fee_never_signs
                  Demo.decode_address Demo.b64decode Demo.b64encode
                  Demo.logic_prefix 32 _ Sample.SigningKey Sample.sign
                  Sample.dynamic_fee None
                  (PStr "AAECAwQFBgcICQoLDA0ODxAREhMUFRYXGBkaGxwdHh8="))
        as (_ & Hsig & Hraise & _);
      specialize (Hraise p Hp);
      apply injective_projections; [exact Hraise | exact Hsig]
  end.
Defined.

Lemma PeriodicPayment_init_lease_witness :
  (forall g, 0 <= fst (Sample.randint g 0 255) <= 255)
  /\ exists lease,
      PeriodicPayment_init 32 Sample.randint 2024
        "FIRST-FIRST-FIRST-FIRST-FIRST-FI" 500 95 100 1000 2000000
      = (Ok (PeriodicPayment.Make lease "FIRST-FIRST-FIRST-FIRST-FIRST-FI"
                                  500 95 100 1000 2000000),
         snd (randints Sample.randint 32 2024))
      /\ lease = fst (randints Sample.randint 32 2024)
      /\ List.length lease = 32%nat
      /\ bytes_of_ints lease = Ok lease.
Proof.
  assert (H : forall g, 0 <= fst (Sample.randint g 0 255) <= 255).
  { intros g. unfold Sample.randint. cbn [fst].
    pose proof (Z.mod_pos_bound g (255 - 0 + 1)). lia. }
  split; [exact H |].
  apply (PeriodicPayment_init_lease 32 Z Sample.randint 2024
           "FIRST-FIRST-FIRST-FIRST-FIRST-FI" 500 95 100 1000 2000000 H).
Defined.

Lemma DynamicFee_default_last_valid_witness :
  exists self g',
    DynamicFee_init Demo.b64encode 32 Sample.randint 2024
      "FIRST-FIRST-FIRST-FIRST-FIRST-FI" 5000 1233567 PNone PNone
    = (Ok self, g')
    /\ DynamicFee.last_valid self = PNone
    /\ fst (get_program Demo.decode_address Demo.b64decode Demo.b64encode
              (OfDynamicFee self)) = Raise TypeError.
Proof.
  let r := eval vm_compute in
        (DynamicFee_init Demo.b64encode 32 Sample.randint 2024
           "FIRST-FIRST-FIRST-FIRST-FIRST-FI" 5000 1233567 PNone PNone) in
  match r with
  | (Ok ?self, ?g') =>
      exists self, g';
      assert (Hinit : DynamicFee_init Demo.b64encode 32 Sample.randint 2024
                        "FIRST-FIRST-FIRST-FIRST-FIRST-FI" 5000 1233567
                        PNone PNone = (Ok self, g'))
        by (vm_compute; reflexivity);
      split; [exact Hinit |];
      destruct (DynamicFee_default_last_valid
                  Demo.decode_address Demo.b64decode Demo.b64encode
                  32 Z Sample.randint 2024 g'
                  "FIRST-FIRST-FIRST-FIRST-FIRST-FI" 5000 1233567 PNone
                  self Hinit) as (Hnone & _ & Hraise);
      split; [exact Hnone |];
      let program := decoded (Demo.b64decode (PStr DynamicFee_orig)) in
      apply (Hraise program); vm_compute; reflexivity
  end.
Defined.

(* ===================================================================== *)
(** * The amounts of [Split.get_send_funds_transaction]                    *)
(* ===================================================================== *)

(** A ratio reduced by its gcd is in lowest terms. *)
Lemma reduced_coprime (n d : Z) :
  d <> 0 ->
  let g := Z.gcd n d in
  0 < g /\ n = n / g * g /\ d = d / g * g /\ Z.gcd (n / g) (d / g) = 1.
Proof.
  intros Hd g.
  assert (Hg : 0 < g).
  { pose proof (Z.gcd_nonneg n d) as Hn. fold g in Hn.
    assert (g <> 0) by (intros H0; apply Z.gcd_eq_0_r in H0; contradiction).
    lia. }
  destruct (Z.gcd_divide_l n d) as [qn Hn].
  destruct (Z.gcd_divide_r n d) as [qd Hq]. fold g in Hn, Hq.
  assert (Hqn : n / g = qn) by (rewrite Hn at 1; apply Z.div_mul; lia).
  assert (Hqd : d / g = qd) by (rewrite Hq at 1; apply Z.div_mul; lia).
  rewrite Hqn, Hqd.
  split; [exact Hg |]. split; [exact Hn |]. split; [exact Hq |].
  assert (Hmul : Z.gcd (qn * g) (qd * g) = g) by (rewrite <- Hn, <- Hq; reflexivity).
  rewrite Z.gcd_mul_mono_r_nonneg in Hmul by lia.
  nia.
Qed.

(** The amount is a multiple of the reduced denominator exactly when the
    share [amount * ratn / ratd] is an integer. *)
Lemma reduced_divides (n d amount : Z) :
  d <> 0 ->
  amount mod (d / Z.gcd n d) = 0 <-> (d | amount * n).
Proof.
  intros Hd.
  destruct (reduced_coprime n d Hd) as (Hg & Hn & Hq & Hco).
  cbv zeta in *.
  set (g := Z.gcd n d) in *. set (n' := n / g) in *. set (d' := d / g) in *.
  assert (Hd' : d' <> 0) by (intros H0; rewrite H0 in Hq; lia).
  rewrite Z.mod_divide by exact Hd'.
  clearbody g n' d'.
  split.
  - intros [q Hq']. exists (q * n'). rewrite Hq', Hn, Hq. ring.
  - intros [q Hq'].
    assert (Hdiv : (d' | n' * amount)).
    { exists q. apply (Z.mul_reg_r _ _ g); [lia |].
      transitivity (amount * n); [rewrite Hn; ring |].
      rewrite Hq', Hq. ring. }
    apply (Z.gauss d' n' amount Hdiv).
    rewrite Z.gcd_comm. exact Hco.
Qed.

(** X19.  Exact mode, for a denominator that is not zero: the amounts are
    computed exactly when the share [amount * ratn / ratd] is an integer;
    the first amount is then that share, and the second is the whole
    [amount], not the rest. *)
Theorem split_exact_iff (self : Split.t) (amount : Z) :
  Split.ratd self <> 0 ->
  ((exists amt_1 amt_2, split_amounts self amount true = Ok (amt_1, amt_2))
   <-> (Split.ratd self | amount * Split.ratn self))
  /\ (forall amt_1 amt_2,
         split_amounts self amount true = Ok (amt_1, amt_2) ->
         amt_1 * Split.ratd self = amount * Split.ratn self
         /\ amt_2 = amount).
Proof.
  intros Hd.
  destruct (split_amounts_reduced self amount true Hd) as [Hr Hs].
  cbv zeta in Hr, Hs.
  pose proof (reduced_divides (Split.ratn self) (Split.ratd self) amount Hd)
    as Hiff.
  destruct (reduced_coprime (Split.ratn self) (Split.ratd self) Hd)
    as (Hg & Hn & Hq & _).
  cbv zeta in *.
  set (g := Z.gcd (Split.ratn self) (Split.ratd self)) in *.
  set (n' := Split.ratn self / g) in *.
  set (d' := Split.ratd self / g) in *.
  destruct (Z.eqb_spec (amount mod d') 0) as [Hm | Hm].
  - split.
    + split; [intros _; apply Hiff; exact Hm |].
      intros _. eexists. eexists. exact Hs.
    + intros amt_1 amt_2 H. rewrite Hs in H. injection H as <- <-.
      split; [| lia].
      assert (Ha : amount = amount / d' * d').
      { rewrite Z.mul_comm. apply Z.div_exact; assumption. }
      set (q := amount / d') in *.
      transitivity (q * n' * (d' * g)); [f_equal; exact Hq |].
      transitivity (q * d' * (n' * g)); [ring |].
      rewrite <- Ha. f_equal. symmetry. exact Hn.
  - split.
    + split.
      * intros (amt_1 & amt_2 & H). rewrite Hs in H. discriminate H.
      * intros H. apply Hiff in H. contradiction.
    + intros amt_1 amt_2 H. rewrite Hs in H. discriminate H.
Qed.

Lemma split_exact_iff_witness :
  Split.ratd Demo.split_30_100 <> 0
  /\ (Split.ratd Demo.split_30_100 | 250 * Split.ratn Demo.split_30_100)
  /\ split_amounts Demo.split_30_100 250 true = Ok (75, 250)
  /\ 75 * Split.ratd Demo.split_30_100 = 250 * Split.ratn Demo.split_30_100.
Proof.
  assert (Hd : Split.ratd Demo.split_30_100 <> 0) by discriminate.
  assert (Hs : split_amounts Demo.split_30_100 250 true = Ok (75, 250))
    by (vm_compute; reflexivity).
  destruct (split_exact_iff Demo.split_30_100 250 Hd) as [Hiff Hval].
  split; [exact Hd |].
  split; [apply Hiff; exists 75, 250; exact Hs |].
  split; [exact Hs |].
  exact (proj1 (Hval 75 250 Hs)).
Defined.

(** Two fractions in lowest terms with positive denominators are equal
    only if they have the same numerator and the same denominator. *)
Lemma lowest_terms_unique (a1 b1 a2 b2 : Z) :
  0 < b1 -> 0 < b2 ->
  Z.gcd a1 b1 = 1 -> Z.gcd a2 b2 = 1 ->
  a1 * b2 = a2 * b1 ->
  a1 = a2 /\ b1 = b2.
Proof.
  intros H1 H2 G1 G2 Heq.
  assert (D12 : (b1 | b2)).
  { apply (Z.gauss b1 a1 b2).
    - exists a2. exact Heq.
    - rewrite Z.gcd_comm. exact G1. }
  assert (D21 : (b2 | b1)).
  { apply (Z.gauss b2 a2 b1).
    - exists a1. symmetry. exact Heq.
    - rewrite Z.gcd_comm. exact G2. }
  assert (Hb : b1 = b2) by (apply Z.divide_antisym_nonneg; lia || assumption).
  split; [| exact Hb].
  subst b2. apply (Z.mul_reg_r _ _ b1); [lia | exact Heq].
Qed.

(** X20.  The amounts depend on the ratio only as a fraction: two [Split]
    objects with positive denominators and [ratn / ratd] equal as
    fractions give the same outcome for every amount and mode. *)
Theorem split_ratio_invariant (self other : Split.t) (amount : Z)
        (precise : bool) :
  0 < Split.ratd self -> 0 < Split.ratd other ->
  Split.ratn self * Split.ratd other = Split.ratn other * Split.ratd self ->
  split_amounts self amount precise = split_amounts other amount precise.
Proof.
  intros H1 H2 Heq.
  assert (Hd1 : Split.ratd self <> 0) by lia.
  assert (Hd2 : Split.ratd other <> 0) by lia.
  destruct (split_amounts_reduced self amount precise Hd1) as [_ Hs1].
  destruct (split_amounts_reduced other amount precise Hd2) as [_ Hs2].
  destruct (reduced_coprime (Split.ratn self) (Split.ratd self) Hd1)
    as (Hg1 & Hn1 & Hq1 & Hc1).
  destruct (reduced_coprime (Split.ratn other) (Split.ratd other) Hd2)
    as (Hg2 & Hn2 & Hq2 & Hc2).
  cbv zeta in *.
  set (g1 := Z.gcd (Split.ratn self) (Split.ratd self)) in *.
  set (g2 := Z.gcd (Split.ratn other) (Split.ratd other)) in *.
  set (n1 := Split.ratn self / g1) in *.
  set (d1 := Split.ratd self / g1) in *.
  set (n2 := Split.ratn other / g2) in *.
  set (d2 := Split.ratd other / g2) in *.
  assert (Hsame : n1 = n2 /\ d1 = d2).
  { apply lowest_terms_unique; try assumption.
    - nia.
    - nia.
    - apply (Z.mul_reg_r _ _ (g1 * g2)); [nia |].
      transitivity (n1 * g1 * (d2 * g2)); [ring |].
      rewrite <- Hn1, <- Hq2, Heq, Hn2, Hq1. ring. }
  destruct Hsame as [Hn Hd].
  rewrite Hs1, Hs2, Hn, Hd. reflexivity.
Qed.

Lemma split_ratio_invariant_witness :
  split_amounts Demo.split_30_100 101 false
  = split_amounts (Split.Make "" "" "" 21 70 0 0 0) 101 false.
Proof.
  apply (split_ratio_invariant Demo.split_30_100
           (Split.Make "" "" "" 21 70 0 0 0) 101 false);
    vm_compute; reflexivity.
Defined.

(* ===================================================================== *)
(** * The errors of [Split.get_send_funds_transaction]                     *)
(* ===================================================================== *)

Lemma outside_raise_who {A} (who : string) (o : option A) (e : exn) :
  outside who o = Raise e -> e = External who.
Proof.
  destruct o; cbn [outside]; intros H; [discriminate H |].
  injection H as <-. reflexivity.
Qed.

Section SplitErrors.

Variable decode_address : pyval -> option bytes.
Variable b64decode : pyval -> option bytes.
Variable b64encode : bytes -> string.
Variable logic_prefix : bytes.
Variable checksum : bytes -> bytes.
Variable encode_address : bytes -> option string.
Variables Txn Lsig Stx RoundT HashT : Type.
Variable PaymentTxn :
  string -> Z -> RoundT -> RoundT -> HashT -> string -> Z -> option Txn.
Variable assign_group_id : Txn -> Txn -> option (Txn * Txn).
Variable LogicSig : bytes -> option Lsig.
Variable LogicSigTransaction : Txn -> Lsig -> option Stx.

Local Abbreviation patched := (patched decode_address b64decode b64encode).
Local Abbreviation get_program :=
  (get_program decode_address b64decode b64encode).
Local Abbreviation get_address :=
  (get_address decode_address b64decode b64encode logic_prefix checksum
               encode_address).
Local Abbreviation get_send_funds_transaction :=
  (get_send_funds_transaction decode_address b64decode b64encode logic_prefix
     checksum encode_address PaymentTxn assign_group_id LogicSig
     LogicSigTransaction).

(** What [get_program] and [get_address] raise comes from [inject] or
    from a collaborator. *)
Lemma get_program_raise_kind (self : template) (e : exn) :
  fst (get_program self) = Raise e ->
  e = AssertionError \/ e = TypeError \/ e = UnknownType
  \/ exists who, e = External who.
Proof.
  assert (Hp : forall orig_text offs vals tys,
             patched orig_text offs vals tys = Raise e ->
             e = AssertionError \/ e = TypeError \/ e = UnknownType
             \/ exists who, e = External who).
  { intros orig_text offs vals tys H. unfold patched in H.
    apply bind_raise in H. destruct H as [H | (o & _ & H)].
    { apply outside_raise_who in H. right. right. right. eexists. exact H. }
    apply bind_raise in H.
    destruct H as [H | (res & _ & H)]; [| discriminate H].
    apply (inject_raise decode_address b64decode _ _ H). }
  destruct self; cbn [get_program fst]; try discriminate; apply Hp.
Qed.

Lemma get_address_raise_kind (self : template) (e : exn) :
  get_address self = Raise e ->
  e = AssertionError \/ e = TypeError \/ e = UnknownType
  \/ exists who, e = External who.
Proof.
  unfold get_address. intros H.
  apply bind_raise in H. destruct H as [H | (prog & _ & H)].
  { apply (get_program_raise_kind _ _ H). }
  apply bind_raise in H. destruct H as [H | (raw & _ & H)];
    apply outside_raise_who in H; right; right; right; eexists; exact H.
Qed.

(** One call in a chain of binds: either it raised, an error of the
    engine or of a collaborator, or it returned [x] and the chain went
    on. *)
Ltac step_call H x :=
  apply bind_raise in H;
  destruct H as [H | (x & _ & H)];
  [ first [ apply outside_raise_who in H
          | match type of H with
            | fst (get_program _) = _ =>
                apply get_program_raise_kind in H
            | _ => apply get_address_raise_kind in H
            end;
            destruct H as [H | [H | [H | [who H]]]] ];
    congruence
  | ].

(** X21.  [Split.get_send_funds_transaction] raises [ZeroDivisionError]
    exactly for a [Split] object whose [ratd] is 0, whatever the amount
    and the mode. *)
Theorem zero_division_iff (self : Split.t) (amount : Z)
        (first_valid last_valid : RoundT) (gh : HashT) (precise : bool) :
  get_send_funds_transaction self amount first_valid last_valid gh precise
  = Raise ZeroDivisionError
  <-> Split.ratd self = 0.
Proof.
  split.
  - intros H.
    destruct (Z.eq_dec (Split.ratd self) 0) as [Hz | Hd]; [exact Hz |].
    exfalso.
    destruct (split_amounts_reduced self amount precise Hd) as [Hr Hs].
    cbv zeta in Hr, Hs.
    set (ratd := Split.ratd self
                 / Z.gcd (Split.ratn self) (Split.ratd self)) in *.
    unfold get_send_funds_transaction in H. rewrite Hs in H.
    apply bind_raise in H. destruct H as [H | ([amt_1 amt_2] & _ & H)].
    + destruct (amount mod ratd =? 0); [discriminate H |].
      destruct precise; [discriminate H |].
      apply bind_raise in H. destruct H as [H | (f & _ & H)].
      { unfold truediv in H. apply Z.eqb_neq in Hr. rewrite Hr in H.
        destruct (round_binary64 _ _); discriminate H. }
      apply bind_raise in H. destruct H as [H | (x & _ & H)].
      { unfold float_mul_int in H.
        apply bind_raise in H.
        destruct H as [H | (y & _ & H)]; [| discriminate H].
        unfold float_of_int in H.
        destruct (round_binary64 _ _); discriminate H. }
      apply bind_raise in H.
      destruct H as [H | (a1 & _ & H)]; [| discriminate H].
      unfold round in H. destruct x as [m ex | s |]; [| discriminate H ..].
      destruct (0 <=? ex); discriminate H.
    + step_call H a1. step_call H txn_1. step_call H a2. step_call H txn_2.
      step_call H grouped. destruct grouped as [txn_1' txn_2'].
      step_call H p. step_call H raw. step_call H lsig.
      step_call H stx_1. step_call H stx_2. discriminate H.
  - intros Hz.
    unfold get_send_funds_transaction, split_amounts, floordiv, pymod.
    rewrite Hz.
    destruct (Z.gcd (Split.ratn self) 0 =? 0) eqn:Hg; [reflexivity |].
    cbn [bind]. rewrite Z.div_0_l by (apply Z.eqb_neq; exact Hg).
    reflexivity.
Qed.

End SplitErrors.

Lemma zero_division_iff_witness :
  get_send_funds_transaction
    Demo.decode_address Demo.b64decode Demo.b64encode
    Demo.logic_prefix Demo.checksum Demo.encode_address
    Demo.PaymentTxn Demo.assign_group_id Demo.LogicSig
    Demo.LogicSigTransaction
    (Split.Make "OWNER-OWNER-OWNER-OWNER-OWNER-OW"
                "FIRST-FIRST-FIRST-FIRST-FIRST-FI"
                "SECOND-SECOND-SECOND-SECOND-SECO" 30 0 123456 1000 2000)
    100 1 1001 "genesis"%string false
  = Raise ZeroDivisionError.
Proof.
  apply (zero_division_iff
           Demo.decode_address Demo.b64decode Demo.b64encode
           Demo.logic_prefix Demo.checksum Demo.encode_address
           _ _ _ _ _ Demo.PaymentTxn Demo.assign_group_id Demo.LogicSig
           Demo.LogicSigTransaction).
  reflexivity.
Defined.

(* ===================================================================== *)
(** * The approximate share, in binary64 arithmetic                        *)
(* ===================================================================== *)

(** Floats are compared with rationals on a common scale: a finite float
    [Finite m q] with [- 1074 <= q] is the integer [m * 2 ^ (q + 1074)]
    over [2 ^ 1074]. *)

Lemma div_half_even_near (n d : Z) :
  0 < d -> - d <= 2 * (div_half_even n d * d - n) <= d.
Proof.
  intros Hd. unfold div_half_even.
  pose proof (Z.div_mod n d) as Hdm.
  pose proof (Z.mod_pos_bound n d Hd) as Hm.
  assert (Hn : n = d * (n / d) + n mod d) by (apply Hdm; lia).
  set (q := n / d) in *. set (r := n mod d) in *.
  clearbody q r. subst n.
  destruct (Z.compare_spec (2 * r) d) as [He | Hl | Hg];
    [destruct (Z.even q) |..]; nia.
Qed.

Lemma pow2_pos (e : Z) : 0 <= e -> 0 < 2 ^ e.
Proof. intros He. apply Z.pow_pos_nonneg; lia. Qed.

Lemma pow_scale (C e : Z) :
  0 <= C -> 0 <= C + e ->
  2 ^ (C + e) * 2 ^ Z.max 0 (- e) = 2 ^ C * 2 ^ Z.max 0 e.
Proof.
  intros HC HCe.
  destruct (Z.le_gt_cases 0 e) as [He | He].
  - rewrite (Z.max_l 0 (- e)), (Z.max_r 0 e) by lia.
    rewrite Z.pow_0_r, Z.mul_1_r. apply Z.pow_add_r; lia.
  - rewrite (Z.max_r 0 (- e)), (Z.max_l 0 e) by lia.
    rewrite Z.pow_0_r, Z.mul_1_r, <- Z.pow_add_r by lia.
    f_equal. lia.
Qed.

(** A comparison of [x * 2^max(0,-e)] with [y * 2^max(0,e)] is that of
    [x * 2^C] with [y * 2^(C+e)]. *)
Lemma scaled_lt (x y C e : Z) :
  0 <= C -> 0 <= C + e ->
  x * 2 ^ Z.max 0 (- e) < y * 2 ^ Z.max 0 e
  <-> x * 2 ^ C < y * 2 ^ (C + e).
Proof.
  intros HC HCe.
  pose proof (pow_scale C e HC HCe) as Hs.
  pose proof (pow2_pos C HC) as P1.
  pose proof (pow2_pos (C + e) HCe) as P2.
  pose proof (pow2_pos (Z.max 0 (- e)) (Z.le_max_l _ _)) as P3.
  pose proof (pow2_pos (Z.max 0 e) (Z.le_max_l _ _)) as P4.
  set (a := 2 ^ C) in *. set (b := 2 ^ (C + e)) in *.
  set (N := 2 ^ Z.max 0 (- e)) in *. set (P := 2 ^ Z.max 0 e) in *.
  clearbody a b N P.
  split; intros H.
  - apply (Z.mul_lt_mono_pos_r (N * P)); [nia |].
    replace (x * a * (N * P)) with (x * N * (a * P)) by ring.
    replace (y * b * (N * P)) with (y * P * (b * N)) by ring.
    rewrite Hs. apply Z.mul_lt_mono_pos_r; [nia | exact H].
  - apply (Z.mul_lt_mono_pos_r (a * P)); [nia |].
    rewrite <- Hs at 2.
    replace (x * N * (a * P)) with (x * a * (N * P)) by ring.
    replace (y * P * (b * N)) with (y * b * (N * P)) by ring.
    apply Z.mul_lt_mono_pos_r; [nia | exact H].
Qed.

Lemma ilog2_ratio_spec (n d C : Z) :
  0 < n -> 0 < d -> 0 <= C -> 0 <= C + ilog2_ratio n d ->
  d * 2 ^ (C + ilog2_ratio n d) <= n * 2 ^ C
  /\ n * 2 ^ C < d * 2 ^ (C + ilog2_ratio n d + 1).
Proof.
  intros Hn Hd HC. unfold ilog2_ratio.
  destruct (Z.log2_spec n Hn) as [Ha1 Ha2].
  destruct (Z.log2_spec d Hd) as [Hb1 Hb2].
  pose proof (Z.log2_nonneg n) as Ha0.
  pose proof (Z.log2_nonneg d) as Hb0.
  set (a := Z.log2 n) in *. set (b := Z.log2 d) in *. clearbody a b.
  replace (Z.succ a) with (a + 1) in Ha2 by lia.
  replace (Z.succ b) with (b + 1) in Hb2 by lia.
  (* the two bounds that come from the logarithms *)
  assert (Hlow : forall k, 0 <= k -> k = C + (a - b) - 1 ->
                           d * 2 ^ k < n * 2 ^ C).
  { intros k Hk ->.
    apply (Z.mul_lt_mono_pos_r (2 ^ (b + 1))); [apply pow2_pos; lia |].
    replace (d * 2 ^ (C + (a - b) - 1) * 2 ^ (b + 1))
      with (d * (2 ^ C * 2 ^ a))
      by (rewrite <- (Z.mul_assoc d), <- !Z.pow_add_r by lia;
          do 2 f_equal; lia).
    pose proof (pow2_pos C HC). pose proof (pow2_pos a Ha0).
    pose proof (pow2_pos (b + 1) ltac:(lia)).
    set (pa := 2 ^ a) in *. set (pb := 2 ^ (b + 1)) in *.
    set (pc := 2 ^ C) in *. clearbody pa pb pc.
    apply Z.lt_le_trans with (pb * (pc * pa)).
    - apply Z.mul_lt_mono_pos_r; [nia | lia].
    - replace (pb * (pc * pa)) with (pa * (pc * pb)) by ring.
      replace (n * pc * pb) with (n * (pc * pb)) by ring.
      apply Z.mul_le_mono_nonneg_r; [nia | lia]. }
  assert (Hhigh : forall k, 0 <= k -> k = C + (a - b) + 1 ->
                            n * 2 ^ C < d * 2 ^ k).
  { intros k Hk ->.
    apply (Z.mul_lt_mono_pos_r (2 ^ b)); [apply pow2_pos; lia |].
    replace (d * 2 ^ (C + (a - b) + 1) * 2 ^ b)
      with (d * (2 ^ (a + 1) * 2 ^ C))
      by (rewrite <- (Z.mul_assoc d), <- !Z.pow_add_r by lia;
          do 2 f_equal; lia).
    pose proof (pow2_pos C HC). pose proof (pow2_pos (a + 1) ltac:(lia)).
    pose proof (pow2_pos b Hb0).
    set (pa := 2 ^ (a + 1)) in *. set (pb := 2 ^ b) in *.
    set (pc := 2 ^ C) in *. clearbody pa pb pc.
    apply Z.lt_le_trans with (pa * (pc * pb)).
    - replace (n * pc * pb) with (n * (pc * pb)) by ring.
      apply Z.mul_lt_mono_pos_r; [nia | lia].
    - replace (pa * (pc * pb)) with (pb * (pa * pc)) by ring.
      apply Z.mul_le_mono_nonneg_r; [nia | lia]. }
  destruct (Z.ltb_spec (n * 2 ^ Z.max 0 (- (a - b)))
                       (d * 2 ^ Z.max 0 (a - b))) as [Ht | Ht];
    intros HCl.
  - apply scaled_lt with (C := C) in Ht; [| lia | lia].
    split.
    + apply Z.lt_le_incl. apply Hlow; lia.
    + replace (C + (a - b - 1) + 1) with (C + (a - b)) by lia. exact Ht.
  - split.
    + apply Z.nlt_ge. intros Hc. apply Z.nlt_ge in Ht. apply Ht.
      apply (scaled_lt n d C (a - b)); [lia | lia | exact Hc].
    + apply Hhigh; lia.
Qed.

Lemma ilog2_ratio_range (n d : Z) :
  0 < n -> 0 < d -> d <= n * 2 ^ 1022 -> n < d * 2 ^ 1023 ->
  - 1022 <= ilog2_ratio n d <= 1022.
Proof.
  intros Hn Hd Hlo Hhi.
  set (l := ilog2_ratio n d).
  split.
  - destruct (Z.le_gt_cases (- 1022) l) as [H | H]; [exact H | exfalso].
    destruct (ilog2_ratio_spec n d (- l) Hn Hd) as [_ Hup]; [lia | lia |].
    fold l in Hup. replace (- l + l + 1) with 1 in Hup by lia.
    assert (Hp : 2 ^ 1023 <= 2 ^ (- l)) by (apply Z.pow_le_mono_r; lia).
    replace (2 ^ 1023) with (2 * 2 ^ 1022) in Hp
      by (change 1023 with (1 + 1022); rewrite Z.pow_add_r by lia;
          reflexivity).
    pose proof (pow2_pos 1022 ltac:(lia)) as Pk.
    set (k := 2 ^ 1022) in *. set (c := 2 ^ (- l)) in *.
    clearbody k c. change (2 ^ 1) with 2 in Hup. nia.
  - destruct (Z.le_gt_cases l 1022) as [H | H]; [exact H | exfalso].
    destruct (ilog2_ratio_spec n d 0 Hn Hd) as [Hlow _]; [lia | lia |].
    fold l in Hlow. rewrite Z.pow_0_r, Z.mul_1_r, Z.add_0_l in Hlow.
    assert (Hp : 2 ^ 1023 <= 2 ^ l) by (apply Z.pow_le_mono_r; lia).
    set (k := 2 ^ 1023) in *. set (c := 2 ^ l) in *. clearbody k c. nia.
Qed.

(** In the normal range the float nearest to [n / d] is within
    [2 ^ - 53] of it, relatively. *)
Lemma round_binary64_near (n d : Z) :
  0 < n -> 0 < d -> d <= n * 2 ^ 1022 -> n < d * 2 ^ 1023 ->
  exists m q,
    round_binary64 n d = Finite m q
    /\ q = ilog2_ratio n d - 52
    /\ m = div_half_even (n * 2 ^ Z.max 0 (- q)) (d * 2 ^ Z.max 0 q)
    /\ - 1074 <= q
    /\ 2 ^ 53 * Z.abs (m * 2 ^ (q + 1074) * d - n * 2 ^ 1074)
       <= n * 2 ^ 1074.
Proof.
  intros Hn Hd Hlo Hhi.
  pose proof (ilog2_ratio_range n d Hn Hd Hlo Hhi) as Hl.
  unfold round_binary64.
  replace (n =? 0) with false by (symmetry; apply Z.eqb_neq; lia).
  rewrite (Z.abs_eq n) by lia. rewrite (Z.sgn_pos n) by lia.
  set (l := ilog2_ratio n d) in *.
  rewrite (Z.max_l (l - 52) (- 1074)) by lia.
  set (q := l - 52).
  set (N := 2 ^ Z.max 0 (- q)). set (P := 2 ^ Z.max 0 q).
  set (m := div_half_even (n * N) (d * P)).
  assert (PN : 0 < N) by (apply pow2_pos; apply Z.le_max_l).
  assert (PP : 0 < P) by (apply pow2_pos; apply Z.le_max_l).
  assert (Hy : 0 < d * P) by nia.
  pose proof (div_half_even_near (n * N) (d * P) Hy) as Hm. fold m in Hm.
  destruct (ilog2_ratio_spec n d 1074 Hn Hd) as [Hlow Hup];
    [lia | fold l; lia |].
  fold l in Hlow, Hup.
  pose proof (pow_scale 1074 q ltac:(lia) ltac:(unfold q; lia)) as Hs.
  fold N P in Hs.
  assert (HT : 2 ^ (1074 + l) = 2 ^ 52 * 2 ^ (q + 1074)).
  { rewrite <- Z.pow_add_r by (unfold q; lia). f_equal. unfold q. lia. }
  assert (HT1 : 2 ^ (1074 + l + 1) = 2 ^ 53 * 2 ^ (q + 1074)).
  { rewrite <- Z.pow_add_r by (unfold q; lia). f_equal. unfold q. lia. }
  rewrite HT in Hlow. rewrite HT1 in Hup.
  replace (1074 + q) with (q + 1074) in Hs by lia.
  assert (PT : 0 < 2 ^ (q + 1074)) by (apply pow2_pos; unfold q; lia).
  assert (PK : 0 < 2 ^ 1074) by (apply pow2_pos; lia).
  set (T := 2 ^ (q + 1074)) in *. set (K := 2 ^ 1074) in *.
  (* the mantissa has at most 53 bits, and one more only as 2 ^ 53 *)
  assert (Hm53 : m <= 2 ^ 53).
  { assert (Hx : n * N < 2 ^ 53 * (d * P)).
    { apply (Z.mul_lt_mono_pos_r (K * P)); [nia |].
      replace (n * N * (K * P)) with (n * K * (N * P)) by ring.
      replace (2 ^ 53 * (d * P) * (K * P))
        with (d * (2 ^ 53 * (K * P)) * P) by ring.
      rewrite <- Hs.
      replace (d * (2 ^ 53 * (T * N)) * P)
        with (d * (2 ^ 53 * T) * (N * P)) by ring.
      apply Z.mul_lt_mono_pos_r; [nia | exact Hup]. }
    change (2 ^ 53) with 9007199254740992 in *.
    clearbody T K N P m. nia. }
  assert (Hfin : (0 <=? q) && (2 ^ (1024 - q) <=? m) = false).
  { destruct (Z.leb_spec 0 q) as [Hq | Hq]; [| reflexivity].
    cbn [andb]. apply Z.leb_gt.
    apply Z.le_lt_trans with (2 ^ 53); [exact Hm53 |].
    apply Z.pow_lt_mono_r; unfold q in *; lia. }
  rewrite Hfin. exists (1 * m), q.
  rewrite Z.mul_1_l.
  split; [reflexivity |]. split; [reflexivity |]. split; [reflexivity |].
  split; [unfold q; lia |].
  assert (Hhalf : 2 * Z.abs (m * T * d - n * K) <= d * T).
  { assert (Heq : (m * T * d - n * K) * P = (m * (d * P) - n * N) * T).
    { transitivity (m * T * d * P - n * (K * P)); [ring |].
      rewrite <- Hs. ring. }
    apply (Z.mul_le_mono_pos_r _ _ P); [exact PP |].
    replace (2 * Z.abs (m * T * d - n * K) * P)
      with (2 * Z.abs ((m * T * d - n * K) * P))
      by (rewrite Z.abs_mul, (Z.abs_eq P) by lia; ring).
    rewrite Heq, Z.abs_mul, (Z.abs_eq T) by lia.
    replace (d * T * P) with (d * P * T) by ring.
    rewrite Z.mul_assoc.
    apply Z.mul_le_mono_nonneg_r; [lia |].
    clearbody m. lia. }
  change (2 ^ 53) with (2 ^ 52 * 2).
  apply Z.le_trans with (2 ^ 52 * (d * T)).
  - rewrite <- Z.mul_assoc. apply Z.mul_le_mono_nonneg_l; [lia | exact Hhalf].
  - replace (2 ^ 52 * (d * T)) with (d * (2 ^ 52 * T)) by ring. exact Hlow.
Qed.

(** An integer below [2 ^ 53] converts without rounding. *)
Lemma float_of_int_exact (n : Z) :
  0 < n < 2 ^ 53 ->
  exists m q,
    float_of_int n = Ok (Finite m q)
    /\ - 1074 <= q <= 0
    /\ m = n * 2 ^ (- q).
Proof.
  intros [Hn Hlt].
  assert (P1022 : 0 < 2 ^ 1022) by (apply pow2_pos; lia).
  assert (Hlo : 1 <= n * 2 ^ 1022) by nia.
  assert (Hhi : n < 1 * 2 ^ 1023).
  { apply Z.lt_le_trans with (2 ^ 53); [exact Hlt |].
    rewrite Z.mul_1_l. apply Z.pow_le_mono_r; lia. }
  destruct (round_binary64_near n 1 Hn ltac:(lia) Hlo Hhi)
    as (m & q & Hr & Hq & Hm & Hq0 & _).
  unfold float_of_int. rewrite Hr. exists m, q.
  split; [reflexivity |].
  assert (Hl : ilog2_ratio n 1 <= 52).
  { destruct (ilog2_ratio_spec n 1 1074 Hn ltac:(lia)) as [Hlow _];
      [lia | lia |].
    destruct (Z.le_gt_cases (ilog2_ratio n 1) 52) as [H | H]; [exact H |].
    exfalso.
    assert (Hp : 2 ^ (1074 + 53) <= 2 ^ (1074 + ilog2_ratio n 1))
      by (apply Z.pow_le_mono_r; lia).
    rewrite Z.pow_add_r in Hp by lia.
    assert (PK : 0 < 2 ^ 1074) by (apply pow2_pos; lia).
    set (K := 2 ^ 1074) in *. set (c := 2 ^ (1074 + ilog2_ratio n 1)) in *.
    clearbody K c. nia. }
  split; [lia |].
  rewrite Hm. rewrite (Z.max_l 0 q), (Z.max_r 0 (- q)) by lia.
  rewrite Z.pow_0_r.
  pose proof (div_half_even_near (n * 2 ^ (- q)) (1 * 1) ltac:(lia)) as Hd.
  lia.
Qed.

(** The product of a positive float by an integer below [2 ^ 53], in the
    normal range. *)
Lemma float_mul_int_near (m1 q1 n : Z) :
  0 < m1 -> - 1074 <= q1 -> 0 < n < 2 ^ 53 ->
  2 ^ 1074 <= m1 * 2 ^ (q1 + 1074) * n * 2 ^ 1022 ->
  m1 * 2 ^ (q1 + 1074) * n < 2 ^ 1074 * 2 ^ 1023 ->
  exists m3 q3,
    float_mul_int (Finite m1 q1) n = Ok (Finite m3 q3)
    /\ - 1074 <= q3
    /\ 2 ^ 53 * Z.abs (m3 * 2 ^ (q3 + 1074) - m1 * 2 ^ (q1 + 1074) * n)
       <= m1 * 2 ^ (q1 + 1074) * n.
Proof.
  intros Hm1 Hq1 Hn Hlo Hhi.
  destruct (float_of_int_exact n Hn) as (m2 & q2 & Hy & Hq2 & Hm2).
  unfold float_mul_int. rewrite Hy. cbn [bind float_mul].
  set (e := q1 + q2).
  set (P := 2 ^ Z.max 0 e). set (N := 2 ^ Z.max 0 (- e)).
  assert (PP : 0 < P) by (apply pow2_pos; apply Z.le_max_l).
  assert (PN : 0 < N) by (apply pow2_pos; apply Z.le_max_l).
  assert (PK : 0 < 2 ^ 1074) by (apply pow2_pos; lia).
  assert (PT : 0 < 2 ^ (q1 + 1074)) by (apply pow2_pos; lia).
  assert (PQ : 0 < 2 ^ (- q2)) by (apply pow2_pos; lia).
  assert (Hs : 2 ^ (q1 + 1074) * N = 2 ^ 1074 * 2 ^ (- q2) * P).
  { pose proof (pow_scale (1074 - q2) e ltac:(lia) ltac:(unfold e; lia))
      as Hs.
    fold N P in Hs.
    replace (1074 - q2 + e) with (q1 + 1074) in Hs by (unfold e; lia).
    rewrite Hs. f_equal.
    rewrite <- Z.pow_add_r by lia. reflexivity. }
  set (T := 2 ^ (q1 + 1074)) in *. set (K := 2 ^ 1074) in *.
  set (D := 2 ^ (- q2)) in *.
  assert (Hid : m1 * m2 * P * K = m1 * T * n * N).
  { rewrite Hm2. fold D.
    transitivity (m1 * n * (K * D * P)); [ring |].
    rewrite <- Hs. ring. }
  assert (Hn' : 0 < m1 * m2 * P).
  { rewrite Hm2. fold D. clearbody T K D P N. nia. }
  assert (R1 : N <= m1 * m2 * P * 2 ^ 1022).
  { apply (Z.mul_le_mono_pos_r _ _ K); [exact PK |].
    replace (m1 * m2 * P * 2 ^ 1022 * K)
      with (m1 * m2 * P * K * 2 ^ 1022) by ring.
    rewrite Hid.
    replace (m1 * T * n * N * 2 ^ 1022)
      with (m1 * T * n * 2 ^ 1022 * N) by ring.
    rewrite (Z.mul_comm N K).
    apply Z.mul_le_mono_nonneg_r; [lia | exact Hlo]. }
  assert (R2 : m1 * m2 * P < N * 2 ^ 1023).
  { apply (Z.mul_lt_mono_pos_r K); [exact PK |].
    rewrite Hid.
    replace (N * 2 ^ 1023 * K) with (K * 2 ^ 1023 * N) by ring.
    apply Z.mul_lt_mono_pos_r; [exact PN | exact Hhi]. }
  destruct (round_binary64_near (m1 * m2 * P) N Hn' PN R1 R2)
    as (m3 & q3 & Hr & _ & _ & Hq3 & Herr).
  exists m3, q3. split; [rewrite Hr; reflexivity |].
  split; [exact Hq3 |].
  fold K in Herr. rewrite Hid in Herr.
  set (T3 := 2 ^ (q3 + 1074)) in *.
  replace (m3 * T3 * N - m1 * T * n * N)
    with ((m3 * T3 - m1 * T * n) * N) in Herr by ring.
  rewrite Z.abs_mul, (Z.abs_eq N), Z.mul_assoc in Herr by lia.
  apply (Z.mul_le_mono_pos_r _ _ N); [exact PN | exact Herr].
Qed.

(** [round] of a finite float is within a half of it. *)
Lemma round_near (m q : Z) :
  - 1074 <= q ->
  exists a,
    round (Finite m q) = Ok a
    /\ 2 * Z.abs (a * 2 ^ 1074 - m * 2 ^ (q + 1074)) <= 2 ^ 1074.
Proof.
  intros Hq. unfold round.
  assert (PK : 0 < 2 ^ 1074) by (apply pow2_pos; lia).
  destruct (Z.leb_spec 0 q) as [H0 | H0].
  - exists (m * 2 ^ q). split; [reflexivity |].
    rewrite Z.pow_add_r by lia.
    replace (m * 2 ^ q * 2 ^ 1074 - m * (2 ^ q * 2 ^ 1074)) with 0 by ring.
    cbn [Z.abs]. lia.
  - exists (div_half_even m (2 ^ (- q))). split; [reflexivity |].
    assert (PD : 0 < 2 ^ (- q)) by (apply pow2_pos; lia).
    assert (PT : 0 < 2 ^ (q + 1074)) by (apply pow2_pos; lia).
    pose proof (div_half_even_near m (2 ^ (- q)) PD) as Hd.
    assert (HK : 2 ^ 1074 = 2 ^ (- q) * 2 ^ (q + 1074)).
    { rewrite <- Z.pow_add_r by lia. f_equal. lia. }
    set (a := div_half_even m (2 ^ (- q))) in *.
    set (D := 2 ^ (- q)) in *. set (T := 2 ^ (q + 1074)) in *.
    rewrite HK.
    replace (a * (D * T) - m * T) with ((a * D - m) * T) by ring.
    rewrite Z.abs_mul, (Z.abs_eq T), Z.mul_assoc by lia.
    apply Z.mul_le_mono_nonneg_r; [lia |].
    clearbody a D T. lia.
Qed.

(** The three roundings together: a quotient and a product within
    [2 ^ - 53] relatively, and a rounding to an integer within a half,
    stay below one unit for a share of at most [2 ^ 51 - 1]. *)
Lemma share_error (A n d K V1 V3 a : Z) :
  0 < A -> 0 < n -> 0 < d -> 0 < K ->
  2 ^ 53 * Z.abs (V1 * d - A * K) <= A * K ->
  2 ^ 53 * Z.abs (V3 - V1 * n) <= V1 * n ->
  2 * Z.abs (a * K - V3) <= K ->
  A * n <= (2 ^ 51 - 1) * d ->
  Z.abs (a * d - A * n) < d.
Proof.
  intros HA Hn Hd HK E1 E2 E3 Hs.
  change (2 ^ 53) with 9007199254740992 in *.
  change (2 ^ 51 - 1) with 2251799813685247 in *.
  set (u := 9007199254740992) in *.
  assert (Hid : (a * d - A * n) * K
                = d * (a * K - V3) + d * (V3 - V1 * n) + n * (V1 * d - A * K))
    by ring.
  set (ex := Z.abs (a * K - V3)) in *.
  set (ey := Z.abs (V3 - V1 * n)) in *.
  set (ew := Z.abs (V1 * d - A * K)) in *.
  assert (Hex : 0 <= ex) by apply Z.abs_nonneg.
  assert (Hey : 0 <= ey) by apply Z.abs_nonneg.
  assert (Hew : 0 <= ew) by apply Z.abs_nonneg.
  assert (Htri : Z.abs (a * d - A * n) * K <= d * ex + d * ey + n * ew).
  { rewrite <- (Z.abs_eq K) at 1 by lia. rewrite <- Z.abs_mul, Hid.
    eapply Z.le_trans; [apply Z.abs_triangle |].
    eapply Z.le_trans;
      [apply Z.add_le_mono_r; apply Z.abs_triangle |].
    rewrite !Z.abs_mul, (Z.abs_eq d), (Z.abs_eq n) by lia.
    fold ex ey ew. lia. }
  assert (F1 : u * (V1 * d) <= (u + 1) * (A * K)).
  { assert (V1 * d - A * K <= ew) by (unfold ew; lia). unfold u in *. lia. }
  assert (F2 : u * (u * (d * ey)) <= (u + 1) * (A * K) * n).
  { apply Z.le_trans with (u * (V1 * d) * n).
    - replace (u * (u * (d * ey))) with (u * d * (u * ey)) by ring.
      replace (u * (V1 * d) * n) with (u * d * (V1 * n)) by ring.
      apply Z.mul_le_mono_nonneg_l; [unfold u; nia | exact E2].
    - apply Z.mul_le_mono_nonneg_r; [lia | exact F1]. }
  assert (F3 : u * (u * (n * ew)) <= u * (A * K) * n).
  { replace (u * (u * (n * ew))) with (u * n * (u * ew)) by ring.
    replace (u * (A * K) * n) with (u * n * (A * K)) by ring.
    apply Z.mul_le_mono_nonneg_l; [unfold u; nia | exact E1]. }
  assert (F4 : u * (u * (d * ex)) * 2 <= u * u * (d * K)).
  { replace (u * (u * (d * ex)) * 2) with (u * u * d * (2 * ex)) by ring.
    replace (u * u * (d * K)) with (u * u * d * K) by ring.
    apply Z.mul_le_mono_nonneg_l; [unfold u; nia | exact E3]. }
  assert (F5 : (A * K) * n <= 2251799813685247 * (d * K)).
  { replace (A * K * n) with (A * n * K) by ring.
    replace (2251799813685247 * (d * K))
      with (2251799813685247 * d * K) by ring.
    apply Z.mul_le_mono_nonneg_r; [lia | exact Hs]. }
  assert (Hfin : u * u * (Z.abs (a * d - A * n) * K) * 2
                 < u * u * (d * K) * 2).
  { assert (PdK : 0 < d * K) by nia.
    set (E := Z.abs (a * d - A * n) * K) in *.
    set (dK := d * K) in *. set (AKn := A * K * n) in *.
    set (t1 := d * ex) in *. set (t2 := d * ey) in *. set (t3 := n * ew) in *.
    replace ((u + 1) * (A * K) * n) with ((u + 1) * AKn) in F2
      by (unfold AKn; ring).
    replace (u * (A * K) * n) with (u * AKn) in F3 by (unfold AKn; ring).
    clearbody E dK AKn t1 t2 t3. unfold u in *. lia. }
  assert (PK2 : 0 < u * u * 2 * K) by (unfold u; lia).
  apply (Z.mul_lt_mono_pos_r (u * u * 2 * K)); [exact PK2 |].
  replace (Z.abs (a * d - A * n) * (u * u * 2 * K))
    with (u * u * (Z.abs (a * d - A * n) * K) * 2) by ring.
  replace (d * (u * u * 2 * K)) with (u * u * (d * K) * 2) by ring.
  exact Hfin.
Qed.

(** X22.  Approximate mode is within one unit for shares up to
    [2 ^ 51 - 1].  For a positive amount that is not a multiple of the
    reduced denominator, with [0 < ratn < 2 ^ 53], [0 < ratd < 2 ^ 64]
    and [amount * ratn / ratd <= 2 ^ 51 - 1], the call computes
    [(amt_1, amount - amt_1)] with [amt_1] less than one unit away from
    the exact share [amount * ratn / ratd]. *)
Theorem split_approximate_within_one (self : Split.t) (amount : Z) :
  0 < Split.ratn self < 2 ^ 53 ->
  0 < Split.ratd self < 2 ^ 64 ->
  0 < amount ->
  amount * Split.ratn self <= (2 ^ 51 - 1) * Split.ratd self ->
  amount mod (Split.ratd self / Z.gcd (Split.ratn self) (Split.ratd self))
  <> 0 ->
  exists amt_1,
    split_amounts self amount false = Ok (amt_1, amount - amt_1)
    /\ Z.abs (amt_1 * Split.ratd self - amount * Split.ratn self)
       < Split.ratd self.
Proof.
  intros Hrn Hrd HA Hshare Hmod.
  assert (Hd0 : Split.ratd self <> 0) by lia.
  destruct (split_amounts_reduced self amount false Hd0) as [_ Hs].
  destruct (reduced_coprime (Split.ratn self) (Split.ratd self) Hd0)
    as (Hg & Hn & Hq & _).
  cbv zeta in *.
  set (g := Z.gcd (Split.ratn self) (Split.ratd self)) in *.
  set (n := Split.ratn self / g) in *.
  set (d := Split.ratd self / g) in *.
  rewrite Hs.
  replace (amount mod d =? 0) with false
    by (symmetry; apply Z.eqb_neq; exact Hmod).
  clear Hs Hmod.
  set (rn := Split.ratn self) in *. set (rd := Split.ratd self) in *.
  clearbody rn rd g n d.
  assert (Pn : 0 < n) by nia.
  assert (Pd : 0 < d) by nia.
  assert (Bn : n < 2 ^ 53) by nia.
  assert (Bd : d < 2 ^ 64) by nia.
  assert (Hsh : amount * n <= (2 ^ 51 - 1) * d).
  { apply (Z.mul_le_mono_pos_r _ _ g); [exact Hg |].
    replace (amount * n * g) with (amount * (n * g)) by ring.
    replace ((2 ^ 51 - 1) * d * g) with ((2 ^ 51 - 1) * (d * g)) by ring.
    rewrite <- Hn, <- Hq. exact Hshare. }
  assert (PK : 0 < 2 ^ 1074) by (apply pow2_pos; lia).
  assert (P1022 : 2 ^ 65 <= 2 ^ 1022) by (apply Z.pow_le_mono_r; lia).
  assert (P1023 : 2 ^ 52 <= 2 ^ 1023) by (apply Z.pow_le_mono_r; lia).
  (* the quotient *)
  assert (R1 : d <= amount * 2 ^ 1022).
  { change (2 ^ 65) with 36893488147419103232 in P1022.
    change (2 ^ 64) with 18446744073709551616 in Bd.
    set (k := 2 ^ 1022) in *. clearbody k. nia. }
  assert (R2 : amount < d * 2 ^ 1023).
  { change (2 ^ 52) with 4503599627370496 in P1023.
    change (2 ^ 51 - 1) with 2251799813685247 in Hsh.
    set (k := 2 ^ 1023) in *. clearbody k. nia. }
  destruct (round_binary64_near amount d HA Pd R1 R2)
    as (m1 & q1 & Hf & _ & _ & Hq1 & E1).
  unfold truediv.
  replace (d =? 0) with false by (symmetry; apply Z.eqb_neq; lia).
  rewrite (Z.sgn_pos d), Z.mul_1_r, (Z.abs_eq d), Hf by lia.
  cbn [bind].
  assert (PT1 : 0 < 2 ^ (q1 + 1074)) by (apply pow2_pos; lia).
  set (K := 2 ^ 1074) in *. set (T1 := 2 ^ (q1 + 1074)) in *.
  assert (Hlow : amount * K <= 2 * (m1 * T1 * d)).
  { change (2 ^ 53) with 9007199254740992 in E1.
    set (p := m1 * T1 * d) in *. set (r := amount * K) in *.
    assert (0 < r) by (unfold r; nia).
    clearbody p r. lia. }
  assert (Hupp : m1 * T1 * d <= 2 * (amount * K)).
  { change (2 ^ 53) with 9007199254740992 in E1.
    set (p := m1 * T1 * d) in *. set (r := amount * K) in *.
    assert (0 < r) by (unfold r; nia).
    clearbody p r. lia. }
  assert (Pm1 : 0 < m1).
  { assert (0 < amount * K) by nia.
    assert (0 < m1 * T1 * d) by lia.
    clearbody K T1. nia. }
  (* the product *)
  assert (R3 : K <= m1 * T1 * n * 2 ^ 1022).
  { apply Z.le_trans with (m1 * T1 * 2 ^ 65).
    - apply Z.le_trans with (amount * K); [clearbody K; nia |].
      apply Z.le_trans with (2 * (m1 * T1 * d)); [exact Hlow |].
      change (2 ^ 65) with (2 * 2 ^ 64).
      replace (2 * (m1 * T1 * d)) with (m1 * T1 * (2 * d)) by ring.
      apply Z.mul_le_mono_nonneg_l; [clearbody K T1; nia | lia].
    - apply Z.le_trans with (m1 * T1 * 2 ^ 1022).
      + apply Z.mul_le_mono_nonneg_l; [clearbody K T1; nia | exact P1022].
      + apply Z.mul_le_mono_nonneg_r; [lia |].
        clearbody K T1. nia. }
  assert (R4 : m1 * T1 * n < K * 2 ^ 1023).
  { apply (Z.mul_lt_mono_pos_r d); [exact Pd |].
    apply Z.le_lt_trans with (2 * (amount * K) * n).
    - replace (m1 * T1 * n * d) with (m1 * T1 * d * n) by ring.
      apply Z.mul_le_mono_nonneg_r; [lia | exact Hupp].
    - apply Z.le_lt_trans with (2 * K * ((2 ^ 51 - 1) * d)).
      + replace (2 * (amount * K) * n) with (2 * K * (amount * n)) by ring.
        apply Z.mul_le_mono_nonneg_l; [lia | exact Hsh].
      + replace (2 * K * ((2 ^ 51 - 1) * d))
          with (K * d * (2 * (2 ^ 51 - 1))) by ring.
        replace (K * 2 ^ 1023 * d) with (K * d * 2 ^ 1023) by ring.
        apply Z.mul_lt_mono_pos_l; [clearbody K; nia |].
        change (2 * (2 ^ 51 - 1)) with (2 ^ 52 - 2). lia. }
  destruct (float_mul_int_near m1 q1 n Pm1 Hq1 (conj Pn Bn) R3 R4)
    as (m3 & q3 & Hx & Hq3 & E2).
  rewrite Hx. cbn [bind].
  (* the rounding *)
  destruct (round_near m3 q3 Hq3) as (a & Ha & E3).
  rewrite Ha. cbn [bind].
  exists a. split; [reflexivity |].
  fold K T1 in E2. fold K in E3.
  pose proof (share_error amount n d K (m1 * T1) (m3 * 2 ^ (q3 + 1074)) a
                HA Pn Pd PK E1 E2 E3 Hsh) as Hfin.
  rewrite Hn, Hq.
  replace (a * (d * g) - amount * (n * g)) with ((a * d - amount * n) * g)
    by ring.
  rewrite Z.abs_mul, (Z.abs_eq g) by lia.
  apply Z.mul_lt_mono_pos_r; [exact Hg | exact Hfin].
Qed.

(** Ratio 30:100, amount 101: the first amount is 30, for a share of
    30.3. *)
Lemma split_approximate_within_one_witness :
  split_amounts Demo.split_30_100 101 false = Ok (30, 71)
  /\ exists amt_1,
      split_amounts Demo.split_30_100 101 false = Ok (amt_1, 101 - amt_1)
      /\ Z.abs (amt_1 * Split.ratd Demo.split_30_100
                - 101 * Split.ratn Demo.split_30_100)
         < Split.ratd Demo.split_30_100.
Proof.
  split; [vm_compute; reflexivity |].
  apply (split_approximate_within_one Demo.split_30_100 101).
  - vm_compute. split; reflexivity.
  - vm_compute. split; reflexivity.
  - reflexivity.
  - vm_compute. discriminate.
  - vm_compute. discriminate.
Defined.
